(** * The translation pipeline of the bot (main_V2.py)

    A shallow embedding of the time-bounded LRU cache, the per-user rate
    limiter, the language normaliser, the message filter, the backend
    fallback chain and the message handler, with the properties the
    specification states about them.

    Conventions.
    - A Python [str] is a list of Unicode code points ([str] below), so that
      [len] counts what Python counts.
    - A reading of [time.time()] is an integer, in seconds: the program only
      subtracts and compares readings. The functions that read the clock
      once take the reading as [now].
    - A Python exception is a value of [exn]; a call that can raise returns a
      [result]. State changes made before a raise are kept, as in Python.
    - [translate_text] and [on_message] are coroutines. The section of the
      program gives them run from their first line to their end with no
      other handler in between; the module [Coroutine] gives them with
      their suspensions, and the event loop that interleaves handlers;
      [on_message_alone] relates the two. A property stated of [on_message]
      is a property of one handler that is not interrupted. *)

From Stdlib Require Import ZArith String Ascii.
From stdpp Require Import base decidable option numbers list sorting gmap
  fin_maps.

Local Open Scope Z_scope.

(** ** Exceptions *)

(** The exception classes the program distinguishes. [Forbidden] is a
    subclass of [HTTPException]; all five are subclasses of [Exception]. *)
Inductive exn : Type :=
  | KeyError
  | AttributeError
  | Forbidden
  | HTTPException
  | Exception_ (name : string).

Inductive result (A : Type) : Type :=
  | Ok (a : A)
  | Raise (e : exn).
Arguments Ok {A} a.
Arguments Raise {A} e.

(** ** collections.OrderedDict

    The entries in insertion order, oldest first. The operations are the ones
    TTLCache uses. *)
Module OrderedDict.
Section ordered_dict.
Context {K : Type} `{EqDecision K} {V : Type}.

Abbreviation t := (list (K * V)).

Definition keys (d : t) : list K := d.*1.

(** [d[key]], [None] standing for KeyError *)
Fixpoint getitem (key : K) (d : t) : option V :=
  match d with
  | [] => None
  | (k, v) :: d' => if decide (k = key) then Some v else getitem key d'
  end.

(** [key in d] *)
Definition contains (key : K) (d : t) : bool :=
  match getitem key d with Some _ => true | None => false end.

(** [del d[key]] for a key that is present *)
Fixpoint delitem (key : K) (d : t) : t :=
  match d with
  | [] => []
  | (k, v) :: d' =>
      if decide (k = key) then delitem key d' else (k, v) :: delitem key d'
  end.

(** the in-place update of [d[key] = value] for a key that is present *)
Fixpoint replace (key : K) (value : V) (d : t) : t :=
  match d with
  | [] => []
  | (k, v) :: d' =>
      if decide (k = key) then (k, value) :: d'
      else (k, v) :: replace key value d'
  end.

(** [d[key] = value]: a present key keeps its position, a new key goes to
    the end *)
Definition setitem (key : K) (value : V) (d : t) : t :=
  if contains key d then replace key value d else d ++ [(key, value)].

(** [d.move_to_end(key)], [None] standing for KeyError *)
Definition move_to_end (key : K) (d : t) : option t :=
  match getitem key d with
  | Some v => Some (delitem key d ++ [(key, v)])
  | None => None
  end.

(** [len(d)] *)
Definition len (d : t) : Z := Z.of_nat (length d).
End ordered_dict.
End OrderedDict.

(** ** class TTLCache *)
Module TTLCache.
Section ttl_cache.
Context {K : Type} `{Countable K} {V : Type}.

Record t : Type := mk {
  _cache : list (K * V);
  _timestamps : gmap K Z;
  max_size : Z;
  ttl : Z;
}.

Definition __init__ (max_size ttl_seconds : Z) : t :=
  {| _cache := []; _timestamps := ∅;
     max_size := max_size; ttl := ttl_seconds |}.

Definition with_store (c : t) (d : list (K * V)) (ts : gmap K Z) : t :=
  {| _cache := d; _timestamps := ts; max_size := max_size c; ttl := ttl c |}.

(** [get(key)] with [now] the reading of the clock in line 87. *)
Definition get (now : Z) (key : K) (c : t) : result (option V) * t :=
  if OrderedDict.contains key (_cache c) then
    match _timestamps c !! key with
    | None => (Raise KeyError, c)
    | Some ts =>
        if now - ts >? ttl c then
          (Ok None,
           with_store c (OrderedDict.delitem key (_cache c))
                        (delete key (_timestamps c)))
        else
          match OrderedDict.move_to_end key (_cache c) with
          | None => (Raise KeyError, c)
          | Some d =>
              let c' := with_store c d (_timestamps c) in
              match OrderedDict.getitem key d with
              | Some v => (Ok (Some v), c')
              | None => (Raise KeyError, c')
              end
          end
    end
  else (Ok None, c).

(** The loop of lines 100-102: while the dictionary is larger than
    [max_size], [popitem(last=False)] takes its first entry, raising KeyError
    when there is none, and the timestamp of the entry is dropped. *)
Fixpoint evict (max_size : Z) (d : list (K * V)) (ts : gmap K Z)
    {struct d} : result unit * (list (K * V) * gmap K Z) :=
  if OrderedDict.len d >? max_size then
    match d with
    | [] => (Raise KeyError, (d, ts))
    | (oldest, _) :: d' => evict max_size d' (delete oldest ts)
    end
  else (Ok tt, (d, ts)).

(** [set(key, value)] with [now] the reading of the clock in line 99. *)
Definition set (now : Z) (key : K) (value : V) (c : t) : result unit * t :=
  match (if OrderedDict.contains key (_cache c)
         then OrderedDict.move_to_end key (_cache c)
         else Some (_cache c)) with
  | None => (Raise KeyError, c)
  | Some d =>
      let d := OrderedDict.setitem key value d in
      let ts := <[key := now]> (_timestamps c) in
      let '(r, (d, ts)) := evict (max_size c) d ts in
      (r, with_store c d ts)
  end.

(** [len(cache)] *)
Definition __len__ (c : t) : Z := OrderedDict.len (_cache c).
End ttl_cache.
Arguments t : clear implicits.
Arguments t K {_ _} V.
End TTLCache.

(** ** Python strings *)

Abbreviation str := (list N).

(** A string literal of the source that is plain ASCII. *)
Fixpoint py (s : string) : str :=
  match s with
  | EmptyString => []
  | String a s' => N_of_ascii a :: py s'
  end.

(** The characters [str.strip()] removes: those for which [str.isspace]
    holds. *)
Definition isspace (c : N) : bool :=
  ((9 <=? c) && (c <=? 13) || (28 <=? c) && (c <=? 32) || (c =? 133)
   || (c =? 160) || (c =? 5760) || (8192 <=? c) && (c <=? 8202)
   || (c =? 8232) || (c =? 8233) || (c =? 8239) || (c =? 8287)
   || (c =? 12288))%N.

Fixpoint lstrip (s : str) : str :=
  match s with
  | [] => []
  | c :: s' => if isspace c then lstrip s' else s
  end.

Definition rstrip (s : str) : str := rev (lstrip (rev s)).

(** [s.strip()] *)
Definition strip (s : str) : str := rstrip (lstrip s).

(** [s.startswith(prefix)] *)
Fixpoint startswith (prefix s : str) : bool :=
  match prefix, s with
  | [], _ => true
  | _ :: _, [] => false
  | p :: prefix', c :: s' => (p =? c)%N && startswith prefix' s'
  end.

(** [s.startswith(prefixes)] for a tuple of prefixes *)
Definition startswith_any (prefixes : list str) (s : str) : bool :=
  existsb (fun p => startswith p s) prefixes.

(** [s.replace(' ', '')] *)
Definition remove_spaces (s : str) : str :=
  List.filter (fun c => negb (c =? 32)%N) s.

(** [len(s)] *)
Definition len (s : str) : Z := Z.of_nat (length s).

(** ASCII lower-casing, which [str.lower] agrees with on ASCII strings. *)
Definition ascii_lower_char (c : N) : N :=
  if ((65 <=? c) && (c <=? 90))%N then (c + 32)%N else c.

Definition ascii_lower (s : str) : str := map ascii_lower_char s.

Definition is_ascii (s : str) : Prop := Forall (fun c => (c < 128)%N) s.

(** The Unicode tables of the Python runtime behind [str.isalpha] and
    [str.lower], which are not part of the repository: what the program
    relies on is taken as an interface. *)
Class Unicode : Type := {
  isalpha : N -> bool;
  lower : str -> str;
  isalpha_space : isalpha 32%N = false;
  lower_lower : forall s, lower (lower s) = lower s;
  lower_ascii : forall s, is_ascii s -> lower s = ascii_lower s;
}.

(** ** Configuration (lines 35-52) *)

(** The two values read from the process environment. *)
Class Config : Type := {
  COOLDOWN_SECONDS : Z;
  MAX_TRANSLATIONS_PER_HOUR : Z;
}.

(** The values used when the environment sets none. *)
Definition default_config : Config :=
  {| COOLDOWN_SECONDS := 30; MAX_TRANSLATIONS_PER_HOUR := 30 |}.

Definition MIN_MESSAGE_LENGTH : Z := 15.
Definition MAX_MESSAGE_LENGTH : Z := 1500.
Definition CACHE_MAX_SIZE : Z := 2000.
Definition CACHE_TTL_SECONDS : Z := 3600.

(** Regional-indicator pairs of the three flags. *)
Definition flag_gb : str := [127468; 127463]%N.
Definition flag_fr : str := [127467; 127479]%N.
Definition flag_es : str := [127466; 127480]%N.

Definition TARGET_LANGUAGES : list (str * str) :=
  [ (py "en", flag_gb ++ py " English");
    (py "fr", flag_fr ++ py " Fran" ++ [231%N] ++ py "ais");
    (py "es", flag_es ++ py " Espa" ++ [241%N] ++ py "ol") ].

Definition LANG_FLAGS : list (str * str) :=
  [ (py "en", flag_gb); (py "fr", flag_fr); (py "es", flag_es) ].

(** ** normalize_lang (lines 143-145) *)

Definition mapping : gmap str str :=
  <[py "zh-cn" := py "zh"]> (<[py "zh-tw" := py "zh"]>
  (<[py "pt-br" := py "pt"]> (<[py "iw" := py "he"]> ∅))).

Definition normalize_lang `{Unicode} (lang : str) : str :=
  default (lower lang) (mapping !! lower lang).

(** ** should_translate (lines 180-190) *)

Module discord.
Record User : Type := { id : Z; name : str; bot : bool }.
(** The channel of a message: a channel of a server has a name; the
    channel of a direct message has no attribute [name]. *)
Inductive Channel : Type :=
  | TextChannel (name : str)
  | DMChannel.
(** [channel.name] *)
Definition channel_name (channel : Channel) : result str :=
  match channel with
  | TextChannel name => Ok name
  | DMChannel => Raise AttributeError
  end.
Record Message : Type := { author : User; content : str; channel : Channel }.
(** An embed is its list of fields, each a name and a value. *)
Record Embed : Type := { fields : list (str * str) }.
End discord.

Definition forbidden_prefixes : list str :=
  [py "!"; py "/"; py "http://"; py "https://";
   py "<@"; py "<#"; py "<:"; py "```"].

Definition should_translate `{Unicode} (message : discord.Message) : bool :=
  if discord.bot (discord.author message) then false
  else
    let text := strip (discord.content message) in
    if (len text <? MIN_MESSAGE_LENGTH) || (len text >? MAX_MESSAGE_LENGTH)
    then false
    else if startswith_any forbidden_prefixes text then false
    else if forallb (fun c => negb (isalpha c)) (remove_spaces text) then false
    else true.

(** ** Program state (lines 108-119) *)

Record Stats : Type := {
  translations_total : Z;
  cache_hits : Z;
  rate_limit_blocks : Z;
  errors : Z;
  api_calls : Z;
}.

Inductive Backend : Type := MyMemory | Google.
Inductive Level : Type := INFO | WARNING | ERROR.

(** What one run of the program does to the outside, in order. *)
Inductive event : Type :=
  | Translate (backend : Backend) (source target text : str)
  | Log (level : Level)
  | Reply (embed : discord.Embed).

Record World : Type := {
  translation_cache : TTLCache.t (str * str * str) str;
  author_cooldowns : gmap Z Z;
  author_translation_count : gmap Z (list Z);
  stats : Stats;
  (** the events so far, oldest first *)
  trace : list event;
  (** how many answers the outside has given so far *)
  ticks : nat;
}.

Definition initial_stats : Stats :=
  {| translations_total := 0; cache_hits := 0; rate_limit_blocks := 0;
     errors := 0; api_calls := 0 |}.

Definition initial_world : World :=
  {| translation_cache := TTLCache.__init__ CACHE_MAX_SIZE CACHE_TTL_SECONDS;
     author_cooldowns := ∅; author_translation_count := ∅;
     stats := initial_stats; trace := []; ticks := 0 |}.

Definition with_cache (c : TTLCache.t (str * str * str) str) (w : World) :=
  {| translation_cache := c; author_cooldowns := author_cooldowns w;
     author_translation_count := author_translation_count w;
     stats := stats w; trace := trace w; ticks := ticks w |}.

Definition with_cooldowns (m : gmap Z Z) (w : World) :=
  {| translation_cache := translation_cache w; author_cooldowns := m;
     author_translation_count := author_translation_count w;
     stats := stats w; trace := trace w; ticks := ticks w |}.

Definition with_counts (m : gmap Z (list Z)) (w : World) :=
  {| translation_cache := translation_cache w;
     author_cooldowns := author_cooldowns w;
     author_translation_count := m;
     stats := stats w; trace := trace w; ticks := ticks w |}.

Definition with_stats (s : Stats) (w : World) :=
  {| translation_cache := translation_cache w;
     author_cooldowns := author_cooldowns w;
     author_translation_count := author_translation_count w;
     stats := s; trace := trace w; ticks := ticks w |}.

Definition emit (e : event) (w : World) :=
  {| translation_cache := translation_cache w;
     author_cooldowns := author_cooldowns w;
     author_translation_count := author_translation_count w;
     stats := stats w; trace := trace w ++ [e]; ticks := ticks w |}.

Definition tick (w : World) :=
  {| translation_cache := translation_cache w;
     author_cooldowns := author_cooldowns w;
     author_translation_count := author_translation_count w;
     stats := stats w; trace := trace w; ticks := S (ticks w) |}.

(** [stats[counter] += n] for each of the counters *)
Definition add_translations_total (n : Z) (s : Stats) : Stats :=
  {| translations_total := translations_total s + n;
     cache_hits := cache_hits s; rate_limit_blocks := rate_limit_blocks s;
     errors := errors s; api_calls := api_calls s |}.
Definition incr_cache_hits (s : Stats) : Stats :=
  {| translations_total := translations_total s;
     cache_hits := cache_hits s + 1; rate_limit_blocks := rate_limit_blocks s;
     errors := errors s; api_calls := api_calls s |}.
Definition incr_rate_limit_blocks (s : Stats) : Stats :=
  {| translations_total := translations_total s;
     cache_hits := cache_hits s; rate_limit_blocks := rate_limit_blocks s + 1;
     errors := errors s; api_calls := api_calls s |}.
Definition incr_errors (s : Stats) : Stats :=
  {| translations_total := translations_total s;
     cache_hits := cache_hits s; rate_limit_blocks := rate_limit_blocks s;
     errors := errors s + 1; api_calls := api_calls s |}.
Definition incr_api_calls (s : Stats) : Stats :=
  {| translations_total := translations_total s;
     cache_hits := cache_hits s; rate_limit_blocks := rate_limit_blocks s;
     errors := errors s; api_calls := api_calls s + 1 |}.

(** ** collections.defaultdict *)

(** [d[key]] on a defaultdict: a missing key is first stored with the
    default value. *)
Definition defaultdict_getitem `{Countable K} {V : Type} (dflt : V) (key : K)
    (d : gmap K V) : V * gmap K V :=
  match d !! key with
  | Some v => (v, d)
  | None => (dflt, <[key := dflt]> d)
  end.

(** ** The rate limiter (lines 122-140) *)
Section rate_limiter.
Context {cfg : Config}.

(** [check_rate_limit(author_id)] with [now] the reading of the clock in
    line 123. *)
Definition check_rate_limit (now : Z) (author_id : Z) (w : World)
    : (bool * string) * World :=
  let '(last, cooldowns) :=
    defaultdict_getitem 0 author_id (author_cooldowns w) in
  let w := with_cooldowns cooldowns w in
  if now - last <? COOLDOWN_SECONDS then
    ((false, "cooldown"%string),
     with_stats (incr_rate_limit_blocks (stats w)) w)
  else
    let hour_ago := now - 3600 in
    let '(recorded, counts) :=
      defaultdict_getitem [] author_id (author_translation_count w) in
    let pruned := List.filter (fun ts => ts >? hour_ago) recorded in
    let w := with_counts (<[author_id := pruned]> counts) w in
    if Z.of_nat (length pruned) >=? MAX_TRANSLATIONS_PER_HOUR then
      ((false, "hour limit"%string),
       with_stats (incr_rate_limit_blocks (stats w)) w)
    else ((true, EmptyString), w).

(** [update_rate_limit(author_id)] with [now] the reading of the clock in
    line 138. *)
Definition update_rate_limit (now : Z) (author_id : Z) (w : World) : World :=
  let w := with_cooldowns (<[author_id := now]> (author_cooldowns w)) w in
  let '(recorded, counts) :=
    defaultdict_getitem [] author_id (author_translation_count w) in
  with_counts (<[author_id := recorded ++ [now]]> counts) w.
End rate_limiter.

(** ** The outside world *)

(** The answers of the collaborators. The [n]-th answer the program asks
    for may depend on [n]: the clock and the network change between calls.
    [detect] is deterministic (the detector is seeded in line 15). *)
Record Env : Type := {
  (** [time.time()] *)
  clock : nat -> Z;
  (** [MyMemoryTranslator(source, target).translate(text)] *)
  MyMemoryTranslator : nat -> str -> str -> str -> result str;
  (** [GoogleTranslator(source, target).translate(text)] *)
  GoogleTranslator : nat -> str -> str -> str -> result str;
  (** [langdetect.detect(text)] *)
  detect : str -> result str;
  (** [message.reply(embed=embed, mention_author=False)] *)
  reply : nat -> discord.Embed -> result unit;
}.

(** ** Stateful computations that can raise *)

Definition M (A : Type) : Type := World -> result A * World.

Definition ret {A} (a : A) : M A := fun w => (Ok a, w).

Definition bind {A B} (m : M A) (k : A -> M B) : M B :=
  fun w =>
    match m w with
    | (Ok a, w') => k a w'
    | (Raise e, w') => (Raise e, w')
    end.

Definition raise {A} (e : exn) : M A := fun w => (Raise e, w).

(** [try: body  except ... as e: handler e] *)
Definition try_except {A} (body : M A) (handler : exn -> M A) : M A :=
  fun w =>
    match body w with
    | (Ok a, w') => (Ok a, w')
    | (Raise e, w') => handler e w'
    end.

Definition modify (f : World -> World) : M unit := fun w => (Ok tt, f w).

(** An expression that reads no state and can raise. *)
Definition eval {A} (r : result A) : M A := fun w => (r, w).

Declare Scope py_scope.
Delimit Scope py_scope with py.
Notation "x <- m ;; k" := (bind m (fun x => k))
  (at level 100, m at next level, right associativity) : py_scope.
Notation "m ;;; k" := (bind m (fun _ => k))
  (at level 100, right associativity) : py_scope.

Section program.
Context {U : Unicode} {cfg : Config} (E : Env).
Local Open Scope py_scope.

Definition logger (level : Level) : M unit := modify (emit (Log level)).

Definition time_time : M Z :=
  fun w => (Ok (clock E (ticks w)), tick w).

(** [translation_cache.get(key)]: the clock is read only for a resident
    key. *)
Definition cache_get (key : str * str * str) : M (option str) :=
  fun w =>
    let c := translation_cache w in
    let '(r, c') := TTLCache.get (clock E (ticks w)) key c in
    (r, with_cache c'
          (if OrderedDict.contains key (TTLCache._cache c)
           then tick w else w)).

(** [translation_cache.set(key, value)] *)
Definition cache_set (key : str * str * str) (value : str) : M unit :=
  fun w =>
    let '(r, c') :=
      TTLCache.set (clock E (ticks w)) key value (translation_cache w) in
    (r, with_cache c' (tick w)).

Definition translator (b : Backend) : nat -> str -> str -> str -> result str :=
  match b with
  | MyMemory => MyMemoryTranslator E
  | Google => GoogleTranslator E
  end.

(** [await asyncio.to_thread(Translator(source, target).translate, text)] *)
Definition call_backend (b : Backend) (source target text : str) : M str :=
  fun w =>
    (translator b (ticks w) source target text,
     tick (emit (Translate b source target text) w)).

(** The body of each of the two [try] blocks of translate_text. *)
Definition attempt (b : Backend) (cache_key : str * str * str)
    (text source_lang target_lang : str) : M str :=
  result <- call_backend b source_lang target_lang text ;;
  modify (fun w => with_stats (incr_api_calls (stats w)) w) ;;;
  cache_set cache_key result ;;;
  ret result.

(** The two [try] blocks of translate_text (lines 157-177). *)
Definition backend_chain (cache_key : str * str * str)
    (text source_lang target_lang : str) : M str :=
  try_except (attempt MyMemory cache_key text source_lang target_lang)
    (fun _ =>
       logger WARNING ;;;
       try_except (attempt Google cache_key text source_lang target_lang)
         (fun e =>
            logger ERROR ;;;
            modify (fun w => with_stats (incr_errors (stats w)) w) ;;;
            raise e)).

(** [translate_text(text, source_lang, target_lang)] (lines 148-177): a
    cached value that is None or the empty string is not a hit. *)
Definition translate_text (text source_lang target_lang : str) : M str :=
  let cache_key := (strip text, source_lang, target_lang) in
  cached <- cache_get cache_key ;;
  match cached with
  | Some (c :: s) =>
      modify (fun w => with_stats (incr_cache_hits (stats w)) w) ;;;
      ret (c :: s)
  | _ => backend_chain cache_key text source_lang target_lang
  end.

(** Lines 233-236. *)
Definition langs_to_translate (source_lang : str) : list str :=
  let langs :=
    List.filter (fun lang => negb (bool_decide (lang = source_lang)))
      (OrderedDict.keys TARGET_LANGUAGES) in
  if negb (OrderedDict.contains source_lang TARGET_LANGUAGES)
  then OrderedDict.keys TARGET_LANGUAGES
  else langs.

(** The loop of lines 241-246: a language whose translation raises is
    skipped. *)
Fixpoint translate_all (text source_lang : str) (langs : list str)
    (translations : list (str * str)) : M (list (str * str)) :=
  match langs with
  | [] => ret translations
  | lang :: langs' =>
      translations' <-
        try_except
          (translated <- translate_text text source_lang lang ;;
           ret (OrderedDict.setitem lang translated translations))
          (fun _ => ret translations) ;;
      translate_all text source_lang langs' translations'
  end.

(** The loop of lines 253-258. *)
Fixpoint add_fields (translations : list (str * str))
    (fields : list (str * str)) : result (list (str * str)) :=
  match translations with
  | [] => Ok fields
  | (lang, translated) :: translations' =>
      match OrderedDict.getitem lang LANG_FLAGS,
            OrderedDict.getitem lang TARGET_LANGUAGES with
      | Some flag, Some name =>
          let translated :=
            if len translated >? 1000
            then take 997 translated ++ py "..."
            else translated in
          add_fields translations'
            (fields ++ [(flag ++ py " " ++ name, translated)])
      | _, _ => Raise KeyError
      end
  end.

(** [await message.reply(embed=embed, mention_author=False)] *)
Definition message_reply (embed : discord.Embed) : M unit :=
  fun w => (reply E (ticks w) embed, tick (emit (Reply embed) w)).

(** Lines 260-271. The warning of line 268 formats the name of the channel
    of the message before it is logged: for a channel without a name the
    handler raises AttributeError and logs nothing. *)
Definition deliver (message : discord.Message) (embed : discord.Embed)
    (translations : list (str * str)) : M unit :=
  try_except
    (message_reply embed ;;;
     now <- time_time ;;
     modify (update_rate_limit now (discord.id (discord.author message))) ;;;
     modify (fun w =>
       with_stats (add_translations_total
                     (Z.of_nat (length translations)) (stats w)) w) ;;;
     logger INFO)
    (fun e =>
       match e with
       | Forbidden =>
           eval (discord.channel_name (discord.channel message)) ;;;
           logger WARNING
       | HTTPException =>
           logger ERROR ;;;
           modify (fun w => with_stats (incr_errors (stats w)) w)
       | _ => raise e
       end).

(** [on_message(message)] (lines 218-271), run from its first line to its
    end with no other handler run at its awaits. The handler with its
    awaits is [Coroutine.on_message] below. *)
Definition on_message (message : discord.Message) : M unit :=
  if negb (should_translate message) then ret tt
  else
    now <- time_time ;;
    can <- (fun w =>
              let '(r, w') :=
                check_rate_limit now (discord.id (discord.author message)) w
              in (Ok (fst r), w')) ;;
    if negb can then ret tt
    else
      let text := strip (discord.content message) in
      match detect E text with
      | Raise _ => ret tt
      | Ok detected =>
          let source_lang := normalize_lang detected in
          let langs := langs_to_translate source_lang in
          match langs with
          | [] => ret tt
          | _ :: _ =>
              translations <- translate_all text source_lang langs [] ;;
              match translations with
              | [] => ret tt
              | _ :: _ =>
                  match add_fields translations [] with
                  | Raise e => raise e
                  | Ok fields =>
                      deliver message {| discord.fields := fields |}
                        translations
                  end
              end
          end
      end.
End program.

(** ** Coroutines (asyncio)

    [translate_text] and [on_message] are coroutines. At the [await] of a
    call that leaves the program, the thread of a backend in lines 158 and
    168 and the reply in line 261, the handler is suspended and the event
    loop runs other handlers before it resumes this one with the answer.
    [await translate_text(...)] in line 244 suspends only where
    translate_text does. A [Step] is a handler at such a point, or at its
    end; the state it sees when it is resumed is the state the other
    handlers left. The functions of the section above are these coroutines
    run with no other handler in between ([alone]). *)
Module Coroutine.
Inductive Step (A : Type) : Type :=
  | Done (r : result A)
  (** resumed in the state [w] the handler is [rest w] and the state is
      [after w] *)
  | Suspended (rest : World -> Step A) (after : World -> World).
Arguments Done {A} r.
Arguments Suspended {A} rest after.

(** A coroutine from its first line: it runs to its first suspension or to
    its end. *)
Definition Coro (A : Type) : Type := World -> Step A * World.

Definition suspended {A} (k : World -> Step A * World) : Step A :=
  Suspended (fun w => (k w).1) (fun w => (k w).2).

(** The handler resumed in the state [w]: it runs to its next suspension or
    to its end. *)
Definition resume {A} (s : Step A) (w : World) : Step A * World :=
  match s with
  | Done r => (Done r, w)
  | Suspended rest after => (rest w, after w)
  end.

(** Code that does not await. *)
Definition lift {A} (m : M A) : Coro A :=
  fun w => let '(r, w') := m w in (Done r, w').

(** [await] of a call that leaves the program: the call is made, the
    handler is suspended, and it is resumed with the answer. *)
Definition await {A} (m : M A) : Coro A :=
  fun w => let '(r, w') := m w in (suspended (fun w1 => (Done r, w1)), w').

(** [s] followed by [k]. *)
Fixpoint then_ {A B} (s : Step A) (k : A -> Coro B) (w : World)
    : Step B * World :=
  match s with
  | Done (Ok a) => k a w
  | Done (Raise e) => (Done (Raise e), w)
  | Suspended rest after =>
      (suspended (fun w1 => then_ (rest w1) k (after w1)), w)
  end.

Definition bind {A B} (c : Coro A) (k : A -> Coro B) : Coro B :=
  fun w => let '(s, w') := c w in then_ s k w'.

(** [s] inside a [try] with the handler [h]. *)
Fixpoint catch {A} (s : Step A) (h : exn -> Coro A) (w : World)
    : Step A * World :=
  match s with
  | Done (Ok a) => (Done (Ok a), w)
  | Done (Raise e) => h e w
  | Suspended rest after =>
      (suspended (fun w1 => catch (rest w1) h (after w1)), w)
  end.

Definition try_except {A} (c : Coro A) (h : exn -> Coro A) : Coro A :=
  fun w => let '(s, w') := c w in catch s h w'.

(** The handler resumed at once at each of its suspensions. *)
Fixpoint finish {A} (s : Step A) (w : World) : result A * World :=
  match s with
  | Done r => (r, w)
  | Suspended rest after => finish (rest w) (after w)
  end.

(** The coroutine run to its end with no other handler in between. *)
Definition alone {A} (c : Coro A) : M A :=
  fun w => let '(s, w') := c w in finish s w'.

Declare Scope coro_scope.
Delimit Scope coro_scope with coro.
Notation "x <- c ;; k" := (bind c (fun x => k))
  (at level 100, c at next level, right associativity) : coro_scope.
Notation "c ;;; k" := (bind c (fun _ => k))
  (at level 100, right associativity) : coro_scope.

Section coroutines.
Context {U : Unicode} {cfg : Config} (E : Env).
Local Open Scope coro_scope.

(** The body of each of the two [try] blocks of translate_text: the call
    runs in a thread and the handler waits for it. *)
Definition attempt (b : Backend) (cache_key : str * str * str)
    (text source_lang target_lang : str) : Coro str :=
  result <- await (call_backend E b source_lang target_lang text) ;;
  lift (modify (fun w => with_stats (incr_api_calls (stats w)) w)) ;;;
  lift (cache_set E cache_key result) ;;;
  lift (ret result).

Definition backend_chain (cache_key : str * str * str)
    (text source_lang target_lang : str) : Coro str :=
  try_except (attempt MyMemory cache_key text source_lang target_lang)
    (fun _ =>
       lift (logger WARNING) ;;;
       try_except (attempt Google cache_key text source_lang target_lang)
         (fun e =>
            lift (logger ERROR) ;;;
            lift (modify (fun w => with_stats (incr_errors (stats w)) w)) ;;;
            lift (raise e))).

(** [translate_text(text, source_lang, target_lang)] (lines 148-177) *)
Definition translate_text (text source_lang target_lang : str) : Coro str :=
  let cache_key := (strip text, source_lang, target_lang) in
  cached <- lift (cache_get E cache_key) ;;
  match cached with
  | Some (c :: s) =>
      lift (modify (fun w => with_stats (incr_cache_hits (stats w)) w)) ;;;
      lift (ret (c :: s))
  | _ => backend_chain cache_key text source_lang target_lang
  end.

(** The loop of lines 241-246. *)
Fixpoint translate_all (text source_lang : str) (langs : list str)
    (translations : list (str * str)) : Coro (list (str * str)) :=
  match langs with
  | [] => lift (ret translations)
  | lang :: langs' =>
      translations' <-
        try_except
          (translated <- translate_text text source_lang lang ;;
           lift (ret (OrderedDict.setitem lang translated translations)))
          (fun _ => lift (ret translations)) ;;
      translate_all text source_lang langs' translations'
  end.

(** Lines 260-271: the handler waits for the reply. *)
Definition deliver (message : discord.Message) (embed : discord.Embed)
    (translations : list (str * str)) : Coro unit :=
  try_except
    (await (message_reply E embed) ;;;
     now <- lift (time_time E) ;;
     lift (modify
             (update_rate_limit now (discord.id (discord.author message)))) ;;;
     lift (modify (fun w =>
             with_stats (add_translations_total
                           (Z.of_nat (length translations)) (stats w)) w)) ;;;
     lift (logger INFO))
    (fun e =>
       match e with
       | Forbidden =>
           lift (eval (discord.channel_name (discord.channel message))) ;;;
           lift (logger WARNING)
       | HTTPException =>
           lift (logger ERROR) ;;;
           lift (modify (fun w => with_stats (incr_errors (stats w)) w))
       | _ => lift (raise e)
       end).

(** [on_message(message)] (lines 218-271): the check of the rate limiter
    in line 222 and its commit in line 262 are in different steps of the
    handler whenever a translation or the reply is awaited in between. *)
Definition on_message (message : discord.Message) : Coro unit :=
  if negb (should_translate message) then lift (ret tt)
  else
    now <- lift (time_time E) ;;
    can <- lift (fun w =>
                   let '(r, w') :=
                     check_rate_limit now
                       (discord.id (discord.author message)) w
                   in (Ok (fst r), w')) ;;
    if negb can then lift (ret tt)
    else
      let text := strip (discord.content message) in
      match detect E text with
      | Raise _ => lift (ret tt)
      | Ok detected =>
          let source_lang := normalize_lang detected in
          let langs := langs_to_translate source_lang in
          match langs with
          | [] => lift (ret tt)
          | _ :: _ =>
              translations <- translate_all text source_lang langs [] ;;
              match translations with
              | [] => lift (ret tt)
              | _ :: _ =>
                  match add_fields translations [] with
                  | Raise e => lift (raise e)
                  | Ok fields =>
                      deliver message {| discord.fields := fields |}
                        translations
                  end
              end
          end
      end.

(** *** The event loop

    The handlers that were started, each at a suspension or at its end, and
    the state they share. *)
Record Loop : Type := {
  world : World;
  tasks : list (Step unit);
}.

(** What the event loop does next: it starts the handler of a message that
    came in, or it resumes the handler it started as the [i]-th. *)
Inductive action : Type :=
  | Receive (message : discord.Message)
  | Resume (i : nat).

Definition act (a : action) (l : Loop) : Loop :=
  match a with
  | Receive message =>
      let '(s, w) := on_message message (world l) in
      {| world := w; tasks := tasks l ++ [s] |}
  | Resume i =>
      match tasks l !! i with
      | Some s =>
          let '(s', w) := resume s (world l) in
          {| world := w; tasks := <[i := s']> (tasks l) |}
      | None => l
      end
  end.

Definition run (actions : list action) (l : Loop) : Loop :=
  foldl (fun l a => act a l) l actions.
End coroutines.
End Coroutine.

(** ** Histories of cache operations

    The vocabulary of the cache properties: a sequence of [get] and [set]
    calls, each with the clock reading it sees, and the step at which each
    key was last read successfully or written. *)
Module History.
Section history.
Context {K : Type} `{Countable K} {V : Type}.

Inductive op : Type :=
  | OpGet (now : Z) (key : K)
  | OpSet (now : Z) (key : K) (value : V).

(** One call: what it returns ([set] returns None) and the cache after. *)
Definition apply (o : op) (c : TTLCache.t K V)
    : result (option V) * TTLCache.t K V :=
  match o with
  | OpGet now key => TTLCache.get now key c
  | OpSet now key value =>
      match TTLCache.set now key value c with
      | (Ok _, c') => (Ok None, c')
      | (Raise e, c') => (Raise e, c')
      end
  end.

(** The calls in order; an exception ends the sequence. *)
Fixpoint run (ops : list op) (c : TTLCache.t K V)
    : result unit * TTLCache.t K V :=
  match ops with
  | [] => (Ok tt, c)
  | o :: ops' =>
      match apply o c with
      | (Ok _, c') => run ops' c'
      | (Raise e, c') => (Raise e, c')
      end
  end.

(** The key a call uses: the key written, or the key read when the read
    returns a value. *)
Definition used (o : op) (c : TTLCache.t K V) : option K :=
  match o with
  | OpSet _ key _ => Some key
  | OpGet now key =>
      match TTLCache.get now key c with
      | (Ok (Some _), _) => Some key
      | _ => None
      end
  end.

(** [last_use n ops c uses]: the calls [ops] are steps [n], [n+1], ... from
    cache [c]; the map gives for each key the step of its last use. *)
Fixpoint last_use (n : nat) (ops : list op) (c : TTLCache.t K V)
    (uses : gmap K nat) : gmap K nat :=
  match ops with
  | [] => uses
  | o :: ops' =>
      last_use (S n) ops' (apply o c).2
        (match used o c with
         | Some key => <[key := n]> uses
         | None => uses
         end)
  end.

(** The keys resident in the cache, least recently used first as the
    dictionary orders them. *)
Definition resident (c : TTLCache.t K V) : list K :=
  OrderedDict.keys (TTLCache._cache c).

(** The two dictionaries of a cache agree: no key is stored twice and the
    keys with a value are the keys with a timestamp. Every cache built by
    [__init__], [get] and [set] is of this kind. *)
Definition consistent (c : TTLCache.t K V) : Prop :=
  NoDup (resident c)
  /\ forall k, k ∈ resident c <-> is_Some (TTLCache._timestamps c !! k).

(** [timestamps.pop(k, None)] for each of the keys [ks] *)
Definition pop_all (ks : list K) (timestamps : gmap K Z) : gmap K Z :=
  foldl (fun ts k => delete k ts) timestamps ks.

(** How many entries the loop of [set] pops from a dictionary [d]. *)
Definition overflow (max_size : Z) (d : list (K * V)) : nat :=
  (length d - Z.to_nat max_size)%nat.

(** Key [a] was last used before key [b] was. *)
Definition used_before (uses : gmap K nat) (a b : K) : Prop :=
  exists sa sb, uses !! a = Some sa /\ uses !! b = Some sb /\ (sa < sb)%nat.

(** The dictionary lists the resident keys by their last use, the least
    recently used first; [n] is the number of calls so far. *)
Definition by_last_use (uses : gmap K nat) (n : nat) (c : TTLCache.t K V)
    : Prop :=
  StronglySorted (used_before uses) (resident c)
  /\ Forall (fun k => exists s, uses !! k = Some s /\ (s < n)%nat)
       (resident c).

(** An operation that is not a [set] of [k]. *)
Definition not_set_of (k : K) (o : op) : Prop :=
  match o with
  | OpGet _ _ => True
  | OpSet _ key _ => key ≠ k
  end.
End history.
Arguments op : clear implicits.
End History.

(** ** The rate limiter as the specification words it *)
Section rate_limiter_spec.
Context {cfg : Config}.

(** The timestamp of the user's last accepted translation, as a read of
    the defaultdict gives it. *)
Definition last_accepted (author_id : Z) (w : World) : Z :=
  default 0 (author_cooldowns w !! author_id).

(** The user's recorded timestamps. *)
Definition recorded (author_id : Z) (w : World) : list Z :=
  default [] (author_translation_count w !! author_id).

(** The timestamps within the trailing 3600 seconds. *)
Definition within_hour (now : Z) (timestamps : list Z) : list Z :=
  List.filter (fun ts => ts >? now - 3600) timestamps.

(** The policy of the check, with [quota_reason] the reason given when the
    hourly quota denies. *)
Definition check_policy (quota_reason : string) (now author_id : Z)
    (w : World) : Prop :=
  let '(answer, w') := check_rate_limit now author_id w in
  let pruned := within_hour now (recorded author_id w) in
  (answer = (false, "cooldown"%string)
   <-> now - last_accepted author_id w < COOLDOWN_SECONDS)
  /\ (~ now - last_accepted author_id w < COOLDOWN_SECONDS ->
      recorded author_id w' = pruned
      /\ (answer = (false, quota_reason)
          <-> Z.of_nat (length pruned) >= MAX_TRANSLATIONS_PER_HOUR)
      /\ (~ Z.of_nat (length pruned) >= MAX_TRANSLATIONS_PER_HOUR ->
          fst answer = true)).

(** The check changes nothing: the two maps of the rate limiter and the
    counters are the same after the call. *)
Definition check_read_only (now author_id : Z) (w : World) : Prop :=
  let w' := (check_rate_limit now author_id w).2 in
  author_cooldowns w' = author_cooldowns w
  /\ author_translation_count w' = author_translation_count w
  /\ stats w' = stats w.

(** The commits of one user at the given times, in order. *)
Definition commits (author_id : Z) (times : list Z) (w : World) : World :=
  foldl (fun w now => update_rate_limit now author_id w) w times.
End rate_limiter_spec.

(** ** Two states of the rate limiter under the default configuration *)

(** User 7 has one accepted translation, at time 1000. *)
Definition world_after_one_commit : World := commits 7 [1000] initial_world.

(** User 7 has thirty accepted translations, one a minute from time 1000. *)
Definition world_at_quota : World :=
  commits 7 (map (fun i => 1000 + 60 * Z.of_nat i) (seq 0 30)) initial_world.

(** ** Vocabulary of the backend chain *)

(** The state after a call to a backend and, when it answers, after the
    counter is incremented. *)
Definition after_call (b : Backend) (source_lang target_lang text : str)
    (w : World) : World :=
  tick (emit (Translate b source_lang target_lang text) w).

Definition after_answer (b : Backend) (source_lang target_lang text : str)
    (w : World) : World :=
  let w1 := after_call b source_lang target_lang text w in
  with_stats (incr_api_calls (stats w1)) w1.

(** A lookup that translate_text does not take for a hit. *)
Definition is_miss (cached : option str) : Prop :=
  cached = None \/ cached = Some [].

(** ** Vocabulary of the normaliser and the filter *)

(** A canonical code: lower-cased and not one of the legacy codes. *)
Definition canonical `{Unicode} (code : str) : Prop :=
  lower code = code /\ mapping !! code = None.


(** The ASCII letters. *)
Definition ascii_isalpha (c : N) : bool :=
  ((65 <=? c) && (c <=? 90) || (97 <=? c) && (c <=? 122))%N.

(** ** The delivery of the reply as the specification words it *)

Definition is_reply (e : event) : bool :=
  match e with Reply _ => true | _ => false end.

(** The events a run adds to the trace of [w]. *)
Definition new_events (w w' : World) : list event :=
  drop (length (trace w)) (trace w').


(** A collaborator that rejects every reply for lack of permission and whose
    backends are down. *)
Definition env_without_permission : Env :=
  {| clock := fun n => 1000 + Z.of_nat n;
     MyMemoryTranslator := fun _ _ _ _ => Raise (Exception_ "unavailable");
     GoogleTranslator := fun _ _ _ _ => Raise (Exception_ "unavailable");
     detect := fun _ => Ok (py "fr");
     reply := fun _ _ => Raise Forbidden |}.

Definition some_message : discord.Message :=
  {| discord.author :=
       {| discord.id := 7; discord.name := py "ana"; discord.bot := false |};
     discord.content := py "Bonjour tout le monde";
     discord.channel := discord.TextChannel (py "general") |}.

(** The same message sent to the bot directly: its channel has no name. *)
Definition some_direct_message : discord.Message :=
  {| discord.author :=
       {| discord.id := 7; discord.name := py "ana"; discord.bot := false |};
     discord.content := py "Bonjour tout le monde";
     discord.channel := discord.DMChannel |}.

(** MyMemory is down, Google answers, and every reply gets the given
    answer. *)
Definition env_replying (answer : result unit) : Env :=
  {| clock := fun n => 1000 + Z.of_nat n;
     MyMemoryTranslator := fun _ _ _ _ => Raise (Exception_ "quota");
     GoogleTranslator := fun _ _ _ _ => Ok (py "Hello world");
     detect := fun _ => Ok (py "fr");
     reply := fun _ _ => answer |}.



(** ** Small caches for the examples: integer keys and values *)

(** A new cache of capacity 3 and TTL 60. *)
Definition small_cache : TTLCache.t Z Z := TTLCache.__init__ 3 60.

(** Keys 1, 2 and 3 written at times 10, 20 and 30: the cache is full. *)
Definition fill_small_cache : list (History.op Z Z) :=
  [History.OpSet 10 1 11; History.OpSet 20 2 22; History.OpSet 30 3 33].

Definition full_cache : TTLCache.t Z Z :=
  (History.run fill_small_cache small_cache).2.

(** ** Small configurations and collaborators for the examples *)

(** A quota of two translations an hour. *)
Definition small_config : Config :=
  {| COOLDOWN_SECONDS := 30; MAX_TRANSLATIONS_PER_HOUR := 2 |}.

(** MyMemory is down and Google answers. *)
Definition env_google_only : Env :=
  {| clock := fun n => 1000 + Z.of_nat n;
     MyMemoryTranslator := fun _ _ _ _ => Raise (Exception_ "quota");
     GoogleTranslator := fun _ _ _ _ => Ok (py "Hello world");
     detect := fun _ => Ok (py "fr");
     reply := fun _ _ => Ok tt |}.

(** MyMemory answers with the empty string. *)
Definition env_empty_answer : Env :=
  {| clock := fun n => 1000 + Z.of_nat n;
     MyMemoryTranslator := fun _ _ _ _ => Ok [];
     GoogleTranslator := fun _ _ _ _ => Ok (py "Hello world");
     detect := fun _ => Ok (py "fr");
     reply := fun _ _ => Ok tt |}.

(** The state after one translation that MyMemory answered with the empty
    string. *)
Definition world_with_empty_entry : World :=
  (translate_text env_empty_answer (py "Bonjour le monde") (py "fr") (py "en")
     initial_world).2.




(** ** The languages a run asks MyMemory for *)

(** The target languages of the calls to MyMemory among some events, in
    order. On a cache miss MyMemory is the first backend asked, so on a cold
    cache these are the languages a message is translated into. *)
Definition mymemory_targets (events : list event) : list str :=
  flat_map
    (fun e =>
       match e with
       | Translate MyMemory _ target _ => [target]
       | _ => []
       end) events.

(** The cache key of the translation of [text] from [source_lang] into
    [lang]. *)
Definition cache_key_of (text source_lang lang : str) : str * str * str :=
  (strip text, source_lang, lang).

(** ** What a run leaves uncommitted *)

(** From [w] to [w'] the maps of the rate limiter and translations_total
    are unchanged and no reply was sent. *)
Definition no_delivery (w w' : World) : Prop :=
  author_cooldowns w' = author_cooldowns w
  /\ author_translation_count w' = author_translation_count w
  /\ translations_total (stats w') = translations_total (stats w)
  /\ exists l, trace w' = trace w ++ l /\ List.filter is_reply l = [].

(** From [w] to [w'] nothing was committed to the rate limiter: for every
    user the timestamp of the last accepted translation is the same and no
    timestamp was recorded; translations_total is unchanged and no reply was
    sent. *)
Definition no_commit (w w' : World) : Prop :=
  (forall u, last_accepted u w' = last_accepted u w)
  /\ (forall u, recorded u w' `sublist_of` recorded u w)
  /\ translations_total (stats w') = translations_total (stats w)
  /\ exists l, trace w' = trace w ++ l /\ List.filter is_reply l = [].

(** ** Reads of the cache *)

(** An operation that is a [get]. *)
Definition is_get {K V : Type} (o : History.op K V) : Prop :=
  match o with
  | History.OpGet _ _ => True
  | History.OpSet _ _ _ => False
  end.

(** ** Runs of the message handler *)

(** No counter of [s'] is below the one of [s]. *)
Definition stats_le (s s' : Stats) : Prop :=
  translations_total s <= translations_total s'
  /\ cache_hits s <= cache_hits s'
  /\ rate_limit_blocks s <= rate_limit_blocks s'
  /\ errors s <= errors s'
  /\ api_calls s <= api_calls s'.

(** The translation cache is consistent and within its capacity. *)
Definition cache_ok (w : World) : Prop :=
  History.consistent (translation_cache w)
  /\ 0 <= TTLCache.max_size (translation_cache w)
  /\ TTLCache.__len__ (translation_cache w)
     <= TTLCache.max_size (translation_cache w).

(** From [w] to [w']: no counter went down, the outside was asked no fewer
    times, and a cache that was consistent and within its capacity still is,
    with the same capacity. *)
Definition progress (w w' : World) : Prop :=
  stats_le (stats w) (stats w')
  /\ (ticks w <= ticks w')%nat
  /\ (cache_ok w ->
      cache_ok w'
      /\ TTLCache.max_size (translation_cache w')
         = TTLCache.max_size (translation_cache w)).

(** ** The value of a field of the embed (lines 256-257) *)

(** [value] is [translated] cut to 1000 characters: a translation of at most
    1000 characters is kept, a longer one is cut after 997 characters and
    ends with three dots. *)
Definition clipped (translated value : str) : Prop :=
  (len translated <= 1000 -> value = translated)
  /\ (len translated > 1000 ->
      len value = 1000
      /\ take 997 value = take 997 translated
      /\ drop 997 value = py "...").

(** ** The figures of the status page and of the stats command *)

(** [divmod(a, b)] on integers, for a divisor that is not zero. *)
Definition divmod (a b : Z) : Z * Z := (a / b, a mod b).

(** Lines 59-60 and 275-276: the hours and minutes shown for
    [elapsed = int(time.time() - bot_start_time)]. *)
Definition uptime (elapsed : Z) : Z * Z :=
  let '(h, rem) := divmod elapsed 3600 in
  let '(m, _) := divmod rem 60 in
  (h, m).

(** Line 278: [stats['cache_hits'] + stats['api_calls'] or 1]. *)
Definition api_total (s : Stats) : Z :=
  let n := cache_hits s + api_calls s in
  if n =? 0 then 1 else n.

(** ** The counters of the statistics *)

(** From [w] to [w'] the lookups that were answered, by the cache or by a
    backend, are [returned] more and the errors are [raised] more; the two
    other counters are the same. *)
Definition counted (returned raised : Z) (w w' : World) : Prop :=
  cache_hits (stats w') + api_calls (stats w')
  = cache_hits (stats w) + api_calls (stats w) + returned
  /\ errors (stats w') = errors (stats w) + raised
  /\ translations_total (stats w') = translations_total (stats w)
  /\ rate_limit_blocks (stats w') = rate_limit_blocks (stats w).

(** No counter is negative, and no more translations were delivered than
    lookups were answered. *)
Definition stats_ok (s : Stats) : Prop :=
  0 <= translations_total s /\ 0 <= cache_hits s /\ 0 <= rate_limit_blocks s
  /\ 0 <= errors s /\ 0 <= api_calls s
  /\ translations_total s <= cache_hits s + api_calls s.

(** ** What a message asks of the outside *)

(** An event that is a log record, or a call to a backend for the
    translation of [text] from [source_lang] into one of [langs]. *)
Definition asks_for (text source_lang : str) (langs : list str) (e : event)
    : Prop :=
  match e with
  | Log _ => True
  | Translate _ source target x =>
      x = text /\ source = source_lang /\ target ∈ langs
  | Reply _ => False
  end.

(** From [w] to [w'] the events added are log records and calls to the
    backends for [text], from [source_lang] into languages of [langs]. *)
Definition asks (text source_lang : str) (langs : list str) (w w' : World)
    : Prop :=
  exists l,
    trace w' = trace w ++ l /\ Forall (asks_for text source_lang langs) l.

(** An event that is a log record, or a call to a backend that the message
    needs: for its stripped text, from the normalised language the detector
    finds for it, into a language of TARGET_LANGUAGES other than that
    language. *)
Definition needed_by `{Unicode} (E : Env) (message : discord.Message)
    (e : event) : Prop :=
  let text := strip (discord.content message) in
  match e with
  | Log _ => True
  | Translate _ source target x =>
      x = text
      /\ (exists detected,
            detect E text = Ok detected /\ source = normalize_lang detected)
      /\ target ∈ OrderedDict.keys TARGET_LANGUAGES
      /\ target ≠ source
  | Reply _ => False
  end.

(** The end of the events of a message: nothing, or one reply followed by
    at most one log record. *)
Definition one_reply (d : list event) : Prop :=
  d = []
  \/ exists embed,
       d = [Reply embed] \/ exists level, d = [Reply embed; Log level].

(** ** More collaborators and values for the examples *)

(** The backends answer as in [env_google_only] and the reply fails with an
    exception that is not one of discord's. *)
Definition env_reply_fails : Env :=
  {| clock := fun n => 1000 + Z.of_nat n;
     MyMemoryTranslator := fun _ _ _ _ => Raise (Exception_ "quota");
     GoogleTranslator := fun _ _ _ _ => Ok (py "Hello world");
     detect := fun _ => Ok (py "fr");
     reply := fun _ _ => Raise (Exception_ "connection") |}.

(** The embed for the two translations of [some_message]. *)
Definition reply_to_some_message : discord.Embed :=
  {| discord.fields :=
       [(flag_gb ++ py " " ++ flag_gb ++ py " English", py "Hello world");
        (flag_es ++ py " " ++ flag_es ++ py " Espa" ++ [241%N] ++ py "ol",
         py "Hello world")] |}.

(** A translation of 1200 characters. *)
Definition long_translation : str := replicate 1200 97%N.

(** ** Schedules of the event loop for the examples *)

(** No handler was started. *)
Definition idle (w : World) : Coroutine.Loop :=
  {| Coroutine.world := w; Coroutine.tasks := [] |}.

(** The handlers of two copies of a message are started before either is
    resumed; then the first is resumed to its end, then the second. Five
    resumptions end a handler that translates into two languages: it waits
    for a backend at most four times and for the reply once. *)
Definition two_at_once (message : discord.Message) : list Coroutine.action :=
  [Coroutine.Receive message; Coroutine.Receive message]
  ++ replicate 5 (Coroutine.Resume 0) ++ replicate 5 (Coroutine.Resume 1).

(** The handler of the second copy is started when the first has ended. *)
Definition one_after_the_other (message : discord.Message)
    : list Coroutine.action :=
  [Coroutine.Receive message] ++ replicate 5 (Coroutine.Resume 0)
  ++ [Coroutine.Receive message] ++ replicate 5 (Coroutine.Resume 1).

(** User 7 has twenty-nine accepted translations, one every thirty seconds
    from time 100 to time 940. *)
Definition world_below_quota : World :=
  commits 7 (map (fun i => 100 + 30 * Z.of_nat i) (seq 0 29)) initial_world.

(** * Properties *)

(** ** OrderedDict *)
Section ordered_dict_facts.
Context {K : Type} `{EqDecision K} {V : Type}.
Implicit Types (d : list (K * V)) (key k : K) (v : V).

Lemma getitem_None key d :
  OrderedDict.getitem key d = None <-> key ∉ OrderedDict.keys d.
Proof.
  unfold OrderedDict.keys.
  induction d as [|[k v] d IH]; csimpl.
  - split; [intros _; apply not_elem_of_nil | done].
  - rewrite not_elem_of_cons. destruct (decide (k = key)) as [->|Hne].
    + split; [done | intros [? _]; done].
    + rewrite IH.
      split; [intros ?; split; [intros ->|]; done | intros [_ ?]; done].
Qed.

Lemma getitem_is_Some key d :
  is_Some (OrderedDict.getitem key d) <-> key ∈ OrderedDict.keys d.
Proof.
  rewrite <- not_eq_None_Some, getitem_None.
  split; [apply dec_stable | auto].
Qed.

Lemma contains_true key d :
  OrderedDict.contains key d = true <-> key ∈ OrderedDict.keys d.
Proof.
  rewrite <- getitem_is_Some. unfold OrderedDict.contains.
  destruct (OrderedDict.getitem key d); split; eauto; done.
Qed.

Lemma contains_false key d :
  OrderedDict.contains key d = false <-> key ∉ OrderedDict.keys d.
Proof.
  rewrite <- contains_true.
  destruct (OrderedDict.contains key d); split; auto; done.
Qed.

Lemma keys_app d1 d2 :
  OrderedDict.keys (d1 ++ d2) = OrderedDict.keys d1 ++ OrderedDict.keys d2.
Proof. unfold OrderedDict.keys. apply fmap_app. Qed.

Lemma keys_delitem key d :
  OrderedDict.keys (OrderedDict.delitem key d)
  = filter (fun k => k ≠ key) (OrderedDict.keys d).
Proof.
  unfold OrderedDict.keys.
  induction d as [|[k v] d IH]; csimpl; [done|].
  destruct (decide (k = key)) as [->|Hne].
  - rewrite filter_cons_False by (simpl; auto). done.
  - rewrite filter_cons_True by done. csimpl. by rewrite IH.
Qed.

Lemma delitem_absent key d :
  key ∉ OrderedDict.keys d -> OrderedDict.delitem key d = d.
Proof.
  unfold OrderedDict.keys.
  induction d as [|[k v] d IH]; csimpl; [done|].
  rewrite not_elem_of_cons. intros [Hne Hd].
  destruct (decide (k = key)); [congruence|]. by rewrite IH.
Qed.

Lemma keys_replace key v d :
  OrderedDict.keys (OrderedDict.replace key v d) = OrderedDict.keys d.
Proof.
  unfold OrderedDict.keys.
  induction d as [|[k v0] d IH]; csimpl; [done|].
  destruct (decide (k = key)); csimpl; [done | by rewrite IH].
Qed.

Lemma getitem_replace key v d :
  key ∈ OrderedDict.keys d ->
  OrderedDict.getitem key (OrderedDict.replace key v d) = Some v.
Proof.
  unfold OrderedDict.keys.
  induction d as [|[k v0] d IH]; csimpl.
  - intros Hin. by apply elem_of_nil in Hin.
  - rewrite elem_of_cons. intros Hin.
    destruct (decide (k = key)) as [->|Hne]; csimpl.
    + by rewrite decide_True.
    + rewrite decide_False by done. apply IH. destruct Hin; congruence.
Qed.

Lemma getitem_snoc_absent key v d :
  key ∉ OrderedDict.keys d ->
  OrderedDict.getitem key (d ++ [(key, v)]) = Some v.
Proof.
  unfold OrderedDict.keys.
  induction d as [|[k v0] d IH]; csimpl.
  - intros _. by rewrite decide_True.
  - rewrite not_elem_of_cons. intros [Hne Hd].
    rewrite decide_False by congruence. by apply IH.
Qed.

Lemma not_in_keys_delitem key d :
  key ∉ OrderedDict.keys (OrderedDict.delitem key d).
Proof. rewrite keys_delitem, list_elem_of_filter. tauto. Qed.

Lemma move_to_end_present key d :
  key ∈ OrderedDict.keys d ->
  exists v, OrderedDict.getitem key d = Some v
    /\ OrderedDict.move_to_end key d
       = Some (OrderedDict.delitem key d ++ [(key, v)]).
Proof.
  intros [v Hv]%getitem_is_Some. exists v. split; [done|].
  unfold OrderedDict.move_to_end. by rewrite Hv.
Qed.
End ordered_dict_facts.

(** ** TTLCache *)
Section ttl_cache_facts.
Context {K : Type} `{Countable K} {V : Type}.
Implicit Types (c : TTLCache.t K V) (d : list (K * V)) (ts : gmap K Z).
Implicit Types (key k : K) (v value : V) (now : Z).

Lemma lookup_pop_all ks ts k :
  History.pop_all ks ts !! k = if decide (k ∈ ks) then None else ts !! k.
Proof.
  unfold History.pop_all. revert ts.
  induction ks as [|a ks IH]; intros ts; cbn [foldl].
  - rewrite decide_False; [done | apply not_elem_of_nil].
  - rewrite IH. destruct (decide (k ∈ ks)) as [Hin|Hin].
    + rewrite decide_True; [done | by apply elem_of_cons; right].
    + destruct (decide (a = k)) as [->|Hne].
      * rewrite decide_True by apply list_elem_of_here.
        apply lookup_delete_eq.
      * rewrite decide_False.
        -- by apply lookup_delete_ne.
        -- rewrite elem_of_cons. intros [?|?]; congruence.
Qed.

(** With a capacity that is not negative the loop of [set] never pops from
    an empty dictionary: it drops the oldest entries beyond the capacity. *)
Lemma evict_drop m d ts :
  0 <= m ->
  TTLCache.evict m d ts
  = (Ok tt, (drop (History.overflow m d) d,
             History.pop_all
               (OrderedDict.keys (take (History.overflow m d) d)) ts)).
Proof.
  intros Hm. unfold History.overflow. revert ts.
  induction d as [|[k v] d IH]; intros ts.
  - simpl. unfold OrderedDict.len. simpl.
    destruct (Z.gtb_spec (Z.of_nat 0) m); [lia | done].
  - cbn [TTLCache.evict]. unfold OrderedDict.len.
    destruct (Z.gtb_spec (Z.of_nat (length ((k, v) :: d))) m).
    + rewrite IH. simpl length in *.
      replace (S (length d) - Z.to_nat m)%nat
        with (S (length d - Z.to_nat m)) by lia.
      done.
    + simpl length in *.
      replace (S (length d) - Z.to_nat m)%nat with 0%nat by lia.
      done.
Qed.

Lemma replace_snoc key v0 v d :
  key ∉ OrderedDict.keys d ->
  OrderedDict.replace key v (d ++ [(key, v0)]) = d ++ [(key, v)].
Proof.
  unfold OrderedDict.keys.
  induction d as [|[k w] d IH]; csimpl.
  - intros _. by rewrite decide_True.
  - rewrite not_elem_of_cons. intros [Hne Hd].
    rewrite decide_False by congruence. by rewrite IH.
Qed.

(** What [set] leaves behind: the entry goes to the end of the dictionary
    with the new value and timestamp, then the overflow is dropped from the
    front. *)
Lemma set_unfold now key value c :
  0 <= TTLCache.max_size c ->
  let d := OrderedDict.delitem key (TTLCache._cache c) ++ [(key, value)] in
  let n := History.overflow (TTLCache.max_size c) d in
  TTLCache.set now key value c
  = (Ok tt,
     TTLCache.with_store c (drop n d)
       (History.pop_all (OrderedDict.keys (take n d))
          (<[key := now]> (TTLCache._timestamps c)))).
Proof.
  intros Hm d n. unfold TTLCache.set.
  assert (Hd : (if OrderedDict.contains key (TTLCache._cache c)
                then OrderedDict.move_to_end key (TTLCache._cache c)
                else Some (TTLCache._cache c))
               = Some (OrderedDict.delitem key (TTLCache._cache c) ++
                       match OrderedDict.getitem key (TTLCache._cache c) with
                       | Some v0 => [(key, v0)] | None => [] end)).
  { destruct (OrderedDict.contains key (TTLCache._cache c)) eqn:Hc.
    - apply contains_true in Hc.
      destruct (move_to_end_present _ _ Hc) as (v0 & -> & ->). done.
    - apply contains_false in Hc.
      rewrite delitem_absent by done.
      apply getitem_None in Hc. rewrite Hc. by rewrite app_nil_r. }
  rewrite Hd.
  assert (Hs : OrderedDict.setitem key value
                 (OrderedDict.delitem key (TTLCache._cache c) ++
                  match OrderedDict.getitem key (TTLCache._cache c) with
                  | Some v0 => [(key, v0)] | None => [] end) = d).
  { unfold OrderedDict.setitem, d.
    destruct (OrderedDict.getitem key (TTLCache._cache c)) as [v0|] eqn:Hg.
    - assert (OrderedDict.contains key
                (OrderedDict.delitem key (TTLCache._cache c) ++ [(key, v0)])
              = true) as ->.
      { apply contains_true. rewrite keys_app. apply elem_of_app. right.
        apply list_elem_of_here. }
      apply replace_snoc, not_in_keys_delitem.
    - rewrite app_nil_r.
      assert (OrderedDict.contains key
                (OrderedDict.delitem key (TTLCache._cache c)) = false) as ->.
      { apply contains_false, not_in_keys_delitem. }
      done. }
  rewrite Hs. rewrite evict_drop by done. done.
Qed.

Lemma get_absent now key c :
  key ∉ History.resident c -> TTLCache.get now key c = (Ok None, c).
Proof.
  intros Hk%contains_false. unfold TTLCache.get. by rewrite Hk.
Qed.

Lemma get_expired now key c t :
  key ∈ History.resident c ->
  TTLCache._timestamps c !! key = Some t ->
  now - t > TTLCache.ttl c ->
  TTLCache.get now key c
  = (Ok None,
     TTLCache.with_store c (OrderedDict.delitem key (TTLCache._cache c))
       (delete key (TTLCache._timestamps c))).
Proof.
  intros Hk%contains_true Ht Hage. unfold TTLCache.get. rewrite Hk, Ht.
  destruct (Z.gtb_spec (now - t) (TTLCache.ttl c)); [done | lia].
Qed.

Lemma get_hit now key c t v :
  OrderedDict.getitem key (TTLCache._cache c) = Some v ->
  TTLCache._timestamps c !! key = Some t ->
  now - t <= TTLCache.ttl c ->
  TTLCache.get now key c
  = (Ok (Some v),
     TTLCache.with_store c
       (OrderedDict.delitem key (TTLCache._cache c) ++ [(key, v)])
       (TTLCache._timestamps c)).
Proof.
  intros Hv Ht Hage. unfold TTLCache.get, OrderedDict.contains.
  rewrite Hv, Ht.
  destruct (Z.gtb_spec (now - t) (TTLCache.ttl c)); [lia|].
  unfold OrderedDict.move_to_end. rewrite Hv.
  rewrite getitem_snoc_absent by apply not_in_keys_delitem. done.
Qed.

(** The entry just written is the last of the dictionary and carries the
    timestamp of the write, whatever was evicted. *)
Lemma set_then_resident now key value c :
  1 <= TTLCache.max_size c ->
  exists c1,
    TTLCache.set now key value c = (Ok tt, c1)
    /\ OrderedDict.getitem key (TTLCache._cache c1) = Some value
    /\ TTLCache._timestamps c1 !! key = Some now
    /\ TTLCache.ttl c1 = TTLCache.ttl c
    /\ TTLCache.max_size c1 = TTLCache.max_size c.
Proof.
  intros Hm. eexists. split; [apply set_unfold; lia|]. cbn.
  set (d0 := OrderedDict.delitem key (TTLCache._cache c)).
  set (n := History.overflow _ _).
  assert (Hn : (n <= length d0)%nat).
  { unfold n, History.overflow. rewrite length_app. simpl. lia. }
  assert (Hk : key ∉ OrderedDict.keys d0) by apply not_in_keys_delitem.
  rewrite drop_app_le, take_app_le by done.
  split; [|split; [|done]].
  - apply getitem_snoc_absent. intros Hin. apply Hk.
    unfold OrderedDict.keys in *. rewrite fmap_drop in Hin.
    by eapply subseteq_drop.
  - rewrite lookup_pop_all, decide_False; [apply lookup_insert_eq|].
    intros Hin. apply Hk. unfold OrderedDict.keys in *.
    rewrite fmap_take in Hin. by eapply subseteq_take.
Qed.

Lemma filter_ne_absent (l : list K) key :
  key ∉ l -> filter (fun k => k ≠ key) l = l.
Proof.
  induction l as [|a l IH]; [done|].
  rewrite not_elem_of_cons. intros [Hne Hl].
  rewrite filter_cons_True by congruence. by rewrite IH.
Qed.

Lemma NoDup_to_end (l : list K) key :
  NoDup l -> NoDup (filter (fun k => k ≠ key) l ++ [key]).
Proof.
  intros Hl. apply NoDup_app. split; [by apply NoDup_filter|]. split.
  - intros x [Hx _]%list_elem_of_filter ->%list_elem_of_singleton. done.
  - apply NoDup_singleton.
Qed.

Lemma elem_of_to_end (l : list K) key k :
  k ∈ filter (fun k => k ≠ key) l ++ [key] <-> k = key \/ k ∈ l.
Proof.
  rewrite elem_of_app, list_elem_of_filter, list_elem_of_singleton.
  destruct (decide (k = key)); intuition congruence.
Qed.

Lemma resident_with_store c d ts :
  History.resident (TTLCache.with_store c d ts) = OrderedDict.keys d.
Proof. done. Qed.

(** [get] on a consistent cache never raises; it returns a value exactly
    when it moves the key to the end. *)
Lemma get_resident now key c :
  History.consistent c ->
  exists r c',
    TTLCache.get now key c = (Ok r, c')
    /\ History.consistent c'
    /\ TTLCache.max_size c' = TTLCache.max_size c
    /\ TTLCache.ttl c' = TTLCache.ttl c
    /\ match r with
       | Some _ =>
           key ∈ History.resident c
           /\ History.resident c'
              = filter (fun k => k ≠ key) (History.resident c) ++ [key]
       | None =>
           History.resident c'
           = filter (fun k => k ≠ key) (History.resident c)
       end.
Proof.
  intros [Hnd Hts].
  destruct (decide (key ∈ History.resident c)) as [Hin|Hout].
  - destruct (proj1 (Hts key) Hin) as [t Ht].
    destruct (proj2 (getitem_is_Some key (TTLCache._cache c)) Hin) as [v Hv].
    destruct (Z_le_gt_dec (now - t) (TTLCache.ttl c)) as [Hage|Hage].
    + exists (Some v). eexists. split; [by eapply get_hit|].
      split; [|split; [done|split; [done|split; [done|]]]].
      * split.
        -- rewrite resident_with_store, keys_app, keys_delitem.
           by apply NoDup_to_end.
        -- intros k. rewrite resident_with_store, keys_app, keys_delitem.
           cbn. rewrite <- Hts.
           change (OrderedDict.keys [(key, v)]) with [key].
           rewrite elem_of_to_end. unfold History.resident in Hin.
           unfold History.resident.
           split; [intros [->|?]; done | by right].
      * by rewrite resident_with_store, keys_app, keys_delitem.
    + exists None. eexists. split; [by eapply get_expired|].
      split; [|split; [done|split; [done|]]].
      * split.
        -- rewrite resident_with_store, keys_delitem. by apply NoDup_filter.
        -- intros k. rewrite resident_with_store, keys_delitem. cbn.
           rewrite list_elem_of_filter, lookup_delete.
           case_decide as Hk.
           ++ subst k. split; [intros [? _]; done | intros [? ?]; done].
           ++ rewrite <- Hts. unfold History.resident.
              split; [tauto | intros ?; split; [congruence | done]].
      * by rewrite resident_with_store, keys_delitem.
  - exists None, c. split; [by apply get_absent|].
    split; [done|]. split; [done|]. split; [done|].
    by rewrite filter_ne_absent.
Qed.

(** [set] on a consistent cache of capacity at least 0 never raises. *)
Lemma set_resident now key value c :
  0 <= TTLCache.max_size c ->
  History.consistent c ->
  exists c',
    TTLCache.set now key value c = (Ok tt, c')
    /\ History.consistent c'
    /\ TTLCache.max_size c' = TTLCache.max_size c
    /\ TTLCache.ttl c' = TTLCache.ttl c
    /\ let base := filter (fun k => k ≠ key) (History.resident c) ++ [key] in
       History.resident c'
       = drop (length base - Z.to_nat (TTLCache.max_size c)) base.
Proof.
  intros Hm [Hnd Hts]. eexists. split; [by apply set_unfold|].
  set (d := OrderedDict.delitem key (TTLCache._cache c) ++ [(key, value)]).
  set (n := History.overflow (TTLCache.max_size c) d).
  assert (Hkeys : OrderedDict.keys d
                  = filter (fun k => k ≠ key) (History.resident c) ++ [key]).
  { unfold d. by rewrite keys_app, keys_delitem. }
  assert (Hbase : NoDup (OrderedDict.keys d)).
  { rewrite Hkeys. by apply NoDup_to_end. }
  assert (Hn : n = (length (OrderedDict.keys d)
                    - Z.to_nat (TTLCache.max_size c))%nat).
  { unfold n, History.overflow, OrderedDict.keys. by rewrite length_fmap. }
  assert (Hsplit : OrderedDict.keys d
                   = OrderedDict.keys (take n d)
                     ++ OrderedDict.keys (drop n d)).
  { unfold OrderedDict.keys. by rewrite <- fmap_app, take_drop. }
  split; [|split; [done|split; [done|]]].
  - split.
    + rewrite resident_with_store. rewrite Hsplit in Hbase.
      by apply NoDup_app in Hbase as (_ & _ & ?).
    + intros k. rewrite resident_with_store. cbn.
      rewrite lookup_pop_all. rewrite Hsplit in Hbase.
      apply NoDup_app in Hbase as (_ & Hdisj & _).
      assert (Hk : k ∈ OrderedDict.keys d
                   <-> is_Some (<[key:=now]> (TTLCache._timestamps c) !! k)).
      { rewrite Hkeys, elem_of_to_end, lookup_insert.
        case_decide as Hkk.
        - subst. split; [eauto | by left].
        - rewrite <- Hts.
          split; [intros [?|?]; [congruence | done] | by right]. }
      rewrite Hsplit, elem_of_app in Hk.
      case_decide as Hin.
      * split; [intros Hd; by apply Hdisj in Hin | intros [? ?]; done].
      * rewrite <- Hk. tauto.
  - cbn zeta. rewrite resident_with_store, <- Hkeys, <- Hn.
    unfold OrderedDict.keys. by rewrite fmap_drop.
Qed.

Lemma length_to_end (l : list K) key :
  key ∈ l ->
  (length (filter (fun k => k ≠ key) l ++ [key]) <= length l)%nat.
Proof.
  intros Hin. rewrite length_app. simpl.
  assert (Hlt : (length (filter (fun k => k ≠ key) l) < length l)%nat).
  { apply (length_filter_lt _ l key Hin). intros Hne. by apply Hne. }
  lia.
Qed.

Lemma len_resident c :
  TTLCache.__len__ c = Z.of_nat (length (History.resident c)).
Proof.
  unfold TTLCache.__len__, OrderedDict.len, History.resident,
    OrderedDict.keys.
  by rewrite length_fmap.
Qed.

(** One call on a consistent cache within its capacity: it returns, and
    the cache stays consistent and within its capacity; only a [set] of a
    key makes that key resident. *)
Lemma apply_ok o c :
  History.consistent c ->
  0 <= TTLCache.max_size c ->
  TTLCache.__len__ c <= TTLCache.max_size c ->
  exists r c',
    History.apply o c = (Ok r, c')
    /\ History.consistent c'
    /\ TTLCache.max_size c' = TTLCache.max_size c
    /\ TTLCache.ttl c' = TTLCache.ttl c
    /\ TTLCache.__len__ c' <= TTLCache.max_size c'
    /\ forall k, History.not_set_of k o ->
         k ∈ History.resident c' -> k ∈ History.resident c.
Proof.
  intros Hc Hm Hlen. destruct o as [now key|now key value]; cbn.
  - destruct (get_resident now key c Hc)
      as (r & c' & -> & Hc' & Hm' & Ht' & Hr).
    exists r, c'. split; [done|]. split; [done|]. split; [done|].
    split; [done|]. rewrite Hm'. rewrite !len_resident in *.
    destruct r as [v|].
    + destruct Hr as [Hin ->]. split.
      * pose proof (length_to_end _ _ Hin). lia.
      * intros k _. rewrite elem_of_to_end. intros [->|?]; done.
    + rewrite Hr. split.
      * pose proof (length_filter (fun k => k ≠ key) (History.resident c)).
        lia.
      * intros k _ [_ ?]%list_elem_of_filter. done.
  - destruct (set_resident now key value c Hm Hc)
      as (c' & -> & Hc' & Hm' & Ht' & Hr).
    exists None, c'. split; [done|]. split; [done|]. split; [done|].
    split; [done|]. cbn zeta in Hr. rewrite Hm', len_resident, Hr. split.
    + rewrite length_drop. lia.
    + intros k Hne Hin. apply subseteq_drop in Hin.
      apply elem_of_to_end in Hin as [->|?]; done.
Qed.

(** A sequence of calls from a consistent cache within its capacity runs
    to the end without raising. *)
Lemma run_ok ops c :
  History.consistent c ->
  0 <= TTLCache.max_size c ->
  TTLCache.__len__ c <= TTLCache.max_size c ->
  exists c',
    History.run ops c = (Ok tt, c')
    /\ History.consistent c'
    /\ TTLCache.max_size c' = TTLCache.max_size c
    /\ TTLCache.ttl c' = TTLCache.ttl c
    /\ TTLCache.__len__ c' <= TTLCache.max_size c'
    /\ forall k, Forall (History.not_set_of k) ops ->
         k ∈ History.resident c' -> k ∈ History.resident c.
Proof.
  revert c. induction ops as [|o ops IH]; intros c Hc Hm Hlen.
  - exists c. cbn. done.
  - destruct (apply_ok o c Hc Hm Hlen)
      as (r & c1 & Ho & Hc1 & Hm1 & Ht1 & Hl1 & Hk1).
    destruct (IH c1 Hc1) as (c' & Hrun & Hc' & Hm' & Ht' & Hl' & Hk');
      [lia | done |].
    exists c'. cbn. rewrite Ho. split; [done|]. split; [done|].
    split; [congruence|]. split; [congruence|]. split; [done|].
    intros k [Hko Hkops]%Forall_cons Hin. auto.
Qed.

Lemma init_consistent (m t : Z) :
  History.consistent (TTLCache.__init__ (K:=K) (V:=V) m t).
Proof.
  split; [apply NoDup_nil_2|]. intros k. cbn. rewrite lookup_empty.
  split; [by intros ?%elem_of_nil | by intros [? ?]].
Qed.
End ttl_cache_facts.

Section ttl_cache_claims.
Context {K : Type} `{Countable K} {V : Type}.
Implicit Types (c : TTLCache.t K V) (key : K) (value : V).

(** C1. In a cache of capacity at least 1, a [get] of a key that directly
    follows a [set] of that key returns the value set when no more than
    the TTL has passed between the two, and returns None and drops the
    entry when more than the TTL has passed. For any resident entry older
    than the TTL, [get] returns None and removes the entry from both
    dictionaries; after that, whatever calls follow, a [get] of the key
    returns None as long as none of the calls is a [set] of that key. *)
Theorem get_after_set_and_lazy_expiry :
  (forall c key value t0 t1,
     1 <= TTLCache.max_size c ->
     exists c1,
       TTLCache.set t0 key value c = (Ok tt, c1)
       /\ TTLCache._timestamps c1 !! key = Some t0
       /\ (t1 - t0 <= TTLCache.ttl c ->
           exists c2, TTLCache.get t1 key c1 = (Ok (Some value), c2))
       /\ (t1 - t0 > TTLCache.ttl c ->
           exists c2, TTLCache.get t1 key c1 = (Ok None, c2)
                      /\ key ∉ History.resident c2))
  /\ (forall c key t now,
        History.consistent c ->
        0 <= TTLCache.max_size c ->
        TTLCache.__len__ c <= TTLCache.max_size c ->
        key ∈ History.resident c ->
        TTLCache._timestamps c !! key = Some t ->
        now - t > TTLCache.ttl c ->
        exists c1,
          TTLCache.get now key c = (Ok None, c1)
          /\ (key ∉ History.resident c1)
          /\ TTLCache._timestamps c1 !! key = None
          /\ forall ops,
               Forall (History.not_set_of key) ops ->
               exists c2,
                 History.run ops c1 = (Ok tt, c2)
                 /\ forall now', TTLCache.get now' key c2 = (Ok None, c2)).
Proof.
  split.
  - intros c key value t0 t1 Hm.
    destruct (set_then_resident t0 key value c Hm)
      as (c1 & Hset & Hv & Ht & Httl & _).
    exists c1. split; [done|]. split; [done|]. split.
    + intros Hage. eexists. eapply get_hit; [done..|]. by rewrite Httl.
    + intros Hage. eexists. split.
      * eapply get_expired; [|done|by rewrite Httl].
        apply getitem_is_Some. by rewrite Hv.
      * rewrite resident_with_store. apply not_in_keys_delitem.
  - intros c key t now Hc Hm Hlen Hin Ht Hage.
    destruct (apply_ok (History.OpGet now key) c Hc Hm Hlen)
      as (r & c1 & Hget & Hc1 & Hm1 & Ht1 & Hl1 & _).
    cbn in Hget. rewrite (get_expired now key c t) in Hget by done.
    injection Hget as <- <-.
    eexists. split; [by eapply get_expired|].
    assert (Hout : key ∉ History.resident
              (TTLCache.with_store c
                 (OrderedDict.delitem key (TTLCache._cache c))
                 (delete key (TTLCache._timestamps c)))).
    { rewrite resident_with_store. apply not_in_keys_delitem. }
    split; [done|]. split; [apply lookup_delete_eq|].
    intros ops Hops.
    destruct (run_ok ops _ Hc1) as (c2 & Hrun & _ & _ & _ & _ & Hk);
      [lia | done |].
    exists c2. split; [done|]. intros now'. apply get_absent.
    intros Hin2. apply Hout. by apply Hk.
Qed.
End ttl_cache_claims.

(** ** The recency order of the cache *)
Section recency.
Context {K : Type} `{Countable K} {V : Type}.
Implicit Types (c : TTLCache.t K V) (key k : K) (uses : gmap K nat).

Lemma StronglySorted_filter_ne (R : relation K) (l : list K) key :
  StronglySorted R l -> StronglySorted R (filter (fun k => k ≠ key) l).
Proof.
  induction 1 as [|a l Hl IH Ha]; [constructor|].
  destruct (decide (a = key)) as [->|Hne].
  - by rewrite filter_cons_False by (intros ?; done).
  - rewrite filter_cons_True by done. constructor; [done|].
    apply Forall_forall. intros x [_ Hx]%list_elem_of_filter.
    by eapply Forall_forall in Ha.
Qed.

Lemma StronglySorted_drop (R : relation K) (l : list K) n :
  StronglySorted R l -> StronglySorted R (drop n l).
Proof.
  rewrite <- (take_drop n l) at 1. apply StronglySorted_app_1_r.
Qed.

Lemma StronglySorted_impl (R R' : relation K) (l : list K) :
  (forall a b, a ∈ l -> b ∈ l -> R a b -> R' a b) ->
  StronglySorted R l -> StronglySorted R' l.
Proof.
  intros HR Hl. induction Hl as [|a l Hl IH Ha]; [constructor|].
  constructor.
  - apply IH. intros x y Hx Hy. apply HR; by apply elem_of_cons; right.
  - apply Forall_forall. intros x Hx. apply HR.
    + apply list_elem_of_here.
    + by apply elem_of_cons; right.
    + by eapply Forall_forall in Ha.
Qed.

(** Using [key] at step [n] keeps the order when [key] moves to the end. *)
Lemma by_last_use_to_end uses n (l : list K) key :
  StronglySorted (History.used_before uses) l ->
  Forall (fun k => exists s, uses !! k = Some s /\ (s < n)%nat) l ->
  StronglySorted (History.used_before (<[key := n]> uses))
    (filter (fun k => k ≠ key) l ++ [key])
  /\ Forall (fun k => exists s, <[key := n]> uses !! k = Some s
                                /\ (s < S n)%nat)
       (filter (fun k => k ≠ key) l ++ [key]).
Proof.
  intros Hs Hb. rewrite Forall_forall in Hb. split.
  - apply StronglySorted_app. split; [|split].
    + intros a b [Ha Hin]%list_elem_of_filter ->%list_elem_of_singleton.
      destruct (Hb a Hin) as (s & Hs1 & Hs2).
      exists s, n. rewrite lookup_insert_ne by done.
      by rewrite lookup_insert_eq.
    + eapply StronglySorted_impl; [|by apply StronglySorted_filter_ne].
      intros a b [Ha _]%list_elem_of_filter [Hb' _]%list_elem_of_filter
        (sa & sb & ? & ? & ?).
      exists sa, sb. by rewrite !lookup_insert_ne.
    + repeat constructor.
  - apply Forall_forall. intros k [->|Hin]%elem_of_to_end.
    + exists n. rewrite lookup_insert_eq. split; [done | lia].
    + destruct (decide (k = key)) as [->|Hne].
      * exists n. rewrite lookup_insert_eq. split; [done | lia].
      * destruct (Hb k Hin) as (s & ? & ?). exists s.
        rewrite lookup_insert_ne by done. split; [done | lia].
Qed.

(** One call keeps the recency order, with the uses brought up to date. *)
Lemma apply_by_last_use o c uses n :
  History.consistent c ->
  0 <= TTLCache.max_size c ->
  History.by_last_use uses n c ->
  History.by_last_use
    (match History.used o c with
     | Some key => <[key := n]> uses
     | None => uses
     end) (S n) (History.apply o c).2.
Proof.
  intros Hc Hm [Hs Hb]. destruct o as [now key|now key value]; cbn.
  - destruct (get_resident now key c Hc) as (r & c' & -> & _ & _ & _ & Hr).
    cbn. destruct r as [v|].
    + destruct Hr as [_ Hr]. unfold History.by_last_use. rewrite Hr.
      by apply by_last_use_to_end.
    + unfold History.by_last_use. rewrite Hr. split.
      * by apply StronglySorted_filter_ne.
      * apply Forall_forall. intros k [_ Hk]%list_elem_of_filter.
        rewrite Forall_forall in Hb. destruct (Hb k Hk) as (s & ? & ?).
        exists s. split; [done | lia].
  - destruct (set_resident now key value c Hm Hc)
      as (c' & -> & _ & _ & _ & Hr).
    cbn in *. unfold History.by_last_use. rewrite Hr.
    destruct (by_last_use_to_end uses n _ key Hs Hb) as [Hs' Hb'].
    split.
    + by apply StronglySorted_drop.
    + apply Forall_forall. intros k Hk%subseteq_drop.
      by eapply Forall_forall in Hb'.
Qed.

(** A sequence of calls from a consistent cache in recency order runs to
    the end and leaves the cache in the order of the last uses. *)
Lemma run_by_last_use ops c uses n :
  History.consistent c ->
  0 <= TTLCache.max_size c ->
  TTLCache.__len__ c <= TTLCache.max_size c ->
  History.by_last_use uses n c ->
  exists c',
    History.run ops c = (Ok tt, c')
    /\ History.consistent c'
    /\ TTLCache.max_size c' = TTLCache.max_size c
    /\ TTLCache.ttl c' = TTLCache.ttl c
    /\ TTLCache.__len__ c' <= TTLCache.max_size c'
    /\ History.by_last_use (History.last_use n ops c uses)
         (n + length ops) c'.
Proof.
  revert c uses n. induction ops as [|o ops IH]; intros c uses n Hc Hm Hl Hu.
  - exists c. cbn. rewrite Nat.add_0_r. done.
  - destruct (apply_ok o c Hc Hm Hl)
      as (r & c1 & Ho & Hc1 & Hm1 & Ht1 & Hl1 & _).
    pose proof (apply_by_last_use o c uses n Hc Hm Hu) as Hu1.
    rewrite Ho in Hu1. cbn [snd] in Hu1.
    destruct (IH c1 _ (S n) Hc1 ltac:(lia) Hl1 Hu1)
      as (c' & Hrun & Hc' & Hm' & Ht' & Hl' & Hu').
    exists c'. cbn [History.run History.last_use]. rewrite Ho. cbn [snd].
    split; [done|]. split; [done|]. split; [congruence|].
    split; [congruence|]. split; [done|].
    replace (n + length (o :: ops))%nat with (S n + length ops)%nat
      by (simpl; lia).
    done.
Qed.
End recency.

Section lru_claims.
Context {K : Type} `{Countable K} {V : Type}.
Implicit Types (c : TTLCache.t K V) (key k a b : K) (value : V).

Lemma length_filter_ne_NoDup (l : list K) key :
  NoDup l -> key ∈ l ->
  S (length (filter (fun k => k ≠ key) l)) = length l.
Proof.
  induction 1 as [|x l Hx Hl IH]; [by intros ?%elem_of_nil|].
  intros [->|Hin]%elem_of_cons.
  - rewrite filter_cons_False by (intros ?; done).
    by rewrite filter_ne_absent.
  - rewrite filter_cons_True by (intros ->; done). simpl. by rewrite IH.
Qed.

(** The cache after a sequence of calls from a new cache. *)
Lemma run_from_init (m t : Z) ops :
  0 <= m ->
  exists c,
    History.run ops (TTLCache.__init__ (K:=K) (V:=V) m t) = (Ok tt, c)
    /\ History.consistent c
    /\ TTLCache.max_size c = m
    /\ TTLCache.ttl c = t
    /\ TTLCache.__len__ c <= m
    /\ History.by_last_use
         (History.last_use 0 ops (TTLCache.__init__ m t) ∅) (length ops) c.
Proof.
  intros Hm.
  destruct (run_by_last_use ops (TTLCache.__init__ (K:=K) (V:=V) m t) ∅ 0)
    as (c & Hrun & Hc & Hm' & Ht' & Hl & Hu).
  - apply init_consistent.
  - done.
  - cbn. unfold TTLCache.__len__, OrderedDict.len. cbn. lia.
  - split; cbn; constructor.
  - exists c. cbn in Hm', Ht'. rewrite Hm' in Hl. done.
Qed.

(** C2. From a new cache of capacity at least 0, every sequence of [get]
    and [set] calls runs without raising and leaves no more than
    [max_size] entries. When a [set] of a new key meets a full cache, the
    entry evicted is the first of the dictionary, and every other resident
    key was read successfully or written later than it. In a full cache of
    capacity at least 2, reading a resident key [a] and then setting a new
    key [b] leaves [a] and [b] resident and evicts, of the keys other than
    [a], the one used least recently. *)
Theorem size_bound_and_lru_eviction :
  (forall (max_size ttl : Z) (ops : list (History.op K V)),
     0 <= max_size ->
     exists c,
       History.run ops (TTLCache.__init__ max_size ttl) = (Ok tt, c)
       /\ TTLCache.__len__ c <= max_size)
  /\ (forall (max_size ttl : Z) ops c now key value,
        1 <= max_size ->
        History.run ops (TTLCache.__init__ max_size ttl) = (Ok tt, c) ->
        TTLCache.__len__ c = max_size ->
        key ∉ History.resident c ->
        exists oldest rest c',
          History.resident c = oldest :: rest
          /\ TTLCache.set now key value c = (Ok tt, c')
          /\ History.resident c' = rest ++ [key]
          /\ Forall
               (History.used_before
                  (History.last_use 0 ops (TTLCache.__init__ max_size ttl) ∅)
                  oldest) rest)
  /\ (forall (max_size ttl : Z) ops c a t now_a b now_b value,
        2 <= max_size ->
        History.run ops (TTLCache.__init__ max_size ttl) = (Ok tt, c) ->
        TTLCache.__len__ c = max_size ->
        a ∈ History.resident c ->
        TTLCache._timestamps c !! a = Some t ->
        now_a - t <= ttl ->
        b ∉ History.resident c ->
        exists va c1 c2 victim rest,
          TTLCache.get now_a a c = (Ok (Some va), c1)
          /\ TTLCache.set now_b b value c1 = (Ok tt, c2)
          /\ filter (fun k => k ≠ a) (History.resident c) = victim :: rest
          /\ History.resident c2 = rest ++ [a; b]
          /\ (victim ∉ History.resident c2)
          /\ Forall
               (History.used_before
                  (History.last_use 0 ops (TTLCache.__init__ max_size ttl) ∅)
                  victim) rest).
Proof.
  split; [|split].
  - intros m t ops Hm.
    destruct (run_from_init m t ops Hm) as (c & Hrun & _ & _ & _ & Hl & _).
    by exists c.
  - intros m t ops c now key value Hm Hrun Hfull Hnew.
    destruct (run_from_init m t ops ltac:(lia))
      as (c0 & Hrun0 & Hc & Hmax & Httl & Hl & Hs & _).
    rewrite Hrun in Hrun0. injection Hrun0 as <-.
    rewrite len_resident in Hfull.
    destruct (History.resident c) as [|oldest rest] eqn:Hres;
      [simpl in Hfull; lia|].
    destruct (set_resident now key value c ltac:(lia) Hc)
      as (c' & Hset & _ & _ & _ & Hr).
    exists oldest, rest, c'. split; [done|]. split; [done|].
    cbn zeta in Hr. rewrite Hres in Hr.
    rewrite filter_ne_absent in Hr by done.
    split.
    + rewrite Hr, length_app. simpl length in *.
      replace (S (length rest) + 1 - Z.to_nat (TTLCache.max_size c))%nat
        with 1%nat by lia.
      done.
    + by apply StronglySorted_cons in Hs as [? _].
  - intros m t ops c a ta now_a b now_b value Hm Hrun Hfull Ha Hta Hage Hb.
    destruct (run_from_init m t ops ltac:(lia))
      as (c0 & Hrun0 & Hc & Hmax & Httl & Hl & Hs & _).
    rewrite Hrun in Hrun0. injection Hrun0 as <-.
    rewrite len_resident in Hfull.
    destruct (proj2 (getitem_is_Some a (TTLCache._cache c)) Ha) as [va Hva].
    pose proof (get_hit now_a a c ta va Hva Hta ltac:(lia)) as Hget.
    destruct (get_resident now_a a c Hc)
      as (r & c1 & Hget' & Hc1 & Hm1 & _ & Hr1).
    rewrite Hget in Hget'. injection Hget' as <- Hc1eq.
    destruct Hr1 as [_ Hr1].
    destruct (set_resident now_b b value c1 ltac:(lia) Hc1)
      as (c2 & Hset & Hc2 & _ & _ & Hr2).
    cbn zeta in Hr2.
    destruct Hc as [Hnd _].
    pose proof (length_filter_ne_NoDup _ a Hnd Ha) as Hlen.
    destruct (filter (fun k => k ≠ a) (History.resident c))
      as [|victim rest] eqn:Hf; [simpl in Hlen; lia|].
    assert (Hb1 : b ∉ History.resident c1).
    { rewrite Hr1. intros [Hin|Hin]%elem_of_app.
      - apply Hb. rewrite <- Hf in Hin.
        by apply list_elem_of_filter in Hin as [_ ?].
      - apply list_elem_of_singleton in Hin as ->. done. }
    rewrite filter_ne_absent in Hr2 by done.
    rewrite Hr1, Hm1, !length_app in Hr2. simpl length in *.
    replace (S (length rest) + 1 + 1 - Z.to_nat (TTLCache.max_size c))%nat
      with 1%nat in Hr2 by lia.
    cbn in Hr2. rewrite <- app_assoc in Hr2. cbn in Hr2.
    exists va, c1, c2, victim, rest.
    split; [by rewrite Hget, Hc1eq|]. split; [done|]. split; [done|].
    split; [done|].
    assert (Hs' : StronglySorted
              (History.used_before
                 (History.last_use 0 ops (TTLCache.__init__ m t) ∅))
              (victim :: rest)).
    { rewrite <- Hf. by apply StronglySorted_filter_ne. }
    split; [|by apply StronglySorted_cons in Hs' as [? _]].
    rewrite Hr2. destruct Hc1 as [Hnd1 _]. rewrite Hr1 in Hnd1.
    cbn in Hnd1. apply NoDup_cons in Hnd1 as [Hv _].
    intros Hin. apply elem_of_app in Hin as [Hin|Hin].
    + apply Hv, elem_of_app. by left.
    + apply elem_of_cons in Hin as [->|Hin].
      * apply Hv, elem_of_app. right. apply list_elem_of_here.
      * apply list_elem_of_singleton in Hin as ->. apply Hb.
        assert (Hbf : b ∈ filter (fun k => k ≠ a) (History.resident c))
          by (rewrite Hf; apply list_elem_of_here).
        by apply list_elem_of_filter in Hbf as [_ ?].
Qed.
End lru_claims.

(** ** The rate limiter *)
Section rate_limiter_facts.
Context {cfg : Config}.
Implicit Types (w : World) (now author_id : Z).

(** The check, with the reads of the two defaultdicts spelled out. *)
Lemma check_rate_limit_unfold now author_id w :
  check_rate_limit now author_id w
  = let w1 :=
      with_cooldowns
        (<[author_id := last_accepted author_id w]> (author_cooldowns w)) w in
    if now - last_accepted author_id w <? COOLDOWN_SECONDS then
      ((false, "cooldown"%string),
       with_stats (incr_rate_limit_blocks (stats w)) w1)
    else
      let pruned := within_hour now (recorded author_id w) in
      let w2 :=
        with_counts (<[author_id := pruned]> (author_translation_count w))
          w1 in
      if Z.of_nat (length pruned) >=? MAX_TRANSLATIONS_PER_HOUR then
        ((false, "hour limit"%string),
         with_stats (incr_rate_limit_blocks (stats w)) w2)
      else ((true, EmptyString), w2).
Proof.
  unfold check_rate_limit, defaultdict_getitem, last_accepted, recorded,
    within_hour.
  destruct (author_cooldowns w !! author_id) as [last|] eqn:Hlast; cbn.
  - rewrite (insert_id _ _ _ Hlast).
    destruct (now - last <? COOLDOWN_SECONDS); [done|].
    destruct (author_translation_count w !! author_id) as [l|] eqn:Hl; cbn.
    + done.
    + by rewrite insert_insert_eq.
  - destruct (now - 0 <? COOLDOWN_SECONDS); [done|].
    destruct (author_translation_count w !! author_id) as [l|] eqn:Hl; cbn.
    + done.
    + by rewrite insert_insert_eq.
Qed.

Lemma update_rate_limit_unfold now author_id w :
  update_rate_limit now author_id w
  = with_counts
      (<[author_id := recorded author_id w ++ [now]]>
         (author_translation_count w))
      (with_cooldowns (<[author_id := now]> (author_cooldowns w)) w).
Proof.
  unfold update_rate_limit, defaultdict_getitem, recorded. cbn.
  destruct (author_translation_count w !! author_id) as [l|] eqn:Hl; cbn.
  - done.
  - by rewrite insert_insert_eq.
Qed.

Lemma commits_snoc author_id times now w :
  commits author_id (times ++ [now]) w
  = update_rate_limit now author_id (commits author_id times w).
Proof. unfold commits. by rewrite foldl_app. Qed.

(** After some commits the record of the user is the old record followed
    by the times of the commits, and the last of them is the timestamp the
    cooldown is measured from. *)
Lemma commits_recorded author_id times w :
  recorded author_id (commits author_id times w)
  = recorded author_id w ++ times
  /\ last_accepted author_id (commits author_id times w)
     = List.last times (last_accepted author_id w).
Proof.
  induction times as [|now times IH] using rev_ind.
  - cbn. by rewrite app_nil_r.
  - rewrite commits_snoc, update_rate_limit_unfold.
    destruct IH as [IHr IHl].
    unfold recorded, last_accepted in *. cbn.
    rewrite !lookup_insert_eq. cbn. rewrite IHr, app_assoc.
    split; [done|]. by rewrite List.last_last.
Qed.
End rate_limiter_facts.

Section rate_limiter_claims.
Context {cfg : Config}.
Implicit Types (w : World) (now author_id : Z).

Lemma length_within_hour_all now (times : list Z) :
  Forall (fun t => t > now - 3600) times ->
  within_hour now times = times.
Proof.
  unfold within_hour. induction 1 as [|t times Ht _ IH]; [done|].
  cbn. destruct (Z.gtb_spec t (now - 3600)); [by rewrite IH | lia].
Qed.

Lemma length_within_hour_le now (times : list Z) :
  (length (within_hour now times) <= length times)%nat.
Proof. unfold within_hour. apply List.filter_length_le. Qed.

(** C3, amended. The check denies with reason cooldown exactly when less
    than COOLDOWN_SECONDS have passed since the user's last accepted
    translation; otherwise it replaces the user's record by the timestamps
    of the trailing 3600 seconds and denies with reason hour limit exactly
    when at least MAX_TRANSLATIONS_PER_HOUR of them remain; otherwise it
    allows. After as many commits as the quota, all within the trailing
    hour, a check past the cooldown is denied with reason hour limit; once
    the oldest commit is an hour old, a check past the cooldown is
    allowed. *)
Theorem check_rate_limit_policy :
  (forall now author_id w, check_policy "hour limit" now author_id w)
  /\ (forall author_id (times : list Z) now w,
        recorded author_id w = [] ->
        Z.of_nat (length times) = MAX_TRANSLATIONS_PER_HOUR ->
        Forall (fun t => t > now - 3600) times ->
        COOLDOWN_SECONDS
          <= now - last_accepted author_id (commits author_id times w) ->
        (check_rate_limit now author_id (commits author_id times w)).1
        = (false, "hour limit"%string))
  /\ (forall author_id (oldest : Z) (rest : list Z) now w,
        recorded author_id w = [] ->
        Z.of_nat (length (oldest :: rest)) = MAX_TRANSLATIONS_PER_HOUR ->
        oldest <= now - 3600 ->
        COOLDOWN_SECONDS
          <= now
             - last_accepted author_id
                 (commits author_id (oldest :: rest) w) ->
        (check_rate_limit now author_id
           (commits author_id (oldest :: rest) w)).1
        = (true, EmptyString)).
Proof.
  split; [|split].
  - intros now author_id w. unfold check_policy.
    rewrite check_rate_limit_unfold. cbn zeta.
    destruct (Z.ltb_spec (now - last_accepted author_id w) COOLDOWN_SECONDS)
      as [Hcool|Hcool].
    + split; [done|]. intros Hn. lia.
    + rewrite Z.geb_leb.
      destruct (Z.leb_spec MAX_TRANSLATIONS_PER_HOUR
                  (Z.of_nat (length (within_hour now (recorded author_id w)))))
        as [Hq|Hq].
      * split; [split; [done | lia]|]. intros _.
        split; [unfold recorded; cbn; by rewrite lookup_insert_eq|].
        split; [split; [lia | done]|]. intros Hn. lia.
      * split; [split; [done | lia]|]. intros _.
        split; [unfold recorded; cbn; by rewrite lookup_insert_eq|].
        split; [split; [done | lia]|]. done.
  - intros author_id times now w Hnone Hlen Hall Hcool.
    rewrite check_rate_limit_unfold. cbn zeta.
    destruct (Z.ltb_spec
                (now - last_accepted author_id (commits author_id times w))
                COOLDOWN_SECONDS); [lia|].
    destruct (commits_recorded author_id times w) as [-> _].
    rewrite Hnone. cbn [app]. rewrite length_within_hour_all by done.
    rewrite Z.geb_leb.
    destruct (Z.leb_spec MAX_TRANSLATIONS_PER_HOUR (Z.of_nat (length times)));
      [done | lia].
  - intros author_id oldest rest now w Hnone Hlen Hold Hcool.
    rewrite check_rate_limit_unfold. cbn zeta.
    destruct (Z.ltb_spec
                (now - last_accepted author_id
                         (commits author_id (oldest :: rest) w))
                COOLDOWN_SECONDS); [lia|].
    destruct (commits_recorded author_id (oldest :: rest) w) as [-> _].
    rewrite Hnone. cbn [app]. unfold within_hour at 1. cbn [List.filter].
    destruct (Z.gtb_spec oldest (now - 3600)); [lia|].
    fold (within_hour now rest).
    pose proof (length_within_hour_le now rest).
    rewrite Z.geb_leb. simpl length in Hlen.
    destruct (Z.leb_spec MAX_TRANSLATIONS_PER_HOUR
                (Z.of_nat (length (within_hour now rest))));
      [lia | done].
Qed.
End rate_limiter_claims.

(** C3 as stated fails. With the default configuration user 7 has thirty
    commits in the last half hour, the last at time 2740. At time 2800 the
    cooldown has passed and the quota is reached, and the reason returned is
    not hourly_quota. At time 2750, ten seconds after the thirtieth commit,
    the check that follows the commits is denied for the cooldown and not
    for the quota. *)
Lemma check_reason_is_not_hourly_quota :
  ~ @check_policy default_config "hourly_quota" 2800 7 world_at_quota
  /\ within_hour 2750 (recorded 7 world_at_quota) = recorded 7 world_at_quota
  /\ Z.of_nat (length (recorded 7 world_at_quota))
     = @MAX_TRANSLATIONS_PER_HOUR default_config
  /\ (@check_rate_limit default_config 2750 7 world_at_quota).1
     = (false, "cooldown"%string).
Proof.
  split; [|by vm_compute].
  unfold check_policy.
  assert (Hr : (@check_rate_limit default_config 2800 7 world_at_quota).1
               = (false, "hour limit"%string)) by (vm_compute; reflexivity).
  destruct (@check_rate_limit default_config 2800 7 world_at_quota)
    as [answer w']. cbn in Hr. subst answer.
  assert (Hlast : last_accepted 7 world_at_quota = 2740)
    by (vm_compute; reflexivity).
  assert (Hlen :
    Z.of_nat (length (within_hour 2800 (recorded 7 world_at_quota))) = 30)
    by (vm_compute; reflexivity).
  rewrite Hlast, Hlen. cbn. intros [_ Hq].
  destruct Hq as (_ & Hiff & _); [lia|].
  assert (Habs : (false, "hour limit"%string) = (false, "hourly_quota"%string))
    by (apply Hiff; lia).
  discriminate Habs.
Qed.

Section rate_limiter_frame.
Context {cfg : Config}.

(** C4, amended. The check leaves the translation cache, the trace and the
    clock count alone, and for every user the timestamp the cooldown is
    measured from; in the cooldown map it only stores the user's current
    value. The record of every other user is unchanged; the record of the
    user is unchanged when the cooldown denies and is otherwise replaced
    by its timestamps of the trailing 3600 seconds. Of the counters only
    rate_limit_blocks changes: it grows by one when the check denies. *)
Theorem check_rate_limit_effects (now author_id : Z) (w : World) :
  let answer := (check_rate_limit now author_id w).1 in
  let w' := (check_rate_limit now author_id w).2 in
  translation_cache w' = translation_cache w
  /\ trace w' = trace w
  /\ ticks w' = ticks w
  /\ author_cooldowns w'
     = <[author_id := last_accepted author_id w]> (author_cooldowns w)
  /\ (forall u, last_accepted u w' = last_accepted u w)
  /\ (forall u, u ≠ author_id -> recorded u w' = recorded u w)
  /\ recorded author_id w'
     = (if now - last_accepted author_id w <? COOLDOWN_SECONDS
        then recorded author_id w
        else within_hour now (recorded author_id w))
  /\ translations_total (stats w') = translations_total (stats w)
  /\ cache_hits (stats w') = cache_hits (stats w)
  /\ errors (stats w') = errors (stats w)
  /\ api_calls (stats w') = api_calls (stats w)
  /\ rate_limit_blocks (stats w')
     = rate_limit_blocks (stats w) + (if answer.1 then 0 else 1).
Proof.
  cbn zeta. rewrite check_rate_limit_unfold. cbn zeta.
  assert (Hlast : forall u,
    default 0 (<[author_id := last_accepted author_id w]>
                 (author_cooldowns w) !! u)
    = last_accepted u w).
  { intros u. unfold last_accepted. rewrite lookup_insert.
    case_decide as Hu; [by subst | done]. }
  assert (Hother : forall (l : list Z) u, u ≠ author_id ->
    default [] (<[author_id := l]> (author_translation_count w) !! u)
    = recorded u w).
  { intros l u Hu. unfold recorded. by rewrite lookup_insert_ne. }
  assert (Hself : forall (l : list Z),
    default [] (<[author_id := l]> (author_translation_count w) !! author_id)
    = l).
  { intros l. by rewrite lookup_insert_eq. }
  destruct (now - last_accepted author_id w <? COOLDOWN_SECONDS).
  - cbn. repeat split; done || lia.
  - destruct (Z.of_nat (length (within_hour now (recorded author_id w)))
              >=? MAX_TRANSLATIONS_PER_HOUR); cbn;
      repeat split;
      first [ done | lia | by apply Hself | intros u Hu; by apply Hother ].
Qed.
End rate_limiter_frame.

(** C4 as stated fails: ten seconds after user 7's accepted translation the
    check denies and counts the denial, so the counters are not what they
    were. *)
Lemma check_rate_limit_changes_state :
  ~ @check_read_only default_config 1010 7 world_after_one_commit.
Proof.
  intros (_ & _ & Hs).
  apply (f_equal rate_limit_blocks) in Hs. vm_compute in Hs. discriminate Hs.
Qed.

(** ** translate_text *)
Section translate_text_facts.
Context (E : Env).
Implicit Types (w : World) (text source_lang target_lang : str).
Implicit Types (cache_key : str * str * str) (b : Backend).

Lemma attempt_unfold b cache_key text source_lang target_lang w :
  attempt E b cache_key text source_lang target_lang w
  = match translator E b (ticks w) source_lang target_lang text with
    | Raise e => (Raise e, after_call b source_lang target_lang text w)
    | Ok result =>
        let w2 := after_answer b source_lang target_lang text w in
        match TTLCache.set (clock E (ticks w2)) cache_key result
                (translation_cache w2) with
        | (Ok _, c') => (Ok result, with_cache c' (tick w2))
        | (Raise e, c') => (Raise e, with_cache c' (tick w2))
        end
    end.
Proof.
  unfold attempt, bind, call_backend, modify, cache_set, ret, after_answer,
    after_call.
  destruct (translator E b (ticks w) source_lang target_lang text); [|done].
  cbn zeta.
  destruct (TTLCache.set _ cache_key a _) as [[[]|e] c']; done.
Qed.

(** With room for at least one entry the write of an answer succeeds. *)
Lemma attempt_answered b cache_key text source_lang target_lang w result :
  1 <= TTLCache.max_size (translation_cache w) ->
  translator E b (ticks w) source_lang target_lang text = Ok result ->
  exists w',
    attempt E b cache_key text source_lang target_lang w = (Ok result, w')
    /\ trace w' = trace w ++ [Translate b source_lang target_lang text]
    /\ stats w' = incr_api_calls (stats w)
    /\ OrderedDict.getitem cache_key (TTLCache._cache (translation_cache w'))
       = Some result
    /\ author_cooldowns w' = author_cooldowns w
    /\ author_translation_count w' = author_translation_count w.
Proof.
  intros Hm Hans. rewrite attempt_unfold, Hans. cbn zeta.
  destruct (set_then_resident
              (clock E (ticks (after_answer b source_lang target_lang text w)))
              cache_key result (translation_cache w) Hm)
    as (c1 & Hset & Hv & _).
  change (translation_cache (after_answer b source_lang target_lang text w))
    with (translation_cache w).
  rewrite Hset. eexists. split; [done|]. cbn. done.
Qed.
End translate_text_facts.

Section translate_text_claims.
Context (E : Env).
Implicit Types (w : World) (text source_lang target_lang : str).

Lemma translate_text_miss text source_lang target_lang w cached w0 :
  cache_get E (strip text, source_lang, target_lang) w = (Ok cached, w0) ->
  is_miss cached ->
  translate_text E text source_lang target_lang w
  = backend_chain E (strip text, source_lang, target_lang)
      text source_lang target_lang w0.
Proof.
  intros Hget Hmiss. unfold translate_text, bind. rewrite Hget.
  by destruct Hmiss as [->| ->].
Qed.

Lemma cache_get_frame key w r w0 :
  cache_get E key w = (r, w0) ->
  stats w0 = stats w /\ trace w0 = trace w
  /\ author_cooldowns w0 = author_cooldowns w
  /\ author_translation_count w0 = author_translation_count w
  /\ TTLCache.max_size (translation_cache w0)
     = TTLCache.max_size (translation_cache w).
Proof.
  unfold cache_get.
  destruct (TTLCache.get _ key (translation_cache w)) as [r' c'] eqn:Hg.
  intros [= <- <-].
  assert (TTLCache.max_size c' = TTLCache.max_size (translation_cache w)).
  { unfold TTLCache.get in Hg.
    repeat match type of Hg with
           | context [if ?b then _ else _] => destruct b
           | context [match ?o with Some _ => _ | None => _ end] => destruct o
           end; by injection Hg as <- <-. }
  by destruct (OrderedDict.contains key _).
Qed.

(** The fallback chain in terms of its two attempts. *)
Lemma backend_chain_unfold cache_key text source_lang target_lang w :
  backend_chain E cache_key text source_lang target_lang w
  = match attempt E MyMemory cache_key text source_lang target_lang w with
    | (Ok result, w1) => (Ok result, w1)
    | (Raise _, w1) =>
        match attempt E Google cache_key text source_lang target_lang
                (emit (Log WARNING) w1) with
        | (Ok result, w2) => (Ok result, w2)
        | (Raise e, w2) =>
            (Raise e, with_stats (incr_errors (stats w2)) (emit (Log ERROR) w2))
        end
    end.
Proof.
  unfold backend_chain, try_except.
  destruct (attempt E MyMemory _ _ _ _ w) as [[result|e1] w1]; [done|].
  unfold bind at 1. unfold logger at 1. unfold modify at 1.
  destruct (attempt E Google _ _ _ _ (emit (Log WARNING) w1))
    as [[result|e] w2]; done.
Qed.

(** C5. On a cache miss translate_text calls MyMemory first. If MyMemory
    answers, its answer is returned after api_calls has grown by one and the
    answer is stored in the cache, and Google is not called. If MyMemory
    raises, a warning is logged and Google is called: its answer is treated
    the same way, and if it raises too, an error is logged, the errors
    counter grows by one, nothing is stored and the exception is raised to
    the caller. No other counter changes in any of the three cases. *)
Theorem translate_text_fallback text source_lang target_lang w cached w0 :
  let cache_key := (strip text, source_lang, target_lang) in
  1 <= TTLCache.max_size (translation_cache w) ->
  cache_get E cache_key w = (Ok cached, w0) ->
  is_miss cached ->
  let r := (translate_text E text source_lang target_lang w).1 in
  let w' := (translate_text E text source_lang target_lang w).2 in
  translations_total (stats w') = translations_total (stats w)
  /\ cache_hits (stats w') = cache_hits (stats w)
  /\ rate_limit_blocks (stats w') = rate_limit_blocks (stats w)
  /\ match MyMemoryTranslator E (ticks w0) source_lang target_lang text with
     | Ok result =>
         r = Ok result
         /\ trace w'
            = trace w ++ [Translate MyMemory source_lang target_lang text]
         /\ stats w' = incr_api_calls (stats w)
         /\ api_calls (stats w') = api_calls (stats w) + 1
         /\ errors (stats w') = errors (stats w)
         /\ OrderedDict.getitem cache_key
              (TTLCache._cache (translation_cache w'))
            = Some result
     | Raise _ =>
         match GoogleTranslator E (S (ticks w0)) source_lang target_lang text
         with
         | Ok result =>
             r = Ok result
             /\ trace w'
                = trace w ++ [Translate MyMemory source_lang target_lang text;
                              Log WARNING;
                              Translate Google source_lang target_lang text]
             /\ stats w' = incr_api_calls (stats w)
             /\ api_calls (stats w') = api_calls (stats w) + 1
             /\ errors (stats w') = errors (stats w)
             /\ OrderedDict.getitem cache_key
                  (TTLCache._cache (translation_cache w'))
                = Some result
         | Raise e =>
             r = Raise e
             /\ trace w'
                = trace w ++ [Translate MyMemory source_lang target_lang text;
                              Log WARNING;
                              Translate Google source_lang target_lang text;
                              Log ERROR]
             /\ stats w' = incr_errors (stats w)
             /\ api_calls (stats w') = api_calls (stats w)
             /\ errors (stats w') = errors (stats w) + 1
             /\ translation_cache w' = translation_cache w0
         end
     end.
Proof.
  intros cache_key Hm Hget Hmiss. cbn zeta.
  rewrite (translate_text_miss _ _ _ _ _ _ Hget Hmiss).
  destruct (cache_get_frame _ _ _ _ Hget) as (Hst & Htr & _ & _ & Hmax).
  rewrite <- Hst, <- Htr. rewrite <- Hmax in Hm. fold cache_key.
  rewrite backend_chain_unfold.
  destruct (MyMemoryTranslator E (ticks w0) source_lang target_lang text)
    as [result|e1] eqn:H1.
  - destruct (attempt_answered E MyMemory cache_key text source_lang
                target_lang w0 result Hm H1) as (w1 & -> & ? & Hs1 & ? & _).
    cbn [fst snd]. rewrite Hs1. done.
  - rewrite (attempt_unfold E MyMemory). cbn [translator]. rewrite H1.
    set (w1 := emit (Log WARNING)
                 (after_call MyMemory source_lang target_lang text w0)).
    destruct (GoogleTranslator E (S (ticks w0)) source_lang target_lang text)
      as [result|e2] eqn:H2.
    + destruct (attempt_answered E Google cache_key text source_lang
                  target_lang w1 result Hm H2)
        as (w2 & -> & Ht2 & Hs2 & Hv2 & _).
      cbn [fst snd]. rewrite Ht2, Hs2. cbn. by rewrite <- !app_assoc.
    + rewrite (attempt_unfold E Google). cbn [translator].
      change (ticks w1) with (S (ticks w0)). rewrite H2.
      cbn. by rewrite <- !app_assoc.
Qed.

(** Whatever the backends and the cache do, the fallback chain starts with a
    call to MyMemory and never counts a cache hit. *)
Lemma backend_chain_effects cache_key text source_lang target_lang w :
  let w' :=
    (backend_chain E cache_key text source_lang target_lang w).2 in
  cache_hits (stats w') = cache_hits (stats w)
  /\ exists rest,
       trace w'
       = trace w ++ Translate MyMemory source_lang target_lang text :: rest.
Proof.
  cbn zeta. rewrite backend_chain_unfold, (attempt_unfold E MyMemory).
  assert (Hgoogle : forall w1,
    cache_hits (stats w1) = cache_hits (stats w) ->
    (exists rest, trace w1
       = trace w ++ Translate MyMemory source_lang target_lang text :: rest) ->
    let w' :=
      (match attempt E Google cache_key text source_lang target_lang
               (emit (Log WARNING) w1) with
       | (Ok result, w2) => (Ok result, w2)
       | (Raise e, w2) =>
           (Raise e, with_stats (incr_errors (stats w2)) (emit (Log ERROR) w2))
       end).2 in
    cache_hits (stats w') = cache_hits (stats w)
    /\ exists rest,
         trace w'
         = trace w ++ Translate MyMemory source_lang target_lang text :: rest).
  { intros w1 Hh [rest Htr]. cbn zeta. rewrite (attempt_unfold E Google).
    destruct (translator E Google _ _ _ _) as [r2|e2]; cbn zeta.
    - destruct (TTLCache.set _ _ _ _) as [[[]|e] c2]; cbn;
        (split; [done|]); rewrite Htr; eexists;
        rewrite <- ?app_assoc; cbn; reflexivity.
    - cbn. split; [done|]. rewrite Htr. eexists.
      rewrite <- ?app_assoc. cbn. reflexivity. }
  destruct (translator E MyMemory _ _ _ _) as [r1|e1]; cbn zeta.
  - destruct (TTLCache.set _ _ _ _) as [[[]|e] c1].
    + cbn. split; [done|]. by exists [].
    + apply Hgoogle; cbn; [done|]. by exists [].
  - apply Hgoogle; cbn; [done|]. by exists [].
Qed.

(** C10. When the cache holds the empty string for the key of a call and the
    entry has not expired, translate_text counts no cache hit and calls
    MyMemory. In general, whatever the lookup returns: a value that is not
    empty is returned as a hit, with the hit counted and no backend called;
    None and the empty string both lead to the backends. *)
Theorem empty_cached_value_is_a_miss text source_lang target_lang w :
  let cache_key := (strip text, source_lang, target_lang) in
  let r := (translate_text E text source_lang target_lang w).1 in
  let w' := (translate_text E text source_lang target_lang w).2 in
  (forall t,
     OrderedDict.getitem cache_key (TTLCache._cache (translation_cache w))
     = Some [] ->
     TTLCache._timestamps (translation_cache w) !! cache_key = Some t ->
     clock E (ticks w) - t <= TTLCache.ttl (translation_cache w) ->
     cache_hits (stats w') = cache_hits (stats w)
     /\ exists rest,
          trace w'
          = trace w ++ Translate MyMemory source_lang target_lang text :: rest)
  /\ (forall cached w0,
        cache_get E cache_key w = (Ok cached, w0) ->
        match cached with
        | Some (c :: s) =>
            r = Ok (c :: s)
            /\ cache_hits (stats w') = cache_hits (stats w) + 1
            /\ trace w' = trace w
        | _ =>
            cache_hits (stats w') = cache_hits (stats w)
            /\ exists rest,
                 trace w'
                 = trace w
                   ++ Translate MyMemory source_lang target_lang text :: rest
        end).
Proof.
  cbn zeta.
  assert (Hgen : forall cached w0,
    cache_get E (strip text, source_lang, target_lang) w = (Ok cached, w0) ->
    match cached with
    | Some (c :: s) =>
        (translate_text E text source_lang target_lang w).1 = Ok (c :: s)
        /\ cache_hits
             (stats (translate_text E text source_lang target_lang w).2)
           = cache_hits (stats w) + 1
        /\ trace (translate_text E text source_lang target_lang w).2 = trace w
    | _ =>
        cache_hits (stats (translate_text E text source_lang target_lang w).2)
        = cache_hits (stats w)
        /\ exists rest,
             trace (translate_text E text source_lang target_lang w).2
             = trace w
               ++ Translate MyMemory source_lang target_lang text :: rest
    end).
  { intros cached w0 Hget.
    destruct (cache_get_frame _ _ _ _ Hget) as (Hst & Htr & _).
    destruct cached as [[|c s]|].
    - rewrite (translate_text_miss _ _ _ _ _ _ Hget) by (by right).
      rewrite <- Hst, <- Htr. apply backend_chain_effects.
    - unfold translate_text, bind. rewrite Hget. cbn.
      by rewrite Hst, Htr.
    - rewrite (translate_text_miss _ _ _ _ _ _ Hget) by (by left).
      rewrite <- Hst, <- Htr. apply backend_chain_effects. }
  split; [|exact Hgen].
  intros t Hv Ht Hage.
  pose proof (get_hit (clock E (ticks w)) _ _ t [] Hv Ht Hage) as Hget.
  eapply (Hgen (Some [])). unfold cache_get. by rewrite Hget.
Qed.
End translate_text_claims.

(** ** normalize_lang *)

Lemma ascii_lower_char_idemp c :
  ascii_lower_char (ascii_lower_char c) = ascii_lower_char c.
Proof.
  unfold ascii_lower_char.
  destruct ((65 <=? c) && (c <=? 90))%N eqn:Hc; [|by rewrite Hc].
  apply andb_true_iff in Hc as [Hc1%N.leb_le Hc2%N.leb_le].
  destruct (N.leb_spec (c + 32) 90); [lia|]. by rewrite andb_false_r.
Qed.

Lemma ascii_lower_idemp s : ascii_lower (ascii_lower s) = ascii_lower s.
Proof.
  unfold ascii_lower. rewrite map_map. apply map_ext. intros c.
  apply ascii_lower_char_idemp.
Qed.

(** The tables restricted to ASCII: every other character is neither a
    letter nor changed by lower-casing. They satisfy the interface. *)
Definition ascii_tables : Unicode := {|
  isalpha := ascii_isalpha;
  lower := ascii_lower;
  isalpha_space := eq_refl;
  lower_lower := ascii_lower_idemp;
  lower_ascii := fun s _ => eq_refl;
|}.

Section normalize_lang_claims.
Context {U : Unicode}.

Lemma mapping_lookup (code : str) :
  mapping !! code
  = if decide (code = py "zh-cn") then Some (py "zh")
    else if decide (code = py "zh-tw") then Some (py "zh")
    else if decide (code = py "pt-br") then Some (py "pt")
    else if decide (code = py "iw") then Some (py "he")
    else None.
Proof.
  unfold mapping. rewrite !lookup_insert, lookup_empty.
  repeat (case_decide; subst; try done).
Qed.

Lemma lower_literal (s : str) :
  is_ascii s -> ascii_lower s = s -> lower s = s.
Proof. intros Ha Hl. by rewrite lower_ascii. Qed.

Lemma normalize_lang_value (x v : str) :
  mapping !! lower x = Some v ->
  normalize_lang x = v /\ lower v = v /\ mapping !! v = None.
Proof.
  intros Hx. unfold normalize_lang. rewrite Hx. split; [done|].
  rewrite mapping_lookup in Hx.
  repeat case_decide; try done; injection Hx as <-;
    (split; [apply lower_literal; [repeat constructor | done]
            | by rewrite mapping_lookup]).
Qed.

(** C9. normalize_lang is idempotent; a canonical code is returned
    unchanged; each of the four legacy codes goes to its canonical code; a
    code whose lower-cased form is not a legacy code is returned
    lower-cased. *)
Theorem normalize_lang_idempotent :
  (forall x, normalize_lang (normalize_lang x) = normalize_lang x)
  /\ (forall code, canonical code -> normalize_lang code = code)
  /\ normalize_lang (py "zh-cn") = py "zh"
  /\ normalize_lang (py "zh-tw") = py "zh"
  /\ normalize_lang (py "pt-br") = py "pt"
  /\ normalize_lang (py "iw") = py "he"
  /\ (forall x, mapping !! lower x = None -> normalize_lang x = lower x).
Proof.
  assert (Hcanon : forall code, canonical code -> normalize_lang code = code).
  { intros code [Hl Hm]. unfold normalize_lang. by rewrite Hl, Hm. }
  assert (Hlegacy : forall (s v : str),
    is_ascii s -> ascii_lower s = s ->
    mapping !! s = Some v -> normalize_lang s = v).
  { intros s v Ha Hl Hm. unfold normalize_lang.
    rewrite (lower_literal s Ha Hl), Hm. done. }
  split; [|split; [done|]].
  - intros x. destruct (mapping !! lower x) as [v|] eqn:Hx.
    + destruct (normalize_lang_value x v Hx) as (-> & Hl & Hm).
      by apply Hcanon.
    + unfold normalize_lang at 2 3. rewrite Hx. cbn.
      apply Hcanon. split; [apply lower_lower | done].
  - repeat split;
      try (apply Hlegacy;
           [repeat constructor | done | by rewrite mapping_lookup]).
    intros x Hx. unfold normalize_lang. by rewrite Hx.
Qed.
End normalize_lang_claims.

(** ** should_translate *)
Section should_translate_claims.
Context {U : Unicode}.
Implicit Types (s p text : str) (message : discord.Message).








End should_translate_claims.

(** ** The languages a message is translated into *)

Lemma keys_TARGET_LANGUAGES :
  OrderedDict.keys TARGET_LANGUAGES = [py "en"; py "fr"; py "es"].
Proof. reflexivity. Qed.

Lemma elem_of_filter_ne (l : list str) (s lang : str) :
  lang ∈ List.filter (fun lang => negb (bool_decide (lang = s))) l
  <-> lang ∈ l /\ lang ≠ s.
Proof.
  rewrite list_elem_of_In, List.filter_In, <- list_elem_of_In,
    negb_true_iff, bool_decide_eq_false. done.
Qed.

Lemma NoDup_langs_to_translate (source_lang : str) :
  NoDup (langs_to_translate source_lang).
Proof.
  assert (Hk : NoDup (OrderedDict.keys TARGET_LANGUAGES)).
  { rewrite keys_TARGET_LANGUAGES.
    repeat (apply NoDup_cons; split;
            [intros Hin;
             repeat (apply elem_of_cons in Hin as [Hin|Hin];
                     [discriminate Hin|]);
             by apply elem_of_nil in Hin|]).
    apply NoDup_nil_2. }
  unfold langs_to_translate.
  destruct (negb _); [done|].
  apply NoDup_ListNoDup, List.NoDup_filter, NoDup_ListNoDup, Hk.
Qed.

Section cold_cache.
Context {U : Unicode} {cfg : Config} (E : Env).
Implicit Types (w : World) (text source_lang lang : str).

(** A write leaves every other absent key absent. *)
Lemma set_keeps_absent (now : Z) (key k : str * str * str) (value : str)
    (c : TTLCache.t (str * str * str) str) :
  0 <= TTLCache.max_size c ->
  k ≠ key ->
  k ∉ History.resident c ->
  exists c',
    TTLCache.set now key value c = (Ok tt, c')
    /\ (k ∉ History.resident c')
    /\ TTLCache.max_size c' = TTLCache.max_size c.
Proof.
  intros Hm Hne Hk. eexists. split; [by apply set_unfold|]. split; [|done].
  rewrite resident_with_store. unfold OrderedDict.keys.
  rewrite fmap_drop. intros Hin%subseteq_drop. apply Hk.
  change (k ∈ OrderedDict.keys
            (OrderedDict.delitem key (TTLCache._cache c) ++ [(key, value)]))
    in Hin.
  rewrite keys_app, keys_delitem in Hin.
  apply elem_of_to_end in Hin as [?|?]; done.
Qed.

(** One attempt: the events it adds are the call and nothing else, and no
    other key becomes resident. *)
Lemma attempt_events b (key : str * str * str) text source_lang lang w :
  0 <= TTLCache.max_size (translation_cache w) ->
  let w' := (attempt E b key text source_lang lang w).2 in
  trace w' = trace w ++ [Translate b source_lang lang text]
  /\ TTLCache.max_size (translation_cache w')
     = TTLCache.max_size (translation_cache w)
  /\ forall k, k ≠ key ->
       k ∉ History.resident (translation_cache w) ->
       k ∉ History.resident (translation_cache w').
Proof.
  intros Hm. cbn zeta. rewrite attempt_unfold.
  destruct (translator E b (ticks w) source_lang lang text) as [result|e];
    [|done].
  cbn zeta.
  change (translation_cache (after_answer b source_lang lang text w))
    with (translation_cache w).
  rewrite set_unfold by done. cbn [fst snd]. split; [done|]. split; [done|].
  intros k Hne Hk.
  destruct (set_keeps_absent
              (clock E (ticks (after_answer b source_lang lang text w)))
              key k result (translation_cache w) Hm Hne Hk)
    as (c' & Hset & Hk' & _).
  rewrite set_unfold in Hset by done. injection Hset as <-. exact Hk'.
Qed.

(** The chain asks MyMemory once, for the language of the call. *)
Lemma backend_chain_targets (key : str * str * str) text source_lang lang w :
  0 <= TTLCache.max_size (translation_cache w) ->
  let w' := (backend_chain E key text source_lang lang w).2 in
  (exists l, trace w' = trace w ++ l /\ mymemory_targets l = [lang])
  /\ TTLCache.max_size (translation_cache w')
     = TTLCache.max_size (translation_cache w)
  /\ forall k, k ≠ key ->
       k ∉ History.resident (translation_cache w) ->
       k ∉ History.resident (translation_cache w').
Proof.
  intros Hm. cbn zeta. rewrite backend_chain_unfold.
  destruct (attempt_events MyMemory key text source_lang lang w Hm)
    as (Ht1 & Hm1 & Hk1).
  destruct (attempt E MyMemory key text source_lang lang w) as [[r1|e1] w1];
    cbn [snd] in *.
  - split; [|done]. eexists. split; [exact Ht1 | done].
  - destruct (attempt_events Google key text source_lang lang
                (emit (Log WARNING) w1)) as (Ht2 & Hm2 & Hk2);
      [by rewrite <- Hm1 in Hm|].
    cbn [translation_cache emit] in Hm2, Hk2. rewrite Hm1 in Hm2.
    destruct (attempt E Google key text source_lang lang
                (emit (Log WARNING) w1)) as [[r2|e2] w2]; cbn [snd] in *.
    + split; [|split; [done | by auto]].
      exists ([Translate MyMemory source_lang lang text; Log WARNING;
               Translate Google source_lang lang text]).
      split; [|done]. rewrite Ht2. cbn. rewrite Ht1.
      by rewrite <- !app_assoc.
    + split; [|split; [done | by auto]].
      exists ([Translate MyMemory source_lang lang text; Log WARNING;
               Translate Google source_lang lang text; Log ERROR]).
      split; [|done]. cbn. rewrite Ht2. cbn. rewrite Ht1.
      by rewrite <- !app_assoc.
Qed.

(** A translation whose key is not in the cache asks MyMemory once. *)
Lemma translate_text_cold text source_lang lang w :
  0 <= TTLCache.max_size (translation_cache w) ->
  cache_key_of text source_lang lang ∉ History.resident (translation_cache w) ->
  let w' := (translate_text E text source_lang lang w).2 in
  (exists l, trace w' = trace w ++ l /\ mymemory_targets l = [lang])
  /\ TTLCache.max_size (translation_cache w')
     = TTLCache.max_size (translation_cache w)
  /\ forall k, k ≠ cache_key_of text source_lang lang ->
       k ∉ History.resident (translation_cache w) ->
       k ∉ History.resident (translation_cache w').
Proof.
  intros Hm Hcold. cbn zeta.
  assert (Hget : cache_get E (strip text, source_lang, lang) w = (Ok None, w)).
  { unfold cache_get. rewrite get_absent by exact Hcold.
    apply contains_false in Hcold. unfold cache_key_of in Hcold.
    rewrite Hcold. by destruct w. }
  rewrite (translate_text_miss E _ _ _ _ _ _ Hget) by (by left).
  by apply backend_chain_targets.
Qed.

(** The loop over the languages on a cold cache asks MyMemory for each
    language once, in order, and always returns. *)
Lemma translate_all_cold text source_lang (langs : list str) w
    (translations : list (str * str)) :
  0 <= TTLCache.max_size (translation_cache w) ->
  NoDup langs ->
  (forall lang, lang ∈ langs ->
     cache_key_of text source_lang lang
     ∉ History.resident (translation_cache w)) ->
  exists translations' w' l,
    translate_all E text source_lang langs translations w
    = (Ok translations', w')
    /\ trace w' = trace w ++ l
    /\ mymemory_targets l = langs.
Proof.
  revert w translations.
  induction langs as [|lang langs IH]; intros w translations Hm Hnd Hcold.
  - exists translations, w, []. cbn. by rewrite app_nil_r.
  - apply NoDup_cons in Hnd as [Hlang Hnd].
    destruct (translate_text_cold text source_lang lang w Hm)
      as ((l1 & Ht1 & Hl1) & Hm1 & Hk1).
    { apply Hcold, list_elem_of_here. }
    cbn [translate_all]. unfold bind at 1. unfold try_except, bind at 1.
    assert (Hcold1 : forall lang', lang' ∈ langs ->
      cache_key_of text source_lang lang'
      ∉ History.resident
          (translation_cache (translate_text E text source_lang lang w).2)).
    { intros lang' Hin. apply Hk1.
      - unfold cache_key_of. intros [= ->]. done.
      - apply Hcold. by apply elem_of_cons; right. }
    destruct (translate_text E text source_lang lang w) as [[r|e] w1];
      cbn [snd] in *.
    + destruct (IH w1 (OrderedDict.setitem lang r translations))
        as (tr' & w' & l2 & Hrun & Ht2 & Hl2); [by rewrite Hm1 | done | done |].
      exists tr', w', (l1 ++ l2). cbn. rewrite Hrun. split; [done|].
      split; [by rewrite Ht2, Ht1, app_assoc|].
      unfold mymemory_targets in *. by rewrite flat_map_app, Hl1, Hl2.
    + destruct (IH w1 translations)
        as (tr' & w' & l2 & Hrun & Ht2 & Hl2); [by rewrite Hm1 | done | done |].
      exists tr', w', (l1 ++ l2). cbn. rewrite Hrun. split; [done|].
      split; [by rewrite Ht2, Ht1, app_assoc|].
      unfold mymemory_targets in *. by rewrite flat_map_app, Hl1, Hl2.
Qed.
(** The check leaves the cache, the trace and the count of answers alone. *)
Lemma check_rate_limit_frame (now author_id : Z) w :
  let w' := (check_rate_limit now author_id w).2 in
  translation_cache w' = translation_cache w
  /\ trace w' = trace w
  /\ ticks w' = ticks w.
Proof.
  cbn zeta. rewrite check_rate_limit_unfold. cbn zeta.
  destruct (now - last_accepted author_id w <? COOLDOWN_SECONDS); [done|].
  by destruct (_ >=? MAX_TRANSLATIONS_PER_HOUR).
Qed.

(** Lines 260-271 by the answer of the reply. *)
Lemma deliver_unfold (message : discord.Message) (embed : discord.Embed)
    (translations : list (str * str)) w :
  deliver E message embed translations w
  = let w1 := tick (emit (Reply embed) w) in
    match reply E (ticks w) embed with
    | Ok _ =>
        let w2 :=
          update_rate_limit (clock E (ticks w1))
            (discord.id (discord.author message)) (tick w1) in
        (Ok tt,
         emit (Log INFO)
           (with_stats
              (add_translations_total (Z.of_nat (length translations))
                 (stats w2)) w2))
    | Raise Forbidden =>
        match discord.channel message with
        | discord.TextChannel _ => (Ok tt, emit (Log WARNING) w1)
        | discord.DMChannel => (Raise AttributeError, w1)
        end
    | Raise HTTPException =>
        (Ok tt, with_stats (incr_errors (stats w1)) (emit (Log ERROR) w1))
    | Raise e => (Raise e, w1)
    end.
Proof.
  unfold deliver, try_except, bind, message_reply, time_time, modify, logger,
    raise, eval.
  destruct (reply E (ticks w) embed) as [[]|e]; [done|].
  destruct e; try done. by destruct (discord.channel message).
Qed.

(** The events of the delivery: the reply, then at most one log record. *)
Lemma deliver_trace (message : discord.Message) (embed : discord.Embed)
    (translations : list (str * str)) w :
  exists d,
    trace (deliver E message embed translations w).2 = trace w ++ d
    /\ (d = [Reply embed] \/ exists level, d = [Reply embed; Log level]).
Proof.
  rewrite deliver_unfold. cbn zeta.
  destruct (reply E (ticks w) embed) as [[]|e].
  - exists [Reply embed; Log INFO]. rewrite update_rate_limit_unfold. cbn.
    rewrite <- app_assoc. eauto.
  - destruct e; [| |destruct (discord.channel message)| |]; cbn;
      first [ exists [Reply embed]; by eauto
            | exists [Reply embed; Log WARNING]; rewrite <- app_assoc; by eauto
            | exists [Reply embed; Log ERROR]; rewrite <- app_assoc;
              by eauto ].
Qed.

(** The delivery adds no call to a backend. *)
Lemma deliver_targets (message : discord.Message) (embed : discord.Embed)
    (translations : list (str * str)) w :
  exists l,
    trace (deliver E message embed translations w).2 = trace w ++ l
    /\ mymemory_targets l = [].
Proof.
  destruct (deliver_trace message embed translations w) as (d & -> & Hd).
  exists d. split; [done|]. by destruct Hd as [->|[level ->]].
Qed.

(** A message that passes the filter, the rate limit and the detection, on
    a cache that holds none of its translations: MyMemory is asked for the
    languages of [langs_to_translate], each once and in order. *)
Lemma on_message_cold (message : discord.Message) w (detected : str) :
  let text := strip (discord.content message) in
  let source_lang := normalize_lang detected in
  should_translate message = true ->
  (check_rate_limit (clock E (ticks w)) (discord.id (discord.author message))
     (tick w)).1.1 = true ->
  detect E text = Ok detected ->
  0 <= TTLCache.max_size (translation_cache w) ->
  (forall lang, lang ∈ langs_to_translate source_lang ->
     cache_key_of text source_lang lang
     ∉ History.resident (translation_cache w)) ->
  exists l,
    trace (on_message E message w).2 = trace w ++ l
    /\ mymemory_targets l = langs_to_translate source_lang.
Proof.
  intros text source_lang Hfilter Hcan Hdetect Hm Hcold.
  unfold on_message. rewrite Hfilter. cbn [negb].
  unfold bind at 1. unfold time_time at 1. unfold bind at 1.
  destruct (check_rate_limit_frame (clock E (ticks w))
              (discord.id (discord.author message)) (tick w))
    as (Hc1 & Ht1 & _).
  destruct (check_rate_limit (clock E (ticks w))
              (discord.id (discord.author message)) (tick w))
    as [[can reason] w1].
  cbn in Hcan, Hc1, Ht1. subst can. cbn [fst negb].
  fold text. rewrite Hdetect. fold source_lang.
  destruct (langs_to_translate source_lang) as [|lang langs] eqn:Hlangs.
  { exists []. cbn. by rewrite Ht1, app_nil_r. }
  destruct (translate_all_cold text source_lang (lang :: langs) w1 [])
    as (translations & w2 & l & Hrun & Ht2 & Hl).
  - by rewrite Hc1.
  - rewrite <- Hlangs. apply NoDup_langs_to_translate.
  - rewrite Hc1. exact Hcold.
  - unfold bind. rewrite Hrun.
    destruct translations as [|t translations].
    { exists l. cbn. by rewrite Ht2, Ht1. }
    destruct (add_fields (t :: translations) []) as [fields|e].
    + destruct (deliver_targets message {| discord.fields := fields |}
                  (t :: translations) w2) as (l3 & Ht3 & Hl3).
      exists (l ++ l3). rewrite Ht3, Ht2, Ht1, app_assoc. split; [done|].
      unfold mymemory_targets in *.
      by rewrite flat_map_app, Hl, Hl3, app_nil_r.
    + exists l. cbn. by rewrite Ht2, Ht1.
Qed.
(** C6. When the source language is one of the target languages, the
    languages translated into are the target languages other than the
    source; when it is not, they are all the target languages. With the
    targets en, fr and es, the source fr gives en and es, and the source de
    gives en, fr and es. These are the languages attempted: for a message
    that passes the filter, the rate limit and the detection, on a cache
    that holds none of its translations, the languages MyMemory is asked for
    are those of [langs_to_translate], each once and in order. *)
Theorem langs_to_translate_spec :
  (forall source_lang : str,
     source_lang ∈ OrderedDict.keys TARGET_LANGUAGES ->
     forall lang,
       lang ∈ langs_to_translate source_lang
       <-> lang ∈ OrderedDict.keys TARGET_LANGUAGES /\ lang ≠ source_lang)
  /\ (forall source_lang : str,
        source_lang ∉ OrderedDict.keys TARGET_LANGUAGES ->
        langs_to_translate source_lang = OrderedDict.keys TARGET_LANGUAGES)
  /\ langs_to_translate (py "fr") = [py "en"; py "es"]
  /\ langs_to_translate (py "de") = [py "en"; py "fr"; py "es"]
  /\ (forall (message : discord.Message) w (detected : str),
        let text := strip (discord.content message) in
        let source_lang := normalize_lang detected in
        should_translate message = true ->
        (check_rate_limit (clock E (ticks w))
           (discord.id (discord.author message)) (tick w)).1.1 = true ->
        detect E text = Ok detected ->
        0 <= TTLCache.max_size (translation_cache w) ->
        (forall lang, lang ∈ langs_to_translate source_lang ->
           cache_key_of text source_lang lang
           ∉ History.resident (translation_cache w)) ->
        exists l,
          trace (on_message E message w).2 = trace w ++ l
          /\ mymemory_targets l = langs_to_translate source_lang).
Proof.
  split; [|split; [|split; [|split]]]; [| |reflexivity|reflexivity|].
  - intros source_lang Hin%contains_true lang.
    unfold langs_to_translate. rewrite Hin. cbn [negb].
    apply elem_of_filter_ne.
  - intros source_lang Hout%contains_false.
    unfold langs_to_translate. by rewrite Hout.
  - intros message w detected. apply on_message_cold.
Qed.
End cold_cache.

(** ** What happens before the delivery *)
Section before_delivery.
Context {U : Unicode} {cfg : Config} (E : Env).
Implicit Types (w : World) (text source_lang lang : str).

Lemma no_delivery_refl w : no_delivery w w.
Proof.
  split; [done|]. split; [done|]. split; [done|].
  exists []. by rewrite app_nil_r.
Qed.

Lemma no_delivery_trans w1 w2 w3 :
  no_delivery w1 w2 -> no_delivery w2 w3 -> no_delivery w1 w3.
Proof.
  intros (Hc1 & Hr1 & Hs1 & l1 & Ht1 & Hl1) (Hc2 & Hr2 & Hs2 & l2 & Ht2 & Hl2).
  split; [congruence|]. split; [congruence|]. split; [congruence|].
  exists (l1 ++ l2). split; [by rewrite Ht2, Ht1, app_assoc|].
  by rewrite List.filter_app, Hl1, Hl2.
Qed.

(** The steps of translate_text that touch neither the rate limiter nor
    translations_total and send no reply. *)
Lemma no_delivery_step w w' (l : list event) :
  author_cooldowns w' = author_cooldowns w ->
  author_translation_count w' = author_translation_count w ->
  translations_total (stats w') = translations_total (stats w) ->
  trace w' = trace w ++ l ->
  List.filter is_reply l = [] ->
  no_delivery w w'.
Proof. intros. split; [done|]. split; [done|]. split; [done|]. eauto. Qed.

Lemma attempt_no_delivery b key text source_lang lang w :
  no_delivery w (attempt E b key text source_lang lang w).2.
Proof.
  rewrite attempt_unfold.
  destruct (translator E b (ticks w) source_lang lang text) as [result|e].
  - cbn zeta. destruct (TTLCache.set _ _ _ _) as [[[]|e] c'];
      by apply (no_delivery_step _ _ [Translate b source_lang lang text]).
  - by apply (no_delivery_step _ _ [Translate b source_lang lang text]).
Qed.

Lemma backend_chain_no_delivery key text source_lang lang w :
  no_delivery w (backend_chain E key text source_lang lang w).2.
Proof.
  rewrite backend_chain_unfold.
  pose proof (attempt_no_delivery MyMemory key text source_lang lang w) as H1.
  destruct (attempt E MyMemory key text source_lang lang w) as [[r1|e1] w1];
    [done|].
  eapply no_delivery_trans; [exact H1|]. cbn [snd].
  pose proof (attempt_no_delivery Google key text source_lang lang
                (emit (Log WARNING) w1)) as H2.
  destruct (attempt E Google key text source_lang lang (emit (Log WARNING) w1))
    as [[r2|e2] w2]; cbn [snd] in *.
  - eapply no_delivery_trans; [|exact H2].
    by apply (no_delivery_step _ _ [Log WARNING]).
  - eapply no_delivery_trans;
      [by apply (no_delivery_step w1 (emit (Log WARNING) w1) [Log WARNING])|].
    eapply no_delivery_trans; [exact H2|].
    by apply (no_delivery_step _ _ [Log ERROR]).
Qed.

Lemma translate_text_no_delivery text source_lang lang w :
  no_delivery w (translate_text E text source_lang lang w).2.
Proof.
  unfold translate_text, bind.
  destruct (cache_get E (strip text, source_lang, lang) w) as [[cached|e] w0]
    eqn:Hget;
    destruct (cache_get_frame E _ _ _ _ Hget) as (Hs & Ht & Hc & Hr & _).
  - assert (H0 : no_delivery w w0).
    { apply (no_delivery_step _ _ []);
        [done | done | by rewrite Hs | by rewrite Ht, app_nil_r | done]. }
    destruct cached as [[|c s]|].
    + eapply no_delivery_trans; [exact H0|].
      apply backend_chain_no_delivery.
    + eapply no_delivery_trans; [exact H0|].
      apply (no_delivery_step _ _ []); [done | done | done | | done].
      cbn. by rewrite app_nil_r.
    + eapply no_delivery_trans; [exact H0|].
      apply backend_chain_no_delivery.
  - cbn [snd]. apply (no_delivery_step _ _ []);
      [done | done | by rewrite Hs | by rewrite Ht, app_nil_r | done].
Qed.

(** The loop over the languages always returns. *)
Lemma translate_all_no_delivery text source_lang (langs : list str) w
    (translations : list (str * str)) :
  exists translations' w',
    translate_all E text source_lang langs translations w
    = (Ok translations', w')
    /\ no_delivery w w'.
Proof.
  revert w translations. induction langs as [|lang langs IH];
    intros w translations.
  - exists translations, w. split; [done | apply no_delivery_refl].
  - pose proof (translate_text_no_delivery text source_lang lang w) as H1.
    cbn [translate_all]. unfold bind at 1. unfold try_except, bind at 1.
    destruct (translate_text E text source_lang lang w) as [[r|e] w1];
      cbn [snd] in H1.
    + destruct (IH w1 (OrderedDict.setitem lang r translations))
        as (tr' & w' & Hrun & H2).
      exists tr', w'. cbn. rewrite Hrun. split; [done|].
      by eapply no_delivery_trans.
    + destruct (IH w1 translations) as (tr' & w' & Hrun & H2).
      exists tr', w'. cbn. rewrite Hrun. split; [done|].
      by eapply no_delivery_trans.
Qed.
Lemma sublist_List_filter {A} (f : A -> bool) (l : list A) :
  List.filter f l `sublist_of` l.
Proof.
  induction l as [|a l IH]; cbn; [constructor|].
  destruct (f a); by constructor.
Qed.

(** The check commits nothing. *)
Lemma check_no_commit (now author_id : Z) w :
  no_commit w (check_rate_limit now author_id w).2.
Proof.
  rewrite check_rate_limit_unfold. cbn zeta.
  assert (Hlast : forall u,
    default 0 (<[author_id := last_accepted author_id w]>
                 (author_cooldowns w) !! u)
    = last_accepted u w).
  { intros u. unfold last_accepted. rewrite lookup_insert.
    case_decide as Hu; [by subst | done]. }
  assert (Hrec : forall u,
    default [] (<[author_id := within_hour now (recorded author_id w)]>
                  (author_translation_count w) !! u)
    `sublist_of` recorded u w).
  { intros u. rewrite lookup_insert. case_decide as Hu.
    - subst u. cbn. apply sublist_List_filter.
    - done. }
  assert (Hnil : exists l : list event,
            trace w = trace w ++ l /\ List.filter is_reply l = []).
  { exists []. by rewrite app_nil_r. }
  destruct (now - last_accepted author_id w <? COOLDOWN_SECONDS).
  - split; [exact Hlast|]. split; [done|]. split; done.
  - destruct (_ >=? MAX_TRANSLATIONS_PER_HOUR);
      (split; [exact Hlast|]; split; [exact Hrec|]; split; done).
Qed.



End before_delivery.

(** ** The delivery of the reply *)
Section deliver_claims.
Context {U : Unicode} {cfg : Config} (E : Env).

Lemma new_events_app (w w' : World) (l : list event) :
  trace w' = trace w ++ l -> new_events w w' = l.
Proof. unfold new_events. intros ->. by rewrite drop_app_length. Qed.

End deliver_claims.


(** * Examples *)

Lemma full_cache_run :
  History.run fill_small_cache small_cache = (Ok tt, full_cache).
Proof. vm_compute. reflexivity. Qed.

Lemma full_cache_consistent : History.consistent full_cache.
Proof.
  destruct (run_ok fill_small_cache small_cache) as (c & Hrun & Hc & _).
  - apply init_consistent.
  - cbn. lia.
  - cbn. unfold TTLCache.__len__, OrderedDict.len. cbn. lia.
  - rewrite full_cache_run in Hrun. by injection Hrun as <-.
Qed.

Lemma full_cache_resident : History.resident full_cache = [1; 2; 3].
Proof. vm_compute. reflexivity. Qed.

(** In the small cache: key 1 written at time 100 is read back at time 130;
    in the full cache, where key 1 was written at time 10, a read at time
    200 finds it expired, and it stays absent after a read and a write of
    key 2. *)
Lemma get_after_set_and_lazy_expiry_witness :
  (exists c1 c2,
     TTLCache.set 100 1 7 small_cache = (Ok tt, c1)
     /\ TTLCache.get 130 1 c1 = (Ok (Some 7), c2))
  /\ (exists c1 c2,
        TTLCache.get 200 1 full_cache = (Ok None, c1)
        /\ History.run [History.OpGet 210 2; History.OpSet 220 2 5] c1
           = (Ok tt, c2)
        /\ TTLCache.get 230 1 c2 = (Ok None, c2)).
Proof.
  split.
  - destruct (proj1 (get_after_set_and_lazy_expiry (K:=Z) (V:=Z))
                small_cache 1 7 100 130) as (c1 & Hset & _ & Hhit & _).
    { cbn. lia. }
    destruct Hhit as [c2 Hget]; [cbn; lia|].
    by exists c1, c2.
  - destruct (proj2 (get_after_set_and_lazy_expiry (K:=Z) (V:=Z))
                full_cache 1 10 200) as (c1 & Hget & _ & _ & Hlater).
    + exact full_cache_consistent.
    + vm_compute. discriminate.
    + vm_compute. discriminate.
    + rewrite full_cache_resident. apply list_elem_of_here.
    + vm_compute. reflexivity.
    + vm_compute. reflexivity.
    + destruct (Hlater [History.OpGet 210 2; History.OpSet 220 2 5])
        as (c2 & Hrun & Habsent).
      { repeat constructor. cbn. lia. }
      exists c1, c2. done.
Defined.

(** The cache of capacity 3 holds keys 1, 2 and 3, written in that order.
    Setting key 4 evicts key 1; reading key 1 first and then setting key 4
    evicts key 2 and keeps key 1. *)
Lemma size_bound_and_lru_eviction_witness :
  (exists c,
     History.run fill_small_cache small_cache = (Ok tt, c)
     /\ TTLCache.__len__ c <= 3)
  /\ (exists c',
        TTLCache.set 40 4 44 full_cache = (Ok tt, c')
        /\ History.resident c' = [2; 3; 4])
  /\ (exists va c1 c2,
        TTLCache.get 40 1 full_cache = (Ok (Some va), c1)
        /\ TTLCache.set 50 4 44 c1 = (Ok tt, c2)
        /\ History.resident c2 = [3; 1; 4]).
Proof.
  destruct (size_bound_and_lru_eviction (K:=Z) (V:=Z)) as (Hsize & Hlru & Hpat).
  assert (Hnew : 4 ∉ History.resident full_cache).
  { rewrite full_cache_resident. intros Hin.
    repeat (apply elem_of_cons in Hin as [Hin|Hin]; [discriminate Hin|]).
    by apply elem_of_nil in Hin. }
  split; [|split].
  - apply (Hsize 3 60 fill_small_cache). lia.
  - destruct (Hlru 3 60 fill_small_cache full_cache 40 4 44)
      as (oldest & rest & c' & Hres & Hset & Hres' & _).
    + lia.
    + exact full_cache_run.
    + vm_compute. reflexivity.
    + exact Hnew.
    + rewrite full_cache_resident in Hres. injection Hres as <- <-.
      by exists c'.
  - destruct (Hpat 3 60 fill_small_cache full_cache 1 10 40 4 50 44)
      as (va & c1 & c2 & victim & rest & Hget & Hset & Hf & Hres & _).
    + lia.
    + exact full_cache_run.
    + vm_compute. reflexivity.
    + rewrite full_cache_resident. apply list_elem_of_here.
    + vm_compute. reflexivity.
    + lia.
    + exact Hnew.
    + rewrite full_cache_resident in Hf. vm_compute in Hf.
      injection Hf as <- <-. by exists va, c1, c2.
Defined.

(** With a quota of two: after commits at times 1000 and 1100 a check at
    time 1200 is denied for the hour limit, and a check at time 4650, when
    the first commit is more than an hour old, is allowed. *)
Lemma check_rate_limit_policy_witness :
  @check_policy default_config "hour limit" 2800 7 world_at_quota
  /\ (@check_rate_limit small_config 1200 7
        (commits 7 [1000; 1100] initial_world)).1
     = (false, "hour limit"%string)
  /\ (@check_rate_limit small_config 4650 7
        (commits 7 [1000; 1100] initial_world)).1
     = (true, EmptyString).
Proof.
  split; [|split].
  - apply (proj1 (@check_rate_limit_policy default_config)).
  - apply (proj1 (proj2 (@check_rate_limit_policy small_config))).
    + reflexivity.
    + reflexivity.
    + repeat constructor.
    + vm_compute. discriminate.
  - apply (proj2 (proj2 (@check_rate_limit_policy small_config))).
    + reflexivity.
    + reflexivity.
    + vm_compute. discriminate.
    + vm_compute. discriminate.
Defined.

(** Ten seconds after user 7's commit the check counts one block and leaves
    the record of user 8 alone. *)
Lemma check_rate_limit_effects_witness :
  rate_limit_blocks
    (stats (@check_rate_limit default_config 1010 7 world_after_one_commit).2)
  = rate_limit_blocks (stats world_after_one_commit) + 1
  /\ recorded 8 (@check_rate_limit default_config 1010 7
                   world_after_one_commit).2
     = recorded 8 world_after_one_commit.
Proof.
  destruct (@check_rate_limit_effects default_config 1010 7
              world_after_one_commit)
    as (_ & _ & _ & _ & _ & Hother & _ & _ & _ & _ & _ & Hblocks).
  split.
  - exact Hblocks.
  - apply Hother. discriminate.
Defined.

(** On the first translation of a text, with MyMemory down, Google's answer
    is returned and stored, and one API call is counted. With both backends
    down the exception of Google is raised, one error is counted, no API
    call is counted and the cache is left as it was. *)
Lemma translate_text_fallback_witness :
  let text := py "Bonjour le monde" in
  let out :=
    translate_text env_google_only text (py "fr") (py "en") initial_world in
  let down :=
    translate_text env_without_permission text (py "fr") (py "en")
      initial_world in
  (out.1 = Ok (py "Hello world")
   /\ trace out.2
      = [Translate MyMemory (py "fr") (py "en") text; Log WARNING;
         Translate Google (py "fr") (py "en") text]
   /\ api_calls (stats out.2) = 1
   /\ errors (stats out.2) = 0
   /\ OrderedDict.getitem (strip text, py "fr", py "en")
        (TTLCache._cache (translation_cache out.2))
      = Some (py "Hello world"))
  /\ (down.1 = Raise (Exception_ "unavailable")
      /\ trace down.2
         = [Translate MyMemory (py "fr") (py "en") text; Log WARNING;
            Translate Google (py "fr") (py "en") text; Log ERROR]
      /\ api_calls (stats down.2) = 0
      /\ errors (stats down.2) = 1
      /\ translation_cache down.2 = translation_cache initial_world).
Proof.
  cbn zeta. split.
  - destruct (translate_text_fallback env_google_only (py "Bonjour le monde")
                (py "fr") (py "en") initial_world None initial_world)
      as (_ & _ & _ & Hr & Ht & _ & Ha & He & Hc).
    + vm_compute. discriminate.
    + reflexivity.
    + by left.
    + split; [exact Hr|]. split; [exact Ht|]. split; [exact Ha|].
      split; [exact He | exact Hc].
  - destruct (translate_text_fallback env_without_permission
                (py "Bonjour le monde") (py "fr") (py "en") initial_world None
                initial_world)
      as (_ & _ & _ & Hr & Ht & _ & Ha & He & Hc).
    + vm_compute. discriminate.
    + reflexivity.
    + by left.
    + split; [exact Hr|]. split; [exact Ht|]. split; [exact Ha|].
      split; [exact He | exact Hc].
Defined.

(** From fr the bot translates into en and es, from de into all three; on
    the first message of user 7, detected as fr, MyMemory is asked for en
    and es. *)
Lemma langs_to_translate_spec_witness :
  (py "en" ∈ langs_to_translate (py "fr")
   <-> py "en" ∈ OrderedDict.keys TARGET_LANGUAGES /\ py "en" ≠ py "fr")
  /\ langs_to_translate (py "de") = OrderedDict.keys TARGET_LANGUAGES
  /\ exists l,
       trace (@on_message ascii_tables default_config env_google_only
                some_message initial_world).2
       = trace initial_world ++ l
       /\ mymemory_targets l = [py "en"; py "es"].
Proof.
  destruct (@langs_to_translate_spec ascii_tables default_config
              env_google_only) as (Hin & Hout & _ & _ & Hcold).
  split; [|split].
  - apply (Hin (py "fr")).
    rewrite keys_TARGET_LANGUAGES. apply elem_of_cons. right.
    apply list_elem_of_here.
  - apply (Hout (py "de")).
    rewrite keys_TARGET_LANGUAGES. intros Hde.
    repeat (apply elem_of_cons in Hde as [Hde|Hde]; [discriminate Hde|]).
    by apply elem_of_nil in Hde.
  - apply (Hcold some_message initial_world (py "fr")).
    + reflexivity.
    + vm_compute. reflexivity.
    + reflexivity.
    + vm_compute. discriminate.
    + intros lang _. apply not_elem_of_nil.
Defined.




(** With the ASCII tables: en is canonical and returned as it is, and DE,
    which is no legacy code, is returned as de. *)
Lemma normalize_lang_idempotent_witness :
  @normalize_lang ascii_tables (py "en") = py "en"
  /\ @normalize_lang ascii_tables (py "DE") = py "de".
Proof.
  destruct (@normalize_lang_idempotent ascii_tables)
    as (_ & Hcanon & _ & _ & _ & _ & Hother).
  split.
  - apply Hcanon. split; [reflexivity | by rewrite mapping_lookup].
  - apply (Hother (py "DE")). cbn. by rewrite mapping_lookup.
Defined.

(** After MyMemory has answered a text with the empty string, the next
    translation of the same text counts no cache hit and calls MyMemory
    again. *)
Lemma empty_cached_value_is_a_miss_witness :
  let text := py "Bonjour le monde" in
  let w' :=
    (translate_text env_empty_answer text (py "fr") (py "en")
       world_with_empty_entry).2 in
  cache_hits (stats w') = cache_hits (stats world_with_empty_entry)
  /\ exists rest,
       trace w'
       = trace world_with_empty_entry
         ++ Translate MyMemory (py "fr") (py "en") text :: rest.
Proof.
  apply (proj1 (empty_cached_value_is_a_miss env_empty_answer
                  (py "Bonjour le monde") (py "fr") (py "en")
                  world_with_empty_entry) 1001).
  - vm_compute. reflexivity.
  - vm_compute. reflexivity.
  - vm_compute. discriminate.
Defined.


(** * Further properties *)

(** ** TTLCache: overwriting, reading and the edge capacities *)
Section ttl_cache_more.
Context {K : Type} `{Countable K} {V : Type}.
Implicit Types (c : TTLCache.t K V) (d : list (K * V)) (ts : gmap K Z).
Implicit Types (key k : K) (v value : V) (now : Z).

Lemma getitem_app_ne k key v d :
  k ≠ key ->
  OrderedDict.getitem k (d ++ [(key, v)]) = OrderedDict.getitem k d.
Proof.
  intros Hne. induction d as [|[a w] d IH]; cbn.
  - by rewrite decide_False by congruence.
  - by destruct (decide (a = k)).
Qed.

Lemma getitem_delitem_ne k key d :
  k ≠ key ->
  OrderedDict.getitem k (OrderedDict.delitem key d) = OrderedDict.getitem k d.
Proof.
  intros Hne. induction d as [|[a w] d IH]; cbn; [done|].
  destruct (decide (a = key)) as [->|Ha].
  - by rewrite decide_False by congruence.
  - cbn. by rewrite IH.
Qed.

(** Moving a key to the end changes no other key's value. *)
Lemma getitem_to_end k key v d :
  k ≠ key ->
  OrderedDict.getitem k (OrderedDict.delitem key d ++ [(key, v)])
  = OrderedDict.getitem k d.
Proof. intros Hne. by rewrite getitem_app_ne, getitem_delitem_ne. Qed.

(** X1. Writing a key that is resident, in a consistent cache within its
    capacity, evicts nothing: the number of entries is the same, the key
    moves to the end of the dictionary with the new value and the new
    timestamp, and every other key keeps its value and its timestamp. *)
Theorem set_overwrites_in_place c key value now :
  History.consistent c ->
  TTLCache.__len__ c <= TTLCache.max_size c ->
  key ∈ History.resident c ->
  exists c',
    TTLCache.set now key value c = (Ok tt, c')
    /\ TTLCache.__len__ c' = TTLCache.__len__ c
    /\ History.resident c'
       = filter (fun k => k ≠ key) (History.resident c) ++ [key]
    /\ OrderedDict.getitem key (TTLCache._cache c') = Some value
    /\ TTLCache._timestamps c' !! key = Some now
    /\ forall k, k ≠ key ->
         OrderedDict.getitem k (TTLCache._cache c')
         = OrderedDict.getitem k (TTLCache._cache c)
         /\ TTLCache._timestamps c' !! k = TTLCache._timestamps c !! k.
Proof.
  intros [Hnd Hts] Hlen Hin.
  pose proof (length_filter_ne_NoDup _ key Hnd Hin) as Hl.
  rewrite len_resident in Hlen.
  assert (Hm : 0 <= TTLCache.max_size c) by lia.
  eexists. split; [by apply set_unfold|].
  set (d := OrderedDict.delitem key (TTLCache._cache c) ++ [(key, value)]).
  assert (Hd : length d = length (History.resident c)).
  { unfold d. rewrite length_app. cbn.
    pose proof (f_equal length (keys_delitem key (TTLCache._cache c))) as Hk.
    unfold OrderedDict.keys at 1 in Hk. rewrite length_fmap in Hk.
    unfold History.resident in *. lia. }
  assert (Hover : History.overflow (TTLCache.max_size c) d = 0%nat).
  { unfold History.overflow. lia. }
  rewrite Hover, drop_0, take_0. rewrite !len_resident.
  rewrite !resident_with_store. cbn.
  split; [unfold OrderedDict.keys; rewrite length_fmap; lia|].
  split; [unfold d; by rewrite keys_app, keys_delitem|].
  split; [apply getitem_snoc_absent, not_in_keys_delitem|].
  split; [apply lookup_insert_eq|].
  intros k Hne. split; [by apply getitem_to_end|].
  by rewrite lookup_insert_ne.
Qed.

(** After a read every key is either gone or has the timestamp it had. *)
Lemma get_timestamps now key c k :
  History.consistent c ->
  k ∉ History.resident (TTLCache.get now key c).2
  \/ TTLCache._timestamps (TTLCache.get now key c).2 !! k
     = TTLCache._timestamps c !! k.
Proof.
  intros [Hnd Hts].
  destruct (decide (key ∈ History.resident c)) as [Hin|Hout].
  - destruct (proj1 (Hts key) Hin) as [t Ht].
    destruct (proj2 (getitem_is_Some key (TTLCache._cache c)) Hin) as [v Hv].
    destruct (Z_le_gt_dec (now - t) (TTLCache.ttl c)) as [Hage|Hage].
    + rewrite (get_hit now key c t v) by done. by right.
    + rewrite (get_expired now key c t) by done. cbn [snd].
      destruct (decide (k = key)) as [->|Hne].
      * left. rewrite resident_with_store. apply not_in_keys_delitem.
      * right. cbn. by apply lookup_delete_ne.
  - rewrite get_absent by done. by right.
Qed.

(** X2. Reading does not extend the life of an entry. A read that returns a
    value leaves every timestamp and every value as it was. So after a
    write of a key at time [t0], whatever reads follow, a read of the key
    more than the TTL after [t0] returns None. *)
Theorem reads_do_not_extend_life :
  (forall c key now v c',
     TTLCache.get now key c = (Ok (Some v), c') ->
     TTLCache._timestamps c' = TTLCache._timestamps c
     /\ forall k,
          OrderedDict.getitem k (TTLCache._cache c')
          = OrderedDict.getitem k (TTLCache._cache c))
  /\ (forall c key value t0 (ops : list (History.op K V)) t,
        History.consistent c ->
        1 <= TTLCache.max_size c ->
        TTLCache.__len__ c <= TTLCache.max_size c ->
        Forall is_get ops ->
        t - t0 > TTLCache.ttl c ->
        exists c1 c2 c3,
          TTLCache.set t0 key value c = (Ok tt, c1)
          /\ History.run ops c1 = (Ok tt, c2)
          /\ TTLCache.get t key c2 = (Ok None, c3)).
Proof.
  split.
  { intros c key now v c'.
    unfold TTLCache.get, OrderedDict.move_to_end.
    destruct (OrderedDict.contains key (TTLCache._cache c)); [|done].
    destruct (TTLCache._timestamps c !! key) as [t|]; [|done].
    destruct (now - t >? TTLCache.ttl c); [done|].
    destruct (OrderedDict.getitem key (TTLCache._cache c)) as [v0|] eqn:Hv0;
      [|done].
    rewrite getitem_snoc_absent by apply not_in_keys_delitem.
    intros [= <- <-]. split; [done|]. intros k. cbn.
    destruct (decide (k = key)) as [->|Hne].
    - rewrite getitem_snoc_absent by apply not_in_keys_delitem. done.
    - by apply getitem_to_end.
  }
  intros c key value t0 ops t Hc Hm Hlen Hops Hage.
  destruct (set_then_resident t0 key value c Hm)
    as (c1 & Hset & _ & Ht1 & Httl1 & Hm1).
  destruct (apply_ok (History.OpSet t0 key value) c Hc ltac:(lia) Hlen)
    as (r1 & c1' & Hap & Hc1 & _ & _ & Hl1 & _).
  cbn in Hap. rewrite Hset in Hap. injection Hap as _ <-.
  exists c1.
  assert (Hgen : forall c2,
    History.consistent c2 ->
    0 <= TTLCache.max_size c2 ->
    TTLCache.__len__ c2 <= TTLCache.max_size c2 ->
    TTLCache.ttl c2 = TTLCache.ttl c ->
    key ∉ History.resident c2 \/ TTLCache._timestamps c2 !! key = Some t0 ->
    exists c3 c4,
      History.run ops c2 = (Ok tt, c3)
      /\ TTLCache.get t key c3 = (Ok None, c4)).
  { clear Hset Ht1 Httl1 Hm1 Hc1 Hl1 c1 Hc Hlen.
    induction Hops as [|o ops Ho Hops IH]; intros c2 Hc2 Hm2 Hl2 Ht2 Hk2.
    - exists c2. cbn. destruct Hk2 as [Hout|Hts].
      + exists c2. split; [done|]. by apply get_absent.
      + eexists. split; [done|]. eapply get_expired; [|done|lia].
        apply Hc2. by rewrite Hts.
    - destruct o as [now k|]; [|done].
      destruct (apply_ok (History.OpGet now k) c2 Hc2 Hm2 Hl2)
        as (r & c3 & Hap & Hc3 & Hm3 & Ht3 & Hl3 & _).
      pose proof (get_timestamps now k c2 key Hc2) as Hk3.
      cbn in Hap. rewrite Hap in Hk3. cbn [snd] in Hk3.
      destruct (IH c3 Hc3) as (c4 & c5 & Hrun & Hget);
        [lia | done | congruence | |].
      + destruct Hk3 as [?|Hsame]; [by left|].
        destruct Hk2 as [Hout|Hts]; [|right; congruence].
        left. intros Hin. apply Hc3 in Hin. rewrite Hsame in Hin.
        apply Hc2 in Hin. done.
      + exists c4, c5. cbn. rewrite Hap. done. }
  destruct (Hgen c1) as (c2 & c3 & Hrun & Hget);
    [done | lia | done | done | by right |].
  by exists c2, c3.
Qed.

(** The loop of [set] with a negative capacity pops every entry and then
    raises. *)
Lemma evict_negative (m : Z) d ts :
  m < 0 ->
  TTLCache.evict m d ts
  = (Raise KeyError, ([], History.pop_all (OrderedDict.keys d) ts)).
Proof.
  intros Hm. revert ts. induction d as [|[k v] d IH]; intros ts.
  - cbn. unfold OrderedDict.len. cbn.
    destruct (Z.gtb_spec (Z.of_nat 0) m); [done | lia].
  - cbn [TTLCache.evict]. unfold OrderedDict.len.
    destruct (Z.gtb_spec (Z.of_nat (length ((k, v) :: d))) m); [|lia].
    by rewrite IH.
Qed.

(** The dictionary [set] hands to its eviction loop. *)
Lemma set_evict now key value c :
  TTLCache.set now key value c
  = let '(r, (d, ts)) :=
      TTLCache.evict (TTLCache.max_size c)
        (OrderedDict.delitem key (TTLCache._cache c) ++ [(key, value)])
        (<[key := now]> (TTLCache._timestamps c)) in
    (r, TTLCache.with_store c d ts).
Proof.
  unfold TTLCache.set, OrderedDict.move_to_end, OrderedDict.setitem.
  destruct (OrderedDict.contains key (TTLCache._cache c)) eqn:Hc.
  - apply contains_true in Hc.
    destruct (proj2 (getitem_is_Some key (TTLCache._cache c)) Hc)
      as [v0 ->].
    assert (OrderedDict.contains key
              (OrderedDict.delitem key (TTLCache._cache c) ++ [(key, v0)])
            = true) as ->.
    { apply contains_true. rewrite keys_app. apply elem_of_app. right.
      apply list_elem_of_here. }
    by rewrite replace_snoc by apply not_in_keys_delitem.
  - rewrite Hc. apply contains_false in Hc.
    by rewrite delitem_absent by done.
Qed.

(** X3. The edge capacities. With [max_size] 0 a write returns and stores
    nothing: the dictionary is empty afterwards and every read returns None.
    With a negative [max_size] a write empties the dictionary and raises
    KeyError. *)
Theorem set_at_edge_capacities c key value now :
  (TTLCache.max_size c = 0 ->
   exists c',
     TTLCache.set now key value c = (Ok tt, c')
     /\ TTLCache._cache c' = []
     /\ forall now' k, TTLCache.get now' k c' = (Ok None, c'))
  /\ (TTLCache.max_size c < 0 ->
      exists c',
        TTLCache.set now key value c = (Raise KeyError, c')
        /\ TTLCache._cache c' = []).
Proof.
  split.
  - intros Hm. eexists. split; [apply set_unfold; lia|].
    assert (Hempty : forall d : list (K * V),
              drop (History.overflow (TTLCache.max_size c) d) d = []).
    { intros d. unfold History.overflow. rewrite Hm. cbn.
      rewrite Nat.sub_0_r. apply drop_all. }
    cbn. rewrite Hempty. split; [done|]. intros now' k.
    apply get_absent. rewrite resident_with_store. apply not_elem_of_nil.
  - intros Hm. rewrite set_evict, evict_negative by done.
    eexists. split; done.
Qed.
End ttl_cache_more.

(** ** What one translation changes *)
Section progress_facts.
Context {U : Unicode} {cfg : Config} (E : Env).
Implicit Types (w : World) (text source_lang lang : str).

Lemma stats_le_refl s : stats_le s s.
Proof. unfold stats_le. lia. Qed.

Lemma stats_le_trans s1 s2 s3 :
  stats_le s1 s2 -> stats_le s2 s3 -> stats_le s1 s3.
Proof. unfold stats_le. lia. Qed.

Lemma progress_refl w : progress w w.
Proof. split; [apply stats_le_refl|]. split; [lia|]. done. Qed.

Lemma progress_trans w1 w2 w3 :
  progress w1 w2 -> progress w2 w3 -> progress w1 w3.
Proof.
  intros (Hs1 & Ht1 & Hc1) (Hs2 & Ht2 & Hc2).
  split; [by eapply stats_le_trans|]. split; [lia|].
  intros Hok. destruct (Hc1 Hok) as [Hok2 Hm2].
  destruct (Hc2 Hok2) as [Hok3 Hm3]. split; [done | congruence].
Qed.

(** A step that leaves the cache alone. *)
Lemma progress_same_cache w w' :
  stats_le (stats w) (stats w') ->
  (ticks w <= ticks w')%nat ->
  translation_cache w' = translation_cache w ->
  progress w w'.
Proof.
  intros Hs Ht Hc. split; [done|]. split; [done|].
  unfold cache_ok. rewrite Hc. done.
Qed.

(** A read or a write of the cache, as a step of the program. *)
Lemma progress_cache_op (o : History.op (str * str * str) str) w w' :
  translation_cache w' = (History.apply o (translation_cache w)).2 ->
  stats_le (stats w) (stats w') ->
  (ticks w <= ticks w')%nat ->
  progress w w'.
Proof.
  intros Hc Hs Ht. split; [done|]. split; [done|].
  intros (Hcons & Hm & Hl).
  destruct (apply_ok o _ Hcons Hm Hl) as (r & c' & Hap & Hc' & Hm' & _ & Hl' & _).
  rewrite Hap in Hc. cbn in Hc. unfold cache_ok. rewrite Hc.
  split; [|done]. split; [done|]. split; [lia | done].
Qed.

Lemma cache_get_progress key w :
  progress w (cache_get E key w).2.
Proof.
  apply (progress_cache_op (History.OpGet (clock E (ticks w)) key)).
  - unfold cache_get. cbn.
    destruct (TTLCache.get _ key (translation_cache w)) as [r c']. done.
  - unfold cache_get.
    destruct (TTLCache.get _ key (translation_cache w)) as [r c'].
    cbn. destruct (OrderedDict.contains _ _); apply stats_le_refl.
  - unfold cache_get.
    destruct (TTLCache.get _ key (translation_cache w)) as [r c'].
    cbn. destruct (OrderedDict.contains _ _); cbn; lia.
Qed.

Lemma attempt_progress b key text source_lang lang w :
  progress w (attempt E b key text source_lang lang w).2.
Proof.
  rewrite attempt_unfold.
  destruct (translator E b (ticks w) source_lang lang text) as [result|e].
  - cbn zeta.
    apply (progress_cache_op
             (History.OpSet
                (clock E (ticks (after_answer b source_lang lang text w)))
                key result)).
    + cbn. destruct (TTLCache.set _ key result _) as [[[]|e] c']; done.
    + destruct (TTLCache.set _ key result _) as [[[]|e] c']; cbn;
        unfold stats_le; cbn; lia.
    + destruct (TTLCache.set _ key result _) as [[[]|e] c']; cbn; lia.
  - apply progress_same_cache; cbn; [apply stats_le_refl | lia | done].
Qed.

Lemma backend_chain_progress key text source_lang lang w :
  progress w (backend_chain E key text source_lang lang w).2.
Proof.
  rewrite backend_chain_unfold.
  pose proof (attempt_progress MyMemory key text source_lang lang w) as H1.
  destruct (attempt E MyMemory key text source_lang lang w) as [[r1|e1] w1];
    [done|].
  eapply progress_trans; [exact H1|]. cbn [snd].
  pose proof (attempt_progress Google key text source_lang lang
                (emit (Log WARNING) w1)) as H2.
  assert (H1' : progress w1 (emit (Log WARNING) w1)).
  { apply progress_same_cache; cbn; [apply stats_le_refl | lia | done]. }
  destruct (attempt E Google key text source_lang lang (emit (Log WARNING) w1))
    as [[r2|e2] w2]; cbn [snd] in *.
  - by eapply progress_trans.
  - eapply progress_trans; [exact H1'|].
    eapply progress_trans; [exact H2|].
    apply progress_same_cache; cbn; [unfold stats_le; cbn; lia | lia | done].
Qed.

Lemma translate_text_progress text source_lang lang w :
  progress w (translate_text E text source_lang lang w).2.
Proof.
  unfold translate_text, bind.
  pose proof (cache_get_progress (strip text, source_lang, lang) w) as H0.
  destruct (cache_get E (strip text, source_lang, lang) w)
    as [[cached|e] w0]; cbn [snd] in H0; [|done].
  eapply progress_trans; [exact H0|].
  destruct cached as [[|c s]|].
  - apply backend_chain_progress.
  - apply progress_same_cache; cbn; [unfold stats_le; cbn; lia | lia | done].
  - apply backend_chain_progress.
Qed.

Lemma translate_all_progress text source_lang (langs : list str) w
    (translations : list (str * str)) :
  progress w (translate_all E text source_lang langs translations w).2.
Proof.
  revert w translations. induction langs as [|lang langs IH];
    intros w translations; [apply progress_refl|].
  pose proof (translate_text_progress text source_lang lang w) as H1.
  cbn [translate_all]. unfold bind at 1. unfold try_except, bind at 1.
  destruct (translate_text E text source_lang lang w) as [[r|e] w1];
    cbn [snd] in H1; cbn; (eapply progress_trans; [exact H1 | apply IH]).
Qed.
End progress_facts.

(** ** The shape of a run of on_message *)
Section on_message_shape.
Context {U : Unicode} {cfg : Config} (E : Env).
Implicit Types (w : World) (message : discord.Message).

(** What an allowing check found and left. *)
Lemma check_allowed (now author_id : Z) w :
  (check_rate_limit now author_id w).1.1 = true ->
  COOLDOWN_SECONDS <= now - last_accepted author_id w
  /\ Z.of_nat (length (within_hour now (recorded author_id w)))
     < MAX_TRANSLATIONS_PER_HOUR
  /\ recorded author_id (check_rate_limit now author_id w).2
     = within_hour now (recorded author_id w)
  /\ (forall u, u ≠ author_id ->
        recorded u (check_rate_limit now author_id w).2 = recorded u w)
  /\ stats (check_rate_limit now author_id w).2 = stats w.
Proof.
  rewrite check_rate_limit_unfold. cbn zeta.
  destruct (Z.ltb_spec (now - last_accepted author_id w) COOLDOWN_SECONDS);
    [done|].
  rewrite Z.geb_leb.
  destruct (Z.leb_spec MAX_TRANSLATIONS_PER_HOUR
              (Z.of_nat (length (within_hour now (recorded author_id w)))));
    [done|].
  intros _. split; [lia|]. split; [lia|]. unfold recorded. cbn.
  split; [by rewrite lookup_insert_eq|]. split; [|done].
  intros u Hu. by rewrite lookup_insert_ne.
Qed.

(** What a denying check left: one more block counted. *)
Lemma check_denied (now author_id : Z) w :
  (check_rate_limit now author_id w).1.1 = false ->
  stats (check_rate_limit now author_id w).2
  = incr_rate_limit_blocks (stats w).
Proof.
  rewrite check_rate_limit_unfold. cbn zeta.
  destruct (now - last_accepted author_id w <? COOLDOWN_SECONDS); [done|].
  by destruct (_ >=? MAX_TRANSLATIONS_PER_HOUR).
Qed.

(** The runs of on_message: the message is filtered out; or the check
    denies; or the detection fails; or the languages are translated and
    then there is nothing to send, or the embed cannot be built, or the
    embed is delivered. *)
Lemma on_message_shape message w :
  let checked :=
    check_rate_limit (clock E (ticks w)) (discord.id (discord.author message))
      (tick w) in
  let text := strip (discord.content message) in
  (should_translate message = false /\ on_message E message w = (Ok tt, w))
  \/ (should_translate message = true
      /\ checked.1.1 = false
      /\ on_message E message w = (Ok tt, checked.2))
  \/ (should_translate message = true
      /\ checked.1.1 = true
      /\ ((exists e, detect E text = Raise e)
          /\ on_message E message w = (Ok tt, checked.2)
          \/ exists detected translations w2,
               detect E text = Ok detected
               /\ translate_all E text (normalize_lang detected)
                    (langs_to_translate (normalize_lang detected)) []
                    checked.2
                  = (Ok translations, w2)
               /\ match translations with
                  | [] => on_message E message w = (Ok tt, w2)
                  | _ :: _ =>
                      match add_fields translations [] with
                      | Ok fields =>
                          on_message E message w
                          = deliver E message {| discord.fields := fields |}
                              translations w2
                      | Raise e => on_message E message w = (Raise e, w2)
                      end
                  end)).
Proof.
  cbn zeta. remember (on_message E message w) as out eqn:Hout.
  unfold on_message in Hout.
  destruct (should_translate message); cbn [negb] in Hout; [|by left].
  right.
  unfold bind at 1 in Hout. unfold time_time at 1 in Hout.
  unfold bind at 1 in Hout.
  destruct (check_rate_limit (clock E (ticks w))
              (discord.id (discord.author message)) (tick w))
    as [[can reason] w1].
  cbn [fst snd] in *.
  destruct can; cbn [negb] in Hout; [right|by left].
  split; [done|]. split; [done|].
  destruct (detect E (strip (discord.content message))) as [detected|e];
    [right|left; eauto].
  exists detected.
  destruct (translate_all_no_delivery E (strip (discord.content message))
              (normalize_lang detected)
              (langs_to_translate (normalize_lang detected)) w1 [])
    as (translations & w2 & Hrun & _).
  exists translations, w2. split; [done|]. split; [done|].
  destruct (langs_to_translate (normalize_lang detected)) as [|lang langs].
  { cbn in Hrun. injection Hrun as <- <-. done. }
  unfold bind in Hout. rewrite Hrun in Hout.
  destruct translations as [|t translations]; [done|].
  by destruct (add_fields (t :: translations) []).
Qed.
End on_message_shape.

(** ** What one message changes *)
Section on_message_facts.
Context {U : Unicode} {cfg : Config} (E : Env).
Implicit Types (w : World) (message : discord.Message).

Lemma deliver_progress message (embed : discord.Embed)
    (translations : list (str * str)) w :
  progress w (deliver E message embed translations w).2.
Proof.
  rewrite deliver_unfold. cbn zeta.
  destruct (reply E (ticks w) embed) as [[]|e].
  - rewrite update_rate_limit_unfold.
    apply progress_same_cache; cbn; [unfold stats_le; cbn; lia | lia | done].
  - destruct e; [| |destruct (discord.channel message)| |];
      apply progress_same_cache; cbn;
      first [done | lia | apply stats_le_refl | unfold stats_le; cbn; lia].
Qed.

Lemma check_progress (now author_id : Z) w :
  progress w (check_rate_limit now author_id w).2.
Proof.
  destruct (check_rate_limit_frame now author_id w) as (Hc & _ & Ht).
  apply progress_same_cache; [|lia|done].
  destruct (check_rate_limit now author_id w) as [[[] reason] w1] eqn:Hcheck.
  - pose proof (check_allowed now author_id w) as Ha.
    rewrite Hcheck in Ha. destruct Ha as (_ & _ & _ & _ & ->); [done|].
    apply stats_le_refl.
  - pose proof (check_denied now author_id w) as Hd.
    rewrite Hcheck in Hd. cbn in *. rewrite Hd by done.
    unfold stats_le; cbn; lia.
Qed.

Lemma on_message_progress message w :
  progress w (on_message E message w).2.
Proof.
  destruct (on_message_shape E message w)
    as [[_ ->]|[(_ & _ & ->)|(_ & _ & [[_ ->]|Hrun])]];
    try apply progress_refl.
  - eapply progress_trans; [|apply check_progress].
    apply progress_same_cache; cbn; [apply stats_le_refl | lia | done].
  - eapply progress_trans; [|apply check_progress].
    apply progress_same_cache; cbn; [apply stats_le_refl | lia | done].
  - destruct Hrun as (detected & translations & w2 & _ & Hall & Hend).
    assert (H2 : progress w w2).
    { eapply progress_trans;
        [apply progress_same_cache with (w' := tick w); cbn;
           [apply stats_le_refl | lia | done]|].
      eapply progress_trans; [apply check_progress|].
      pose proof (translate_all_progress E (strip (discord.content message))
                    (normalize_lang detected)
                    (langs_to_translate (normalize_lang detected))
                    (check_rate_limit (clock E (ticks w))
                       (discord.id (discord.author message)) (tick w)).2 [])
        as H. by rewrite Hall in H. }
    destruct translations as [|t translations]; [by rewrite Hend|].
    destruct (add_fields (t :: translations) []) as [fields|e];
      rewrite Hend; [|done].
    eapply progress_trans; [exact H2 | apply deliver_progress].
Qed.
End on_message_facts.

(** ** The fields of the embed *)
Section embed_fields.
Implicit Types (translations fields : list (str * str)).

Lemma clipped_value (translated : str) :
  clipped translated
    (if len translated >? 1000 then take 997 translated ++ py "..."
     else translated).
Proof.
  unfold clipped, len.
  destruct (Z.gtb_spec (Z.of_nat (length translated)) 1000) as [Hlong|Hshort].
  - split; [lia|]. intros _.
    assert (Hlen : length (take 997 translated) = 997%nat).
    { rewrite length_take. lia. }
    split; [rewrite length_app, Hlen; cbn; lia|].
    split.
    + rewrite take_app_le by lia. rewrite take_take. f_equal.
    + rewrite drop_app_length' by done. done.
  - split; [done | lia].
Qed.

Lemma tables_of_target (lang : str) :
  lang ∈ OrderedDict.keys TARGET_LANGUAGES ->
  exists flag name,
    OrderedDict.getitem lang LANG_FLAGS = Some flag
    /\ OrderedDict.getitem lang TARGET_LANGUAGES = Some name.
Proof.
  intros Hin. apply getitem_is_Some in Hin as [name Hname].
  exists (take 2 name), name. split; [|done].
  unfold TARGET_LANGUAGES, LANG_FLAGS in *. cbn in *.
  repeat case_decide; try done; by injection Hname as <-.
Qed.

Lemma tables_of_other (lang : str) :
  lang ∉ OrderedDict.keys TARGET_LANGUAGES ->
  OrderedDict.getitem lang TARGET_LANGUAGES = None.
Proof. intros. by apply getitem_None. Qed.

Lemma add_fields_ok translations fields :
  Forall (fun kv => kv.1 ∈ OrderedDict.keys TARGET_LANGUAGES) translations ->
  exists new,
    add_fields translations fields = Ok (fields ++ new)
    /\ Forall2 (fun kv f => clipped kv.2 f.2) translations new.
Proof.
  intros Hall. revert fields.
  induction Hall as [|[lang translated] translations Hin _ IH]; intros fields.
  - exists []. by rewrite app_nil_r.
  - destruct (tables_of_target lang Hin) as (flag & name & Hflag & Hname).
    cbn [add_fields]. rewrite Hflag, Hname. cbn zeta.
    destruct (IH (fields ++
                  [(flag ++ py " " ++ name,
                    if len translated >? 1000
                    then take 997 translated ++ py "..."
                    else translated)])) as (new & -> & Hnew).
    eexists (_ :: new). split; [by rewrite <- app_assoc|].
    constructor; [apply clipped_value | done].
Qed.

Lemma add_fields_KeyError translations fields :
  Exists (fun kv => kv.1 ∉ OrderedDict.keys TARGET_LANGUAGES) translations ->
  add_fields translations fields = Raise KeyError.
Proof.
  revert fields.
  induction translations as [|[lang translated] translations IH];
    intros fields Hex; [by apply Exists_nil in Hex|].
  cbn [add_fields].
  destruct (decide (lang ∈ OrderedDict.keys TARGET_LANGUAGES)) as [Hin|Hout].
  - destruct (tables_of_target lang Hin) as (flag & name & -> & ->).
    apply IH. apply Exists_cons in Hex as [Hex|Hex]; done.
  - rewrite (tables_of_other lang Hout).
    by destruct (OrderedDict.getitem lang LANG_FLAGS).
Qed.

(** X4. The loop that fills the embed (lines 253-258) makes one field for
    each translation, in order, when every language is one of
    TARGET_LANGUAGES: the value of a field is the translation itself when it
    has at most 1000 characters, and otherwise its first 997 characters
    followed by three dots, so that no value is longer than 1000 characters.
    When some language is not in the tables the loop raises KeyError. *)
Theorem add_fields_clips_long_translations translations :
  (Forall (fun kv => kv.1 ∈ OrderedDict.keys TARGET_LANGUAGES) translations ->
   exists fields,
     add_fields translations [] = Ok fields
     /\ Forall2 (fun kv f => clipped kv.2 f.2) translations fields
     /\ Forall (fun f => len f.2 <= 1000) fields)
  /\ (Exists (fun kv => kv.1 ∉ OrderedDict.keys TARGET_LANGUAGES) translations ->
      add_fields translations [] = Raise KeyError).
Proof.
  split; [|apply add_fields_KeyError].
  intros Hall. destruct (add_fields_ok translations [] Hall) as (new & -> & H).
  exists new. split; [done|]. split; [done|].
  clear Hall. induction H as [|kv f translations new [Hshort Hlong] _ IH];
    constructor; [|done].
  destruct (Z_le_gt_dec (len kv.2) 1000) as [Hle|Hgt].
  - by rewrite (Hshort Hle).
  - destruct (Hlong Hgt) as [-> _]. lia.
Qed.
End embed_fields.

(** ** The rate limiter, user by user *)
Section per_user.
Context {cfg : Config}.
Implicit Types (w : World).

(** The answer of the check depends on the state only through the two
    entries of the user. *)
Lemma check_answer_of_entries (now author_id : Z) w1 w2 :
  last_accepted author_id w1 = last_accepted author_id w2 ->
  recorded author_id w1 = recorded author_id w2 ->
  (check_rate_limit now author_id w1).1 = (check_rate_limit now author_id w2).1.
Proof.
  intros Hl Hr. rewrite !check_rate_limit_unfold. cbn zeta. rewrite Hl, Hr.
  destruct (now - last_accepted author_id w2 <? COOLDOWN_SECONDS); [done|].
  by destruct (_ >=? MAX_TRANSLATIONS_PER_HOUR).
Qed.

Lemma update_entries (now author_id u : Z) w :
  last_accepted u (update_rate_limit now author_id w)
  = (if decide (author_id = u) then now else last_accepted u w)
  /\ recorded u (update_rate_limit now author_id w)
     = (if decide (author_id = u) then recorded u w ++ [now]
        else recorded u w).
Proof.
  rewrite update_rate_limit_unfold. unfold last_accepted, recorded. cbn.
  rewrite !lookup_insert. by case_decide; subst.
Qed.

Lemma check_entries_of_others (now author_id u : Z) w :
  u ≠ author_id ->
  last_accepted u (check_rate_limit now author_id w).2 = last_accepted u w
  /\ recorded u (check_rate_limit now author_id w).2 = recorded u w.
Proof.
  intros Hu. rewrite check_rate_limit_unfold. cbn zeta.
  unfold last_accepted, recorded.
  destruct (now - _ <? COOLDOWN_SECONDS); cbn.
  - by rewrite lookup_insert_ne.
  - destruct (_ >=? MAX_TRANSLATIONS_PER_HOUR); cbn;
      by rewrite !lookup_insert_ne.
Qed.

(** X5. The rate limiter keeps the users apart: neither a commit nor a check
    of one user changes the answer of a check of another user. For the user
    who committed at time [t], every check at a time [t'] with
    [t' - t < COOLDOWN_SECONDS] is denied with the reason "cooldown". *)
Theorem rate_limit_is_per_user (t t' : Z) (author_id u : Z) w :
  (u ≠ author_id ->
   (check_rate_limit t' u (update_rate_limit t author_id w)).1
   = (check_rate_limit t' u w).1
   /\ (check_rate_limit t' u (check_rate_limit t author_id w).2).1
      = (check_rate_limit t' u w).1)
  /\ (t' - t < COOLDOWN_SECONDS ->
      (check_rate_limit t' author_id (update_rate_limit t author_id w)).1
      = (false, "cooldown"%string)).
Proof.
  split.
  - intros Hu. split; apply check_answer_of_entries.
    + destruct (update_entries t author_id u w) as [-> _].
      by rewrite decide_False.
    + destruct (update_entries t author_id u w) as [_ ->].
      by rewrite decide_False.
    + by apply check_entries_of_others.
    + by apply check_entries_of_others.
  - intros Hsoon. rewrite check_rate_limit_unfold. cbn zeta.
    destruct (update_entries t author_id author_id w) as [-> _].
    rewrite decide_True by done.
    destruct (Z.ltb_spec (t' - t) COOLDOWN_SECONDS); [done | lia].
Qed.
End per_user.

(** ** The figures shown *)
Section figures.

(** X6. The uptime shown by the status page and by the stats command
    (lines 59-60 and 275-276) is the elapsed time rounded down to the
    minute: the minutes are between 0 and 59, the hours and minutes are at
    most the elapsed seconds and less than a minute below them, and the
    hours are not negative when the elapsed time is not. *)
Theorem uptime_rounds_down_to_the_minute (elapsed : Z) :
  let '(h, m) := uptime elapsed in
  0 <= m < 60
  /\ 3600 * h + 60 * m <= elapsed < 3600 * h + 60 * m + 60
  /\ (0 <= elapsed -> 0 <= h).
Proof.
  unfold uptime, divmod.
  pose proof (Z.div_mod elapsed 3600 ltac:(lia)) as H1.
  pose proof (Z.mod_pos_bound elapsed 3600 ltac:(lia)) as H2.
  pose proof (Z.div_mod (elapsed mod 3600) 60 ltac:(lia)) as H3.
  pose proof (Z.mod_pos_bound (elapsed mod 3600) 60 ltac:(lia)) as H4.
  assert (0 <= elapsed mod 3600 / 60 < 60).
  { split; [apply Z.div_pos; lia | apply Z.div_lt_upper_bound; lia]. }
  split; [lia|]. split; [lia|].
  intros. apply Z.div_pos; lia.
Qed.
End figures.

(** ** The translations of a message *)
Section translations.
Context {U : Unicode} {cfg : Config} (E : Env).
Implicit Types (w : World) (message : discord.Message)
  (text source_lang lang : str).

Lemma keys_setitem_new {V : Type} (key : str) (value : V)
    (d : list (str * V)) :
  key ∉ OrderedDict.keys d ->
  OrderedDict.keys (OrderedDict.setitem key value d)
  = OrderedDict.keys d ++ [key].
Proof.
  intros Hk%contains_false. unfold OrderedDict.setitem. rewrite Hk.
  by rewrite keys_app.
Qed.

(** The languages of the translations gathered are languages asked for, in
    the order asked. *)
Lemma translate_all_keys text source_lang (langs : list str)
    (translations translations' : list (str * str)) w w' :
  NoDup langs ->
  (forall k, k ∈ langs -> k ∉ OrderedDict.keys translations) ->
  translate_all E text source_lang langs translations w
  = (Ok translations', w') ->
  exists l,
    OrderedDict.keys translations' = OrderedDict.keys translations ++ l
    /\ l `sublist_of` langs.
Proof.
  revert translations w. induction langs as [|lang langs IH];
    intros translations w Hnd Hnew Hrun.
  - cbn in Hrun. injection Hrun as <- <-. exists []. by rewrite app_nil_r.
  - apply NoDup_cons in Hnd as [Hlang Hnd].
    cbn [translate_all] in Hrun. unfold bind at 1 in Hrun.
    unfold try_except, bind at 1 in Hrun.
    destruct (translate_text E text source_lang lang w) as [[r|e] w1];
      cbn in Hrun.
    + apply IH in Hrun as (l & Hkeys & Hsub); [|done|].
      * exists (lang :: l). split; [|by constructor].
        rewrite Hkeys, keys_setitem_new, <- app_assoc; [done|].
        apply Hnew. left.
      * intros k Hk. rewrite keys_setitem_new by (apply Hnew; left).
        rewrite elem_of_app, list_elem_of_singleton.
        intros [Hin| ->]; [|done]. eapply Hnew; [|exact Hin]. by right.
    + apply IH in Hrun as (l & Hkeys & Hsub); [|done|].
      * exists l. split; [done | by constructor].
      * intros k Hk. apply Hnew. by right.
Qed.

Lemma langs_to_translate_targets source_lang lang :
  lang ∈ langs_to_translate source_lang ->
  lang ∈ OrderedDict.keys TARGET_LANGUAGES /\ lang ≠ source_lang.
Proof.
  unfold langs_to_translate.
  destruct (OrderedDict.contains source_lang TARGET_LANGUAGES) eqn:Hc;
    cbn [negb].
  - by intros Hin%elem_of_filter_ne.
  - intros Hin. split; [done|]. apply contains_false in Hc.
    intros ->. done.
Qed.

(** The translations of a message can all be shown. *)
Lemma translate_all_targets text source_lang
    (translations : list (str * str)) w w' :
  translate_all E text source_lang (langs_to_translate source_lang) [] w
  = (Ok translations, w') ->
  Forall (fun kv => kv.1 ∈ OrderedDict.keys TARGET_LANGUAGES) translations.
Proof.
  intros Hrun.
  apply translate_all_keys in Hrun as (l & Hkeys & Hsub);
    [|apply NoDup_langs_to_translate | intros k _; apply not_elem_of_nil].
  cbn in Hkeys. apply Forall_forall. intros kv Hin.
  assert (Hk : kv.1 ∈ l).
  { rewrite <- Hkeys. unfold OrderedDict.keys. by apply list_elem_of_fmap_2. }
  eapply langs_to_translate_targets, elem_of_sublist; [exact Hk | exact Hsub].
Qed.

(** X7. A run of on_message raises in two cases only. Either
    [message.reply] raised an exception that is neither discord.Forbidden
    nor discord.HTTPException, which the handler lets through. Or
    [message.reply] raised discord.Forbidden for a message whose channel has
    no name, and the warning of line 268 raises AttributeError. The filter,
    the rate limiter, a failed detection, failed backends and the building
    of the embed never make the handler raise. *)
Theorem on_message_raises_only_from_reply message w (e : exn) :
  (on_message E message w).1 = Raise e ->
  exists n embed,
    (reply E n embed = Raise e /\ e ≠ Forbidden /\ e ≠ HTTPException)
    \/ (reply E n embed = Raise Forbidden
        /\ discord.channel message = discord.DMChannel
        /\ e = AttributeError).
Proof.
  destruct (on_message_shape E message w)
    as [[_ ->]|[(_ & _ & ->)|(_ & _ & [[_ ->]|Hrun])]]; try done.
  destruct Hrun as (detected & translations & w2 & _ & Hall & Hend).
  pose proof (translate_all_targets _ _ _ _ _ Hall) as Htargets.
  destruct translations as [|t translations]; [by rewrite Hend|].
  destruct (add_fields_ok (t :: translations) [] Htargets)
    as (fields & Hfields & _).
  rewrite Hfields in Hend. rewrite Hend, deliver_unfold. cbn zeta.
  destruct (reply E (ticks w2) _) as [[]|e0] eqn:Hreply; [done|].
  destruct e0; [| |destruct (discord.channel message) eqn:Hchannel| |];
    cbn [fst]; try done; intros [= <-];
    exists (ticks w2); eexists;
    first [ left; split; [exact Hreply|]; by split
          | right; split; [exact Hreply|]; by split ].
Qed.
End translations.

(** ** A handler that is not interrupted

    The functions of the program section are the coroutines resumed at once
    at each of their suspensions. *)
Section uninterrupted.
Context {U : Unicode} {cfg : Config} (E : Env).
Implicit Types (w : World) (message : discord.Message)
  (text source_lang lang : str).

Lemma finish_then {A B} (s : Coroutine.Step A) (k : A -> Coroutine.Coro B) w :
  Coroutine.finish (Coroutine.then_ s k w).1 (Coroutine.then_ s k w).2
  = match Coroutine.finish s w with
    | (Ok a, w') => Coroutine.alone (k a) w'
    | (Raise e, w') => (Raise e, w')
    end.
Proof.
  revert w. induction s as [[a|e]|rest IH after]; intros w; cbn.
  - unfold Coroutine.alone. by destruct (k a w).
  - done.
  - apply IH.
Qed.

Lemma finish_catch {A} (s : Coroutine.Step A) (h : exn -> Coroutine.Coro A) w :
  Coroutine.finish (Coroutine.catch s h w).1 (Coroutine.catch s h w).2
  = match Coroutine.finish s w with
    | (Ok a, w') => (Ok a, w')
    | (Raise e, w') => Coroutine.alone (h e) w'
    end.
Proof.
  revert w. induction s as [[a|e]|rest IH after]; intros w; cbn.
  - done.
  - unfold Coroutine.alone. by destruct (h e w).
  - apply IH.
Qed.

Lemma alone_lift {A} (m : M A) w : Coroutine.alone (Coroutine.lift m) w = m w.
Proof. unfold Coroutine.alone, Coroutine.lift. by destruct (m w). Qed.

Lemma alone_await {A} (m : M A) w :
  Coroutine.alone (Coroutine.await m) w = m w.
Proof. unfold Coroutine.alone, Coroutine.await. by destruct (m w). Qed.

Lemma alone_bind {A B} (c : Coroutine.Coro A) (k : A -> Coroutine.Coro B)
    (m : M A) (n : A -> M B) :
  (forall w, Coroutine.alone c w = m w) ->
  (forall a w, Coroutine.alone (k a) w = n a w) ->
  forall w, Coroutine.alone (Coroutine.bind c k) w = bind m n w.
Proof.
  intros Hc Hk w. unfold bind. rewrite <- Hc.
  unfold Coroutine.alone at 1, Coroutine.bind.
  unfold Coroutine.alone at 1.
  destruct (c w) as [s w1].
  destruct (Coroutine.then_ s k w1) as [s' w'] eqn:Hthen.
  pose proof (finish_then s k w1) as H. rewrite Hthen in H. cbn [fst snd] in H.
  rewrite H. destruct (Coroutine.finish s w1) as [[a|e] w2]; [apply Hk|done].
Qed.

Lemma alone_try_except {A} (c : Coroutine.Coro A)
    (h : exn -> Coroutine.Coro A) (m : M A) (n : exn -> M A) :
  (forall w, Coroutine.alone c w = m w) ->
  (forall e w, Coroutine.alone (h e) w = n e w) ->
  forall w, Coroutine.alone (Coroutine.try_except c h) w = try_except m n w.
Proof.
  intros Hc Hh w. unfold try_except. rewrite <- Hc.
  unfold Coroutine.alone at 1, Coroutine.try_except.
  unfold Coroutine.alone at 1.
  destruct (c w) as [s w1].
  destruct (Coroutine.catch s h w1) as [s' w'] eqn:Hcatch.
  pose proof (finish_catch s h w1) as H. rewrite Hcatch in H.
  cbn [fst snd] in H.
  rewrite H. destruct (Coroutine.finish s w1) as [[a|e] w2]; [done|apply Hh].
Qed.

Ltac uninterrupted :=
  repeat first
    [ apply alone_lift
    | apply alone_await
    | apply alone_bind; intros
    | apply alone_try_except; intros ].

Lemma attempt_alone (b : Backend) (key : str * str * str) text source_lang
    lang w :
  Coroutine.alone (Coroutine.attempt E b key text source_lang lang) w
  = attempt E b key text source_lang lang w.
Proof. revert w. unfold Coroutine.attempt, attempt. uninterrupted. Qed.

Lemma backend_chain_alone (key : str * str * str) text source_lang lang w :
  Coroutine.alone (Coroutine.backend_chain E key text source_lang lang) w
  = backend_chain E key text source_lang lang w.
Proof.
  revert w. unfold Coroutine.backend_chain, backend_chain.
  apply alone_try_except; [intros; apply attempt_alone|intros].
  apply alone_bind; [apply alone_lift|intros].
  apply alone_try_except; [intros; apply attempt_alone|intros].
  uninterrupted.
Qed.

Lemma translate_text_alone text source_lang lang w :
  Coroutine.alone (Coroutine.translate_text E text source_lang lang) w
  = translate_text E text source_lang lang w.
Proof.
  revert w. unfold Coroutine.translate_text, translate_text. cbn zeta.
  apply alone_bind; [apply alone_lift|intros cached w].
  destruct cached as [[|c s]|]; [apply backend_chain_alone| |
                                 apply backend_chain_alone].
  revert w. uninterrupted.
Qed.

Lemma translate_all_alone text source_lang (langs : list str)
    (translations : list (str * str)) w :
  Coroutine.alone
    (Coroutine.translate_all E text source_lang langs translations) w
  = translate_all E text source_lang langs translations w.
Proof.
  revert translations w.
  induction langs as [|lang langs IH]; intros translations w.
  - apply alone_lift.
  - revert w. cbn [Coroutine.translate_all translate_all].
    apply alone_bind; [|intros; apply IH].
    apply alone_try_except; [|intros; apply alone_lift].
    apply alone_bind; [intros; apply translate_text_alone|].
    intros; apply alone_lift.
Qed.

Lemma deliver_alone message (embed : discord.Embed)
    (translations : list (str * str)) w :
  Coroutine.alone (Coroutine.deliver E message embed translations) w
  = deliver E message embed translations w.
Proof.
  revert w. unfold Coroutine.deliver, deliver.
  apply alone_try_except; [uninterrupted|].
  intros e. destruct e; uninterrupted.
Qed.

(** A run of the handler that no other handler interrupts is a run of
    [on_message]. *)
Lemma on_message_alone message w :
  Coroutine.alone (Coroutine.on_message E message) w = on_message E message w.
Proof.
  revert w. unfold Coroutine.on_message, on_message.
  destruct (negb (should_translate message)); [apply alone_lift|].
  apply alone_bind; [apply alone_lift|intros now].
  apply alone_bind; [apply alone_lift|intros can].
  destruct (negb can); [apply alone_lift|]. cbn zeta.
  destruct (detect E (strip (discord.content message))) as [detected|e];
    [|apply alone_lift].
  destruct (langs_to_translate (normalize_lang detected)) as [|lang langs];
    [apply alone_lift|].
  apply alone_bind; [intros; apply translate_all_alone|].
  intros [|t translations]; [apply alone_lift|].
  destruct (add_fields (t :: translations) []) as [fields|e];
    [|apply alone_lift].
  intros w. apply deliver_alone.
Qed.
End uninterrupted.

(** ** What a message commits to the rate limiter *)
Section commitments.
Context {U : Unicode} {cfg : Config} (E : Env).
Implicit Types (w : World) (message : discord.Message)
  (text source_lang lang : str).

Lemma translate_all_run text source_lang (langs : list str)
    (translations translations' : list (str * str)) w w' :
  translate_all E text source_lang langs translations w
  = (Ok translations', w') ->
  no_delivery w w' /\ progress w w'.
Proof.
  intros Hrun.
  destruct (translate_all_no_delivery E text source_lang langs w translations)
    as (tr & w'' & Hrun' & Hnd).
  pose proof (translate_all_progress E text source_lang langs w translations)
    as Hp.
  rewrite Hrun in Hrun', Hp. by injection Hrun' as <- <-.
Qed.


(** What the delivery leaves in the rate limiter. *)
Lemma deliver_commit message (embed : discord.Embed)
    (translations : list (str * str)) w :
  let author_id := discord.id (discord.author message) in
  let w' := (deliver E message embed translations w).2 in
  (author_cooldowns w' = author_cooldowns w
   /\ author_translation_count w' = author_translation_count w)
  \/ (last_accepted author_id w' = clock E (S (ticks w))
      /\ recorded author_id w'
         = recorded author_id w ++ [clock E (S (ticks w))]
      /\ forall u, u ≠ author_id ->
           last_accepted u w' = last_accepted u w
           /\ recorded u w' = recorded u w).
Proof.
  cbn zeta. rewrite deliver_unfold. cbn zeta.
  destruct (reply E (ticks w) embed) as [[]|e].
  - right. cbn [snd].
    set (w1 := tick (tick (emit (Reply embed) w))).
    assert (Hent : forall u,
      last_accepted u (update_rate_limit (clock E (S (ticks w)))
                         (discord.id (discord.author message)) w1)
      = (if decide (discord.id (discord.author message) = u)
         then clock E (S (ticks w)) else last_accepted u w)
      /\ recorded u (update_rate_limit (clock E (S (ticks w)))
                       (discord.id (discord.author message)) w1)
         = (if decide (discord.id (discord.author message) = u)
            then recorded u w ++ [clock E (S (ticks w))]
            else recorded u w)).
    { intros u. apply (update_entries _ _ u w1). }
    split; [|split].
    + destruct (Hent (discord.id (discord.author message))) as [H1 _].
      rewrite decide_True in H1 by done. exact H1.
    + destruct (Hent (discord.id (discord.author message))) as [_ H2].
      rewrite decide_True in H2 by done. exact H2.
    + intros u Hu. destruct (Hent u) as [H1 H2].
      rewrite decide_False in H1 by (intros Heq; by apply Hu).
      rewrite decide_False in H2 by (intros Heq; by apply Hu).
      by split.
  - left. destruct e; try done. by destruct (discord.channel message).
Qed.

(** A run of on_message either commits nothing to the rate limiter, or the
    check allowed the author and the delivery recorded one reading of the
    clock, taken after the check, for the author alone. *)
Lemma on_message_commit message w :
  let author_id := discord.id (discord.author message) in
  let now := clock E (ticks w) in
  let w' := (on_message E message w).2 in
  ((forall u, last_accepted u w' = last_accepted u w)
   /\ (forall u, recorded u w' `sublist_of` recorded u w))
  \/ (COOLDOWN_SECONDS <= now - last_accepted author_id w
      /\ Z.of_nat (length (within_hour now (recorded author_id w)))
         < MAX_TRANSLATIONS_PER_HOUR
      /\ exists n,
           (ticks w < n)%nat
           /\ last_accepted author_id w' = clock E n
           /\ recorded author_id w'
              = within_hour now (recorded author_id w) ++ [clock E n]
           /\ forall u, u ≠ author_id ->
                last_accepted u w' = last_accepted u w
                /\ recorded u w' = recorded u w).
Proof.
  cbn zeta.
  pose proof (check_no_commit (clock E (ticks w))
                (discord.id (discord.author message)) (tick w)) as Hcheck.
  assert (Hc : no_commit w
                 (check_rate_limit (clock E (ticks w))
                    (discord.id (discord.author message)) (tick w)).2)
    by exact Hcheck.
  clear Hcheck.
  destruct (on_message_shape E message w)
    as [[_ ->]|[(_ & _ & ->)|(_ & Hcan & [[_ ->]|Hrun])]]; cbn [snd].
  - left. split; [done|]. intros u. done.
  - left. destruct Hc as (Hl & Hr & _). by split.
  - left. destruct Hc as (Hl & Hr & _). by split.
  - destruct Hrun as (detected & translations & w2 & _ & Hall & Hend).
    destruct (translate_all_run _ _ _ _ _ _ _ Hall)
      as [(Hcd & Hcount & _) (_ & Hticks & _)].
    destruct (check_rate_limit_frame (clock E (ticks w))
                (discord.id (discord.author message)) (tick w))
      as (_ & _ & Ht).
    cbn zeta in Ht. rewrite Ht in Hticks. cbn in Hticks.
    assert (Hl2 : forall u, last_accepted u w2 = last_accepted u w).
    { intros u. unfold last_accepted at 1. rewrite Hcd.
      destruct Hc as (Hl & _). apply Hl. }
    assert (Hr2 : forall u,
      recorded u w2
      = recorded u (check_rate_limit (clock E (ticks w))
                      (discord.id (discord.author message)) (tick w)).2).
    { intros u. unfold recorded at 1. by rewrite Hcount. }
    assert (Hquiet : (forall u, last_accepted u w2 = last_accepted u w)
                     /\ (forall u, recorded u w2 `sublist_of` recorded u w)).
    { split; [done|]. intros u. rewrite Hr2. destruct Hc as (_ & Hr & _).
      apply Hr. }
    destruct translations as [|t translations]; [left; by rewrite Hend|].
    destruct (add_fields (t :: translations) []) as [fields|e];
      rewrite Hend; [|by left].
    destruct (deliver_commit message {| discord.fields := fields |}
                (t :: translations) w2) as [[Hsame1 Hsame2]|(H1 & H2 & H3)].
    + left. split.
      * intros u. unfold last_accepted at 1. rewrite Hsame1. apply Hl2.
      * intros u. unfold recorded at 1. rewrite Hsame2.
        destruct Hquiet as [_ Hq]. apply Hq.
    + right.
      destruct (check_allowed (clock E (ticks w))
                  (discord.id (discord.author message)) (tick w) Hcan)
        as (Hcool & Hquota & Hpruned & Hothers & _).
      split; [exact Hcool|]. split; [exact Hquota|].
      exists (S (ticks w2)). split; [lia|]. split; [exact H1|].
      split; [by rewrite H2, Hr2, Hpruned|].
      intros u Hu. destruct (H3 u Hu) as [-> ->].
      split; [apply Hl2|]. rewrite Hr2. by apply Hothers.
Qed.

(** X10. The translation cache stays sound: a cache whose two dictionaries
    hold the same keys, without duplicates, and that is within its capacity
    is still so, with the same capacity, after a run of on_message and
    after a call of translate_text, whatever the collaborators answer. *)
Theorem cache_stays_within_capacity w :
  cache_ok w ->
  (forall message,
     cache_ok (on_message E message w).2
     /\ TTLCache.max_size (translation_cache (on_message E message w).2)
        = TTLCache.max_size (translation_cache w))
  /\ (forall text source_lang lang,
        cache_ok (translate_text E text source_lang lang w).2
        /\ TTLCache.max_size
             (translation_cache (translate_text E text source_lang lang w).2)
           = TTLCache.max_size (translation_cache w)).
Proof.
  intros Hok. split.
  - intros message.
    destruct (on_message_progress E message w) as (_ & _ & Hc). by apply Hc.
  - intros text source_lang lang.
    destruct (translate_text_progress E text source_lang lang w)
      as (_ & _ & Hc).
    by apply Hc.
Qed.

End commitments.

(** ** The rate limiter and interleaved handlers

    The check of line 222 and the commit of line 262 are in one step of the
    handler only when nothing is awaited between them. *)


(** X9. The quota holds for a handler that is not interrupted, and not
    across handlers that are interleaved. When a user has at most
    MAX_TRANSLATIONS_PER_HOUR recorded timestamps before a run of
    on_message that no other handler interrupts, the user has at most as
    many after it. When the event loop starts the handlers of two messages
    of one user before it resumes either, both pass the check and both
    append: under the default configuration, for a user with twenty-nine
    recorded timestamps of the last hour, two copies of a message handled
    one after the other leave thirty timestamps and one block, and the
    same two copies started together leave thirty-one, one more than the
    quota of thirty. *)
Theorem record_stays_within_quota :
  (forall (U : Unicode) (cfg : Config) (E : Env) (message : discord.Message)
          (w : World) (u : Z),
     Z.of_nat (length (recorded u w)) <= MAX_TRANSLATIONS_PER_HOUR ->
     Z.of_nat
       (length
          (recorded u (Coroutine.alone (Coroutine.on_message E message) w).2))
     <= MAX_TRANSLATIONS_PER_HOUR)
  /\ (let loop :=
        @Coroutine.run ascii_tables default_config env_google_only in
      let apart :=
        loop (one_after_the_other some_message) (idle world_below_quota) in
      let together :=
        loop (two_at_once some_message) (idle world_below_quota) in
      @MAX_TRANSLATIONS_PER_HOUR default_config = 30
      /\ discord.id (discord.author some_message) = 7
      /\ length (recorded 7 world_below_quota) = 29%nat
      /\ within_hour (clock env_google_only 0) (recorded 7 world_below_quota)
         = recorded 7 world_below_quota
      /\ Coroutine.tasks apart
         = [Coroutine.Done (Ok tt); Coroutine.Done (Ok tt)]
      /\ length (recorded 7 (Coroutine.world apart)) = 30%nat
      /\ rate_limit_blocks (stats (Coroutine.world apart)) = 1
      /\ Coroutine.tasks together
         = [Coroutine.Done (Ok tt); Coroutine.Done (Ok tt)]
      /\ length (recorded 7 (Coroutine.world together)) = 31%nat
      /\ drop 29 (recorded 7 (Coroutine.world together)) = [1010; 1015]
      /\ rate_limit_blocks (stats (Coroutine.world together)) = 0).
Proof.
  split.
  - intros U cfg E message w u Hbound. rewrite on_message_alone.
    destruct (on_message_commit E message w)
      as [[_ Hr]|(_ & Hquota & n & _ & _ & Hrec & Hothers)].
    + pose proof (sublist_length _ _ (Hr u)). lia.
    + destruct (decide (u = discord.id (discord.author message))) as [->|Hu].
      * rewrite Hrec, length_app. cbn. lia.
      * destruct (Hothers u Hu) as [_ ->]. done.
  - cbn zeta. repeat split; vm_compute; reflexivity.
Qed.

(** ** The counters *)
Section counters.
Context {U : Unicode} {cfg : Config} (E : Env).
Implicit Types (w : World) (message : discord.Message)
  (text source_lang lang : str).

(** On a sound cache the write of an answer succeeds: an attempt counts one
    call when the backend answers and nothing when it raises. *)
Lemma attempt_counted b (key : str * str * str) text source_lang lang w :
  cache_ok w ->
  match (attempt E b key text source_lang lang w).1 with
  | Ok _ =>
      stats (attempt E b key text source_lang lang w).2
      = incr_api_calls (stats w)
  | Raise _ => stats (attempt E b key text source_lang lang w).2 = stats w
  end.
Proof.
  intros (Hcons & Hm & _). rewrite attempt_unfold.
  destruct (translator E b (ticks w) source_lang lang text) as [result|e];
    [|done].
  cbn zeta.
  destruct (set_resident
              (clock E (ticks (after_answer b source_lang lang text w)))
              key result (translation_cache w) Hm Hcons) as (c' & Hset & _).
  change (translation_cache (after_answer b source_lang lang text w))
    with (translation_cache w).
  by rewrite Hset.
Qed.

Lemma backend_chain_counted (key : str * str * str) text source_lang lang w :
  cache_ok w ->
  match (backend_chain E key text source_lang lang w).1 with
  | Ok _ =>
      stats (backend_chain E key text source_lang lang w).2
      = incr_api_calls (stats w)
  | Raise _ =>
      stats (backend_chain E key text source_lang lang w).2
      = incr_errors (stats w)
  end.
Proof.
  intros Hok. rewrite backend_chain_unfold.
  pose proof (attempt_counted MyMemory key text source_lang lang w Hok) as H1.
  pose proof (attempt_progress E MyMemory key text source_lang lang w)
    as (_ & _ & Hc1).
  destruct (attempt E MyMemory key text source_lang lang w) as [[r1|e1] w1];
    cbn [fst snd] in *; [done|].
  assert (Hok1 : cache_ok (emit (Log WARNING) w1)) by by apply Hc1.
  pose proof (attempt_counted Google key text source_lang lang
                (emit (Log WARNING) w1) Hok1) as H2.
  destruct (attempt E Google key text source_lang lang (emit (Log WARNING) w1))
    as [[r2|e2] w2]; cbn [fst snd] in *.
  - rewrite H2. cbn. by rewrite H1.
  - cbn. rewrite H2. cbn. by rewrite H1.
Qed.

(** On a sound cache a translation counts in exactly one counter: a hit or
    a call when it returns, an error when it raises. *)
Lemma translate_text_counted text source_lang lang w :
  cache_ok w ->
  match (translate_text E text source_lang lang w).1 with
  | Ok _ => counted 1 0 w (translate_text E text source_lang lang w).2
  | Raise _ => counted 0 1 w (translate_text E text source_lang lang w).2
  end.
Proof.
  intros Hok. unfold translate_text, bind.
  pose proof (cache_get_progress E (strip text, source_lang, lang) w)
    as (_ & _ & Hc0).
  destruct (get_resident (clock E (ticks w)) (strip text, source_lang, lang)
              (translation_cache w) (proj1 Hok)) as (r & c' & Hget & _).
  assert (Hrun : exists w0,
    cache_get E (strip text, source_lang, lang) w = (Ok r, w0)).
  { unfold cache_get. rewrite Hget. eauto. }
  destruct Hrun as [w0 Hrun]. rewrite Hrun in Hc0 |- *. cbn [snd] in Hc0.
  destruct (cache_get_frame E _ _ _ _ Hrun) as (Hs & _).
  assert (Hok0 : cache_ok w0) by by apply Hc0.
  assert (Hchain :
    match (backend_chain E (strip text, source_lang, lang) text source_lang
             lang w0).1 with
    | Ok _ =>
        counted 1 0 w
          (backend_chain E (strip text, source_lang, lang) text source_lang
             lang w0).2
    | Raise _ =>
        counted 0 1 w
          (backend_chain E (strip text, source_lang, lang) text source_lang
             lang w0).2
    end).
  { pose proof (backend_chain_counted (strip text, source_lang, lang) text
                  source_lang lang w0 Hok0) as H.
    destruct (backend_chain E _ text source_lang lang w0) as [[v|e] w1];
      cbn [fst snd] in *; unfold counted; rewrite H, Hs; cbn; lia. }
  destruct r as [[|c s]|]; [exact Hchain | | exact Hchain].
  unfold counted. cbn. rewrite Hs. lia.
Qed.

(** The loop over the languages on a sound cache: every language is
    counted once. *)
Lemma translate_all_counted text source_lang (langs : list str)
    (translations : list (str * str)) w :
  cache_ok w ->
  NoDup langs ->
  (forall k, k ∈ langs -> k ∉ OrderedDict.keys translations) ->
  exists translations' w' l,
    translate_all E text source_lang langs translations w
    = (Ok translations', w')
    /\ OrderedDict.keys translations' = OrderedDict.keys translations ++ l
    /\ l `sublist_of` langs
    /\ counted (Z.of_nat (length l))
         (Z.of_nat (length langs) - Z.of_nat (length l)) w w'.
Proof.
  revert translations w. induction langs as [|lang langs IH];
    intros translations w Hok Hnd Hnew.
  - exists translations, w, []. rewrite app_nil_r.
    split; [done|]. split; [done|]. split; [done|]. unfold counted; cbn; lia.
  - apply NoDup_cons in Hnd as [Hlang Hnd].
    pose proof (translate_text_counted text source_lang lang w Hok) as H1.
    pose proof (translate_text_progress E text source_lang lang w)
      as (_ & _ & Hc1).
    cbn [translate_all]. unfold bind at 1. unfold try_except, bind at 1.
    destruct (translate_text E text source_lang lang w) as [[r|e] w1];
      cbn [fst snd] in *.
    + destruct (IH (OrderedDict.setitem lang r translations) w1)
        as (tr & w' & l & Hrun & Hkeys & Hsub & Hcount);
        [by apply Hc1 | done | |].
      { intros k Hk. rewrite keys_setitem_new by (apply Hnew; left).
        rewrite elem_of_app, list_elem_of_singleton.
        intros [Hin| ->]; [|done]. eapply Hnew; [|exact Hin]. by right. }
      exists tr, w', (lang :: l). cbn. rewrite Hrun. split; [done|].
      split.
      { rewrite Hkeys, keys_setitem_new, <- app_assoc; [done|].
        apply Hnew. left. }
      split; [by constructor|].
      unfold counted in *. cbn [length]. lia.
    + destruct (IH translations w1)
        as (tr & w' & l & Hrun & Hkeys & Hsub & Hcount);
        [by apply Hc1 | done | |].
      { intros k Hk. apply Hnew. by right. }
      exists tr, w', l. cbn. rewrite Hrun. split; [done|]. split; [done|].
      split; [by constructor|].
      unfold counted in *. cbn [length]. lia.
Qed.

(** The counters after the loop that gathered [translations]. *)
Lemma translate_all_run_counted text source_lang (langs : list str)
    (translations : list (str * str)) w w' :
  cache_ok w ->
  NoDup langs ->
  translate_all E text source_lang langs [] w = (Ok translations, w') ->
  counted (Z.of_nat (length translations))
    (Z.of_nat (length langs) - Z.of_nat (length translations)) w w'.
Proof.
  intros Hok Hnd Hall.
  destruct (translate_all_counted text source_lang langs [] w Hok Hnd)
    as (tr & w1 & l & Hrun & Hkeys & _ & Hcount).
  { intros k _. apply not_elem_of_nil. }
  rewrite Hall in Hrun. injection Hrun as <- <-. cbn in Hkeys.
  assert (Hlen : length translations = length l).
  { rewrite <- Hkeys. unfold OrderedDict.keys. by rewrite length_fmap. }
  by rewrite Hlen.
Qed.

(** X12. On a sound cache the loop over the languages of a message
    (lines 241-246) returns, and accounts for every language exactly once:
    the languages translated are among the languages asked for, in the
    order asked; cache_hits and api_calls grow together by the number of
    translations gathered and errors grows by the number of languages
    skipped. *)
Theorem translate_all_accounts_for_every_language text source_lang
    (langs : list str) w :
  cache_ok w ->
  NoDup langs ->
  exists translations w',
    translate_all E text source_lang langs [] w = (Ok translations, w')
    /\ OrderedDict.keys translations `sublist_of` langs
    /\ counted (Z.of_nat (length translations))
         (Z.of_nat (length langs) - Z.of_nat (length translations)) w w'.
Proof.
  intros Hok Hnd.
  destruct (translate_all_counted text source_lang langs [] w Hok Hnd)
    as (tr & w' & l & Hrun & Hkeys & Hsub & Hcount).
  { intros k _. apply not_elem_of_nil. }
  exists tr, w'. cbn in Hkeys. split; [done|]. split; [by rewrite Hkeys|].
  assert (Hlen : length tr = length l).
  { rewrite <- Hkeys. unfold OrderedDict.keys. by rewrite length_fmap. }
  by rewrite Hlen.
Qed.

Lemma deliver_stats message (embed : discord.Embed)
    (translations : list (str * str)) w :
  let s' := stats (deliver E message embed translations w).2 in
  s' = add_translations_total (Z.of_nat (length translations)) (stats w)
  \/ s' = stats w \/ s' = incr_errors (stats w).
Proof.
  cbn zeta. rewrite deliver_unfold. cbn zeta.
  destruct (reply E (ticks w) embed) as [[]|e].
  - left. by rewrite update_rate_limit_unfold.
  - right. destruct e; [| |destruct (discord.channel message)| |]; cbn; auto.
Qed.

(** X13. The counters of the statistics stay sound: from a state with a
    sound cache where no counter is negative and translations_total is at
    most cache_hits + api_calls, a run of on_message leads to such a state
    again, and no counter goes down. So the share of the cache hits that
    the stats command shows (lines 278-279) is a share: the hits are at
    most the total it divides by, which is at least one. *)
Theorem counters_stay_sound message w :
  cache_ok w ->
  stats_ok (stats w) ->
  let s' := stats (on_message E message w).2 in
  stats_ok s'
  /\ stats_le (stats w) s'
  /\ 1 <= api_total s'
  /\ 0 <= cache_hits s' <= api_total s'.
Proof.
  intros Hok Hs. cbn zeta.
  assert (Hgoal : stats_ok (stats (on_message E message w).2)).
  { pose proof (check_progress (clock E (ticks w))
                  (discord.id (discord.author message)) (tick w))
      as (_ & _ & Hcheck).
    assert (Hok1 : cache_ok (check_rate_limit (clock E (ticks w))
                     (discord.id (discord.author message)) (tick w)).2)
      by by apply Hcheck.
    assert (Hdenied :
      stats_ok (incr_rate_limit_blocks (stats w))).
    { unfold stats_ok in *. cbn. lia. }
    destruct (on_message_shape E message w)
      as [[_ ->]|[(_ & Hcan & ->)|(_ & Hcan & [[_ ->]|Hrun])]]; cbn [snd].
    - done.
    - by rewrite (check_denied _ _ (tick w) Hcan).
    - destruct (check_allowed _ _ (tick w) Hcan) as (_ & _ & _ & _ & ->).
      done.
    - destruct Hrun as (detected & translations & w2 & _ & Hall & Hend).
      destruct (check_allowed _ _ (tick w) Hcan) as (_ & _ & _ & _ & Hst).
      pose proof (translate_all_run_counted _ _ _ _ _ _ Hok1
                    (NoDup_langs_to_translate _) Hall) as Hcount.
      assert (Hs2 : stats_ok (stats w2)
                    /\ translations_total (stats w2)
                         + Z.of_nat (length translations)
                       <= cache_hits (stats w2) + api_calls (stats w2)).
      { destruct (translate_all_run E _ _ _ _ _ _ _ Hall)
          as [_ (Hle & _)].
        unfold counted, stats_ok, stats_le in *. rewrite Hst in Hcount, Hle.
        change (stats (tick w)) with (stats w) in Hcount, Hle. lia. }
      destruct Hs2 as [Hs2 Hsum].
      destruct translations as [|t translations]; [by rewrite Hend|].
      destruct (add_fields (t :: translations) []) as [fields|e];
        rewrite Hend; [|done].
      destruct (deliver_stats message {| discord.fields := fields |}
                  (t :: translations) w2) as [->|[->| ->]].
      + unfold stats_ok in *. cbn in *. lia.
      + done.
      + unfold stats_ok in *. cbn in *. lia. }
  split; [exact Hgoal|]. split; [apply on_message_progress|].
  unfold api_total, stats_ok in *.
  destruct (Z.eqb_spec (cache_hits (stats (on_message E message w).2)
                        + api_calls (stats (on_message E message w).2)) 0);
    lia.
Qed.
End counters.

(** ** A translation is served from the cache the next time *)
Section round_trip.
Context {U : Unicode} {cfg : Config} (E : Env).
Implicit Types (w : World) (text source_lang lang : str).






End round_trip.

(** ** What a message asks of the outside *)
Section outside.
Context {U : Unicode} {cfg : Config} (E : Env).
Implicit Types (w : World) (message : discord.Message)
  (text source_lang lang : str).

Lemma asks_refl text source_lang (langs : list str) w :
  asks text source_lang langs w w.
Proof. exists []. by rewrite app_nil_r. Qed.

Lemma asks_trans text source_lang (langs : list str) w1 w2 w3 :
  asks text source_lang langs w1 w2 ->
  asks text source_lang langs w2 w3 ->
  asks text source_lang langs w1 w3.
Proof.
  intros (l1 & Ht1 & Hl1) (l2 & Ht2 & Hl2). exists (l1 ++ l2).
  split; [by rewrite Ht2, Ht1, app_assoc | by apply Forall_app].
Qed.

Lemma asks_step text source_lang (langs : list str) w w' (l : list event) :
  trace w' = trace w ++ l ->
  Forall (asks_for text source_lang langs) l ->
  asks text source_lang langs w w'.
Proof. intros. by exists l. Qed.

Lemma asks_more text source_lang (langs langs' : list str) w w' :
  langs ⊆ langs' ->
  asks text source_lang langs w w' ->
  asks text source_lang langs' w w'.
Proof.
  intros Hsub (l & Ht & Hl). exists l. split; [done|].
  eapply Forall_impl; [exact Hl|]. intros [b s t x|level|embed]; cbn; [|done..].
  intros (? & ? & ?). auto.
Qed.

Lemma attempt_asks b (key : str * str * str) text source_lang lang w :
  asks text source_lang [lang] w (attempt E b key text source_lang lang w).2.
Proof.
  apply (asks_step _ _ _ _ _ [Translate b source_lang lang text]).
  - rewrite attempt_unfold.
    destruct (translator E b (ticks w) source_lang lang text) as [result|e];
      [|done].
    cbn zeta. by destruct (TTLCache.set _ _ _ _) as [[[]|e] c'].
  - repeat constructor.
Qed.

Lemma backend_chain_asks (key : str * str * str) text source_lang lang w :
  asks text source_lang [lang] w
    (backend_chain E key text source_lang lang w).2.
Proof.
  rewrite backend_chain_unfold.
  pose proof (attempt_asks MyMemory key text source_lang lang w) as H1.
  destruct (attempt E MyMemory key text source_lang lang w) as [[r1|e1] w1];
    [done|].
  eapply asks_trans; [exact H1|]. cbn [snd].
  eapply asks_trans;
    [by apply (asks_step _ _ _ w1 (emit (Log WARNING) w1) [Log WARNING]);
       [|repeat constructor]|].
  pose proof (attempt_asks Google key text source_lang lang
                (emit (Log WARNING) w1)) as H2.
  destruct (attempt E Google key text source_lang lang (emit (Log WARNING) w1))
    as [[r2|e2] w2]; cbn [snd] in *; [done|].
  eapply asks_trans; [exact H2|].
  by apply (asks_step _ _ _ _ _ [Log ERROR]); [|repeat constructor].
Qed.

Lemma translate_text_asks text source_lang lang w :
  asks text source_lang [lang] w (translate_text E text source_lang lang w).2.
Proof.
  unfold translate_text, bind.
  destruct (cache_get E (strip text, source_lang, lang) w) as [[cached|e] w0]
    eqn:Hget;
    destruct (cache_get_frame E _ _ _ _ Hget) as (_ & Ht & _).
  - assert (H0 : asks text source_lang [lang] w w0).
    { apply (asks_step _ _ _ _ _ []); [by rewrite Ht, app_nil_r | done]. }
    eapply asks_trans; [exact H0|].
    destruct cached as [[|c s]|]; try apply backend_chain_asks.
    apply (asks_step _ _ _ _ _ []); [cbn; by rewrite app_nil_r | done].
  - apply (asks_step _ _ _ _ _ []); [cbn [snd]; by rewrite Ht, app_nil_r|].
    done.
Qed.

Lemma translate_all_asks text source_lang (langs : list str)
    (translations : list (str * str)) w :
  asks text source_lang langs w
    (translate_all E text source_lang langs translations w).2.
Proof.
  revert w translations. induction langs as [|lang langs IH];
    intros w translations; [apply asks_refl|].
  pose proof (translate_text_asks text source_lang lang w) as H1.
  apply (asks_more _ _ _ (lang :: langs)) in H1;
    [|intros x ->%list_elem_of_singleton; left].
  cbn [translate_all]. unfold bind at 1. unfold try_except, bind at 1.
  destruct (translate_text E text source_lang lang w) as [[r|e] w1];
    cbn [snd] in H1; cbn;
    (eapply asks_trans; [exact H1|];
     eapply asks_more; [|apply IH]; intros x ?; by right).
Qed.

(** The events of a run of on_message: the calls and the log records of the
    translations, then nothing, or the delivery of an embed made from at
    least one translation into languages that were asked for. *)
Lemma on_message_trace message w :
  exists l d,
    trace (on_message E message w).2 = trace w ++ l ++ d
    /\ Forall (needed_by E message) l
    /\ (d = []
        \/ exists source_lang translations fields,
             translations ≠ []
             /\ OrderedDict.keys translations
                `sublist_of` langs_to_translate source_lang
             /\ add_fields translations [] = Ok fields
             /\ (d = [Reply {| discord.fields := fields |}]
                 \/ exists level,
                      d = [Reply {| discord.fields := fields |}; Log level])).
Proof.
  assert (Hnone : forall w1,
    trace w1 = trace w ->
    exists l d,
      trace w1 = trace w ++ l ++ d
      /\ Forall (needed_by E message) l
      /\ (d = []
          \/ exists source_lang translations fields,
               translations ≠ []
               /\ OrderedDict.keys translations
                  `sublist_of` langs_to_translate source_lang
               /\ add_fields translations [] = Ok fields
               /\ (d = [Reply {| discord.fields := fields |}]
                   \/ exists level,
                        d = [Reply {| discord.fields := fields |};
                             Log level]))).
  { intros w1 Ht. exists [], []. rewrite Ht, app_nil_r.
    split; [done|]. split; [done | by left]. }
  destruct (check_rate_limit_frame (clock E (ticks w))
              (discord.id (discord.author message)) (tick w))
    as (_ & Hcheck & _).
  cbn zeta in Hcheck.
  destruct (on_message_shape E message w)
    as [[_ ->]|[(_ & _ & ->)|(_ & _ & [[_ ->]|Hrun])]]; cbn [snd];
    [by apply Hnone..|].
  destruct Hrun as (detected & translations & w2 & Hdetect & Hall & Hend).
  pose proof (translate_all_asks (strip (discord.content message))
                (normalize_lang detected)
                (langs_to_translate (normalize_lang detected)) []
                (check_rate_limit (clock E (ticks w))
                   (discord.id (discord.author message)) (tick w)).2)
    as (l & Ht & Hl).
  rewrite Hall, Hcheck in Ht. cbn [snd trace tick] in Ht.
  assert (Hl' : Forall (needed_by E message) l).
  { eapply Forall_impl; [exact Hl|].
    intros [b s t x|level|embed]; cbn; [|done..].
    intros (-> & -> & Hin%langs_to_translate_targets).
    split; [done|]. split; [eauto | done]. }
  pose proof Hall as Hkeys.
  apply translate_all_keys in Hkeys as (l0 & Hkeys & Hsub);
    [|apply NoDup_langs_to_translate | intros k _; apply not_elem_of_nil].
  cbn in Hkeys. rewrite <- Hkeys in Hsub. clear Hkeys l0.
  assert (Hquiet : exists l0 d,
    trace w2 = trace w ++ l0 ++ d
    /\ Forall (needed_by E message) l0
    /\ (d = []
        \/ exists source_lang translations fields,
             translations ≠ []
             /\ OrderedDict.keys translations
                `sublist_of` langs_to_translate source_lang
             /\ add_fields translations [] = Ok fields
             /\ (d = [Reply {| discord.fields := fields |}]
                 \/ exists level,
                      d = [Reply {| discord.fields := fields |};
                           Log level]))).
  { exists l, []. rewrite app_nil_r. split; [done|]. split; [done | by left]. }
  destruct translations as [|t translations]; [by rewrite Hend|].
  destruct (add_fields (t :: translations) []) as [fields|e] eqn:Hfields;
    rewrite Hend; [|done].
  destruct (deliver_trace E message {| discord.fields := fields |}
              (t :: translations) w2) as (d & Hd & Hone).
  exists l, d. rewrite Hd, Ht, <- app_assoc. split; [done|]. split; [done|].
  right. exists (normalize_lang detected), (t :: translations), fields.
  done.
Qed.

(** X15. Whatever the cache holds, a run of on_message asks the backends
    only for what the message needs: every call to a backend is for the
    stripped text of the message, from the normalised language the detector
    found, into a language of TARGET_LANGUAGES other than that language.
    All the calls come before the reply, of which there is at most one,
    followed by at most one log record. *)
Theorem on_message_asks_for_target_languages_only message w :
  exists l d,
    trace (on_message E message w).2 = trace w ++ l ++ d
    /\ Forall (needed_by E message) l
    /\ one_reply d.
Proof.
  destruct (on_message_trace message w) as (l & d & Ht & Hl & Hd).
  exists l, d. split; [done|]. split; [done|].
  destruct Hd as [->|(s & tr & fields & _ & _ & _ & Hd)]; [by left|].
  right. by exists {| discord.fields := fields |}.
Qed.

Lemma length_langs_to_translate source_lang :
  (length (langs_to_translate source_lang) <= 3)%nat.
Proof.
  unfold langs_to_translate.
  destruct (OrderedDict.contains source_lang TARGET_LANGUAGES); cbn; [|lia].
  repeat case_bool_decide; cbn; lia.
Qed.

Lemma clipped_fields_short (translations fields : list (str * str)) :
  Forall2 (fun kv f => clipped kv.2 f.2) translations fields ->
  Forall (fun f => len f.2 <= 1000) fields.
Proof.
  induction 1 as [|kv f translations fields [Hshort Hlong] _ IH];
    constructor; [|done].
  destruct (Z_le_gt_dec (len kv.2) 1000) as [Hle|Hgt].
  - by rewrite (Hshort Hle).
  - destruct (Hlong Hgt) as [-> _]. lia.
Qed.

(** X16. The embed of a reply is well formed: an embed that a run of
    on_message sends has one field for each translation gathered, so
    between one and three fields, and no value of a field is longer than
    1000 characters. *)
Theorem reply_is_well_formed message w (embed : discord.Embed) :
  Reply embed ∈ new_events w (on_message E message w).2 ->
  (1 <= length (discord.fields embed) <= 3)%nat
  /\ Forall (fun f => len f.2 <= 1000) (discord.fields embed).
Proof.
  destruct (on_message_trace message w) as (l & d & Ht & Hl & Hd).
  rewrite (new_events_app _ _ _ Ht).
  intros [Hin|Hin]%elem_of_app.
  { by apply (proj1 (Forall_forall _ _) Hl) in Hin. }
  destruct Hd as [->|(s & tr & fields & Hne & Hsub & Hfields & Hd)];
    [by apply not_elem_of_nil in Hin|].
  assert (Hembed : embed = {| discord.fields := fields |}).
  { destruct Hd as [->|[level ->]].
    - apply list_elem_of_singleton in Hin. by injection Hin as ->.
    - apply elem_of_cons in Hin as [Hin|Hin]; [by injection Hin as ->|].
      by apply list_elem_of_singleton in Hin. }
  subst embed. cbn.
  assert (Htargets :
    Forall (fun kv => kv.1 ∈ OrderedDict.keys TARGET_LANGUAGES) tr).
  { apply Forall_forall. intros kv Hkv.
    eapply langs_to_translate_targets, elem_of_sublist; [|exact Hsub].
    unfold OrderedDict.keys. by apply list_elem_of_fmap_2. }
  destruct (add_fields_ok tr [] Htargets) as (new & Hnew & Hclipped).
  rewrite Hfields in Hnew. injection Hnew as ->. cbn in Hclipped.
  split; [|by eapply clipped_fields_short].
  rewrite <- (Forall2_length _ _ _ Hclipped).
  pose proof (sublist_length _ _ Hsub) as Hlen.
  pose proof (length_langs_to_translate s).
  unfold OrderedDict.keys in Hlen. rewrite length_fmap in Hlen.
  destruct tr; [done|]. cbn in *. lia.
Qed.
End outside.

(** ** A message is answered when a backend answers *)
Section answered.
Context {U : Unicode} {cfg : Config} (E : Env).
Implicit Types (w : World) (message : discord.Message)
  (text source_lang lang : str).

(** The check allows when the cooldown has passed and the quota of the hour
    is not used up. *)
Lemma check_allows (now author_id : Z) w :
  COOLDOWN_SECONDS <= now - last_accepted author_id w ->
  Z.of_nat (length (within_hour now (recorded author_id w)))
  < MAX_TRANSLATIONS_PER_HOUR ->
  (check_rate_limit now author_id w).1.1 = true.
Proof.
  intros Hcool Hquota. rewrite check_rate_limit_unfold. cbn zeta.
  destruct (Z.ltb_spec (now - last_accepted author_id w) COOLDOWN_SECONDS);
    [lia|].
  rewrite Z.geb_leb.
  destruct (Z.leb_spec MAX_TRANSLATIONS_PER_HOUR
              (Z.of_nat (length (within_hour now (recorded author_id w)))));
    [lia | done].
Qed.

Lemma attempt_google_answers (key : str * str * str) text source_lang lang w :
  cache_ok w ->
  (forall n s t x, exists r, GoogleTranslator E n s t x = Ok r) ->
  exists v w',
    attempt E Google key text source_lang lang w = (Ok v, w').
Proof.
  intros (Hcons & Hm & _) Hgoogle. rewrite attempt_unfold. cbn [translator].
  destruct (Hgoogle (ticks w) source_lang lang text) as [r ->]. cbn zeta.
  destruct (set_resident
              (clock E (ticks (after_answer Google source_lang lang text w)))
              key r (translation_cache w) Hm Hcons) as (c' & Hset & _).
  change (translation_cache (after_answer Google source_lang lang text w))
    with (translation_cache w).
  rewrite Hset. eauto.
Qed.

Lemma backend_chain_answers (key : str * str * str) text source_lang lang w :
  cache_ok w ->
  (forall n s t x, exists r, GoogleTranslator E n s t x = Ok r) ->
  exists v w',
    backend_chain E key text source_lang lang w = (Ok v, w').
Proof.
  intros Hok Hgoogle. rewrite backend_chain_unfold.
  pose proof (attempt_progress E MyMemory key text source_lang lang w)
    as (_ & _ & Hc1).
  destruct (attempt E MyMemory key text source_lang lang w) as [[r1|e1] w1];
    [eauto|].
  destruct (Hc1 Hok) as [Hok1 _]. cbn [snd] in Hok1.
  destruct (attempt_google_answers key text source_lang lang
              (emit (Log WARNING) w1) Hok1 Hgoogle) as (v & w' & ->).
  eauto.
Qed.

(** On a sound cache, when Google always answers, a translation returns. *)
Lemma translate_text_answers text source_lang lang w :
  cache_ok w ->
  (forall n s t x, exists r, GoogleTranslator E n s t x = Ok r) ->
  exists v w',
    translate_text E text source_lang lang w = (Ok v, w').
Proof.
  intros Hok Hgoogle. unfold translate_text, bind.
  pose proof (cache_get_progress E (strip text, source_lang, lang) w)
    as (_ & _ & Hc0).
  destruct (get_resident (clock E (ticks w)) (strip text, source_lang, lang)
              (translation_cache w) (proj1 Hok)) as (r & c' & Hget & _).
  assert (Hrun : exists w0,
    cache_get E (strip text, source_lang, lang) w = (Ok r, w0)).
  { unfold cache_get. rewrite Hget. eauto. }
  destruct Hrun as [w0 Hrun]. rewrite Hrun in Hc0 |- *. cbn [snd] in Hc0.
  destruct (Hc0 Hok) as [Hok0 _].
  destruct r as [[|c s]|]; [by apply backend_chain_answers | |
                            by apply backend_chain_answers].
  cbn. eauto.
Qed.

Lemma translate_all_answers text source_lang (langs : list str)
    (translations : list (str * str)) w :
  cache_ok w ->
  (forall n s t x, exists r, GoogleTranslator E n s t x = Ok r) ->
  NoDup langs ->
  (forall k, k ∈ langs -> k ∉ OrderedDict.keys translations) ->
  exists translations' w',
    translate_all E text source_lang langs translations w
    = (Ok translations', w')
    /\ OrderedDict.keys translations'
       = OrderedDict.keys translations ++ langs.
Proof.
  intros Hok Hgoogle. revert translations w Hok.
  induction langs as [|lang langs IH]; intros translations w Hok Hnd Hnew.
  - exists translations, w. by rewrite app_nil_r.
  - apply NoDup_cons in Hnd as [Hlang Hnd].
    pose proof (translate_text_progress E text source_lang lang w)
      as (_ & _ & Hc1).
    destruct (translate_text_answers text source_lang lang w Hok Hgoogle)
      as (v & w1 & Hrun).
    cbn [translate_all]. unfold bind at 1. unfold try_except, bind at 1.
    rewrite Hrun in Hc1 |- *. cbn [snd] in Hc1.
    destruct (IH (OrderedDict.setitem lang v translations) w1)
      as (tr & w' & Hall & Hkeys); [by apply Hc1 | done | |].
    { intros k Hk. rewrite keys_setitem_new by (apply Hnew; left).
      rewrite elem_of_app, list_elem_of_singleton.
      intros [Hin| ->]; [|done]. eapply Hnew; [|exact Hin]. by right. }
    exists tr, w'. cbn. rewrite Hall. split; [done|].
    rewrite Hkeys, keys_setitem_new, <- app_assoc; [done|].
    apply Hnew. left.
Qed.

(** There are always at least two languages to translate into: the test
    of line 238 never holds. *)
Lemma langs_to_translate_two source_lang :
  (2 <= length (langs_to_translate source_lang))%nat.
Proof.
  unfold langs_to_translate.
  destruct (OrderedDict.contains source_lang TARGET_LANGUAGES);
    cbn [negb]; rewrite keys_TARGET_LANGUAGES; [|cbn; lia].
  cbn [List.filter].
  repeat case_bool_decide; cbn [negb length]; try lia; exfalso;
    match goal with
    | H1 : ?a = source_lang, H2 : ?b = source_lang |- _ =>
        rewrite <- H1 in H2; vm_compute in H2; discriminate H2
    end.
Qed.

(** X17. A message is answered when a backend answers: when the message
    passes the filter, the cooldown of its author has passed and the quota
    of the hour is not used up, the language is detected, the cache is
    sound and Google answers every call, a run of on_message sends a reply
    whose embed has one field for each language of langs_to_translate. *)
Theorem message_is_answered_when_a_backend_answers message w
    (detected : str) :
  let author_id := discord.id (discord.author message) in
  let now := clock E (ticks w) in
  should_translate message = true ->
  COOLDOWN_SECONDS <= now - last_accepted author_id w ->
  Z.of_nat (length (within_hour now (recorded author_id w)))
  < MAX_TRANSLATIONS_PER_HOUR ->
  detect E (strip (discord.content message)) = Ok detected ->
  cache_ok w ->
  (forall n s t x, exists r, GoogleTranslator E n s t x = Ok r) ->
  exists embed,
    Reply embed ∈ new_events w (on_message E message w).2
    /\ length (discord.fields embed)
       = length (langs_to_translate (normalize_lang detected)).
Proof.
  cbn zeta. intros Hfilter Hcool Hquota Hdetect Hok Hgoogle.
  pose proof (check_allows _ _ (tick w) Hcool Hquota) as Hcan.
  pose proof (check_progress (clock E (ticks w))
                (discord.id (discord.author message)) (tick w))
    as (_ & _ & Hcheck).
  assert (Hok1 : cache_ok (check_rate_limit (clock E (ticks w))
                   (discord.id (discord.author message)) (tick w)).2)
    by by apply Hcheck.
  destruct (check_rate_limit_frame (clock E (ticks w))
              (discord.id (discord.author message)) (tick w))
    as (_ & Htrace & _).
  cbn zeta in Htrace.
  destruct (on_message_shape E message w)
    as [[H _]|[(_ & H & _)|(_ & _ & [[[e He] _]|Hrun])]];
    [congruence | congruence | congruence |].
  destruct Hrun as (detected' & translations & w2 & Hdetect' & Hall & Hend).
  assert (detected' = detected) as -> by congruence.
  destruct (translate_all_answers (strip (discord.content message))
              (normalize_lang detected)
              (langs_to_translate (normalize_lang detected)) [] _ Hok1
              Hgoogle (NoDup_langs_to_translate _))
    as (tr & w2' & Hall' & Hkeys).
  { intros k _. apply not_elem_of_nil. }
  rewrite Hall in Hall'. injection Hall' as <- <-. cbn in Hkeys.
  pose proof (translate_all_asks E (strip (discord.content message))
                (normalize_lang detected)
                (langs_to_translate (normalize_lang detected)) []
                (check_rate_limit (clock E (ticks w))
                   (discord.id (discord.author message)) (tick w)).2)
    as (l & Ht & _).
  rewrite Hall, Htrace in Ht. cbn [snd trace tick] in Ht.
  assert (Htargets :
    Forall (fun kv => kv.1 ∈ OrderedDict.keys TARGET_LANGUAGES) translations).
  { apply Forall_forall. intros kv Hkv.
    apply (langs_to_translate_targets (normalize_lang detected)).
    rewrite <- Hkeys. unfold OrderedDict.keys. by apply list_elem_of_fmap_2. }
  destruct (add_fields_ok translations [] Htargets)
    as (fields & Hfields & Hclipped).
  cbn in Hfields.
  assert (Hlen : length fields
                 = length (langs_to_translate (normalize_lang detected))).
  { rewrite <- (Forall2_length _ _ _ Hclipped), <- Hkeys.
    unfold OrderedDict.keys. by rewrite length_fmap. }
  destruct translations as [|t translations].
  { pose proof (langs_to_translate_two (normalize_lang detected)) as Htwo.
    rewrite <- Hkeys in Htwo. cbn in Htwo. lia. }
  rewrite Hfields in Hend.
  destruct (deliver_trace E message {| discord.fields := fields |}
              (t :: translations) w2) as (d & Hd & Hone).
  rewrite <- Hend in Hd. rewrite Ht, <- app_assoc in Hd.
  exists {| discord.fields := fields |}. split; [|exact Hlen].
  rewrite (new_events_app _ _ _ Hd). apply elem_of_app. right.
  destruct Hone as [->|[level ->]]; apply list_elem_of_here.
Qed.
End answered.

(** * Further examples *)

Lemma initial_world_cache_ok : cache_ok initial_world.
Proof.
  split; [apply init_consistent|]. split; [by vm_compute|]. by vm_compute.
Qed.


(** In the full cache, writing key 2 again keeps the three keys and moves
    key 2 to the end. *)
Lemma set_overwrites_in_place_witness :
  exists c',
    TTLCache.set 40 2 99 full_cache = (Ok tt, c')
    /\ TTLCache.__len__ c' = 3
    /\ History.resident c' = [1; 3; 2].
Proof.
  destruct (set_overwrites_in_place full_cache 2 99 40)
    as (c' & Hset & Hlen & Hres & _).
  - exact full_cache_consistent.
  - vm_compute. discriminate.
  - rewrite full_cache_resident. apply elem_of_cons. right.
    apply list_elem_of_here.
  - exists c'. split; [exact Hset|]. split; [exact Hlen|].
    rewrite Hres, full_cache_resident. reflexivity.
Defined.

(** Key 1 written at time 10 with a TTL of 60: reads at times 20 and 50 do
    not keep it alive, the read at time 100 returns None. *)
Lemma reads_do_not_extend_life_witness :
  exists c1 c2 c3,
    TTLCache.set 10 1 11 small_cache = (Ok tt, c1)
    /\ History.run [History.OpGet 20 1; History.OpGet 50 1] c1 = (Ok tt, c2)
    /\ TTLCache.get 100 1 c2 = (Ok None, c3).
Proof.
  apply (proj2 (reads_do_not_extend_life (K:=Z) (V:=Z))
           small_cache 1 11 10 [History.OpGet 20 1; History.OpGet 50 1] 100).
  - apply init_consistent.
  - vm_compute. discriminate.
  - vm_compute. discriminate.
  - repeat constructor.
  - vm_compute. reflexivity.
Defined.

(** A cache of capacity 0 stores nothing; a cache of capacity -1 raises on
    the first write. *)
Lemma set_at_edge_capacities_witness :
  (exists c',
     TTLCache.set 10 1 11 (TTLCache.__init__ (K:=Z) (V:=Z) 0 60) = (Ok tt, c')
     /\ TTLCache._cache c' = [])
  /\ (exists c',
        TTLCache.set 10 1 11 (TTLCache.__init__ (K:=Z) (V:=Z) (-1) 60)
        = (Raise KeyError, c')
        /\ TTLCache._cache c' = []).
Proof.
  split.
  - destruct (proj1 (set_at_edge_capacities
                       (TTLCache.__init__ (K:=Z) (V:=Z) 0 60) 1 11 10))
      as (c' & Hset & Hempty & _).
    + reflexivity.
    + by exists c'.
  - apply (proj2 (set_at_edge_capacities
                    (TTLCache.__init__ (K:=Z) (V:=Z) (-1) 60) 1 11 10)).
    vm_compute. reflexivity.
Defined.

(** After the commit of user 7 at time 1000 the check of user 8 at time
    1010 answers as before the commit, and the check of user 7 is denied
    for the cooldown. *)
Lemma rate_limit_is_per_user_witness :
  (@check_rate_limit default_config 1010 8
     (@update_rate_limit 1000 7 initial_world)).1
  = (@check_rate_limit default_config 1010 8 initial_world).1
  /\ (@check_rate_limit default_config 1010 7
        (@update_rate_limit 1000 7 initial_world)).1
     = (false, "cooldown"%string).
Proof.
  destruct (@rate_limit_is_per_user default_config 1000 1010 7 8
              initial_world) as [Hother _].
  destruct (@rate_limit_is_per_user default_config 1000 1010 7 7
              initial_world) as [_ Hsame].
  split.
  - apply Hother. discriminate.
  - apply Hsame. vm_compute. reflexivity.
Defined.


(** User 7 has twenty-nine recorded timestamps at the start and thirty, the
    quota, after a message handled with no other handler in between. *)
Lemma record_stays_within_quota_witness :
  let w' :=
    (Coroutine.alone
       (@Coroutine.on_message ascii_tables default_config env_google_only
          some_message) world_below_quota).2 in
  length (recorded 7 world_below_quota) = 29%nat
  /\ length (recorded 7 w') = 30%nat
  /\ Z.of_nat (length (recorded 7 w'))
     <= @MAX_TRANSLATIONS_PER_HOUR default_config.
Proof.
  split; [by vm_compute|]. split; [by vm_compute|].
  apply (proj1 record_stays_within_quota ascii_tables default_config
           env_google_only some_message world_below_quota 7).
  vm_compute. discriminate.
Defined.

(** The cache of the initial state is sound, and so it is after the first
    message. *)
Lemma cache_stays_within_capacity_witness :
  cache_ok
    (@on_message ascii_tables default_config env_google_only some_message
       initial_world).2.
Proof.
  apply (proj1 (@cache_stays_within_capacity ascii_tables default_config
                  env_google_only initial_world initial_world_cache_ok)
           some_message).
Defined.

(** When the reply fails with an exception that is not one of discord's,
    the handler raises it; when the reply to a direct message is rejected
    for lack of permission, the handler raises AttributeError. *)
Lemma on_message_raises_only_from_reply_witness :
  (exists n embed,
     reply env_reply_fails n embed = Raise (Exception_ "connection")
     /\ Exception_ "connection" ≠ Forbidden
     /\ Exception_ "connection" ≠ HTTPException)
  /\ (@on_message ascii_tables default_config (env_replying (Raise Forbidden))
        some_direct_message initial_world).1
     = Raise AttributeError
  /\ exists n embed,
       reply (env_replying (Raise Forbidden)) n embed = Raise Forbidden
       /\ discord.channel some_direct_message = discord.DMChannel.
Proof.
  split; [|split; [vm_compute; reflexivity|]].
  - destruct (@on_message_raises_only_from_reply ascii_tables default_config
                env_reply_fails some_message initial_world
                (Exception_ "connection"))
      as (n & embed & [H|(_ & _ & H)]).
    + vm_compute. reflexivity.
    + by exists n, embed.
    + discriminate H.
  - destruct (@on_message_raises_only_from_reply ascii_tables default_config
                (env_replying (Raise Forbidden)) some_direct_message
                initial_world AttributeError)
      as (n & embed & [(H & _)|(H & Hchannel & _)]).
    + vm_compute. reflexivity.
    + discriminate H.
    + by exists n, embed.
Defined.

(** A translation of 1200 characters into English is cut to 1000; a
    translation into German cannot be shown. *)
Lemma add_fields_clips_long_translations_witness :
  (exists fields,
     add_fields [(py "en", long_translation)] [] = Ok fields
     /\ Forall (fun f => len f.2 <= 1000) fields)
  /\ add_fields [(py "de", py "Hallo")] [] = Raise KeyError.
Proof.
  split.
  - destruct (proj1 (add_fields_clips_long_translations
                       [(py "en", long_translation)]))
      as (fields & Hrun & _ & Hshort).
    + repeat constructor.
    + by exists fields.
  - apply (proj2 (add_fields_clips_long_translations [(py "de", py "Hallo")])).
    apply Exists_cons_hd. cbn [fst]. rewrite keys_TARGET_LANGUAGES.
    intros Hde.
    repeat (apply elem_of_cons in Hde as [Hde|Hde]; [discriminate Hde|]).
    by apply elem_of_nil in Hde.
Defined.



(** The uptime shown after 3725 seconds has a number of hours that is not
    negative. *)
Lemma uptime_rounds_down_to_the_minute_witness :
  uptime 3725 = (1, 2) /\ 0 <= (uptime 3725).1.
Proof.
  pose proof (uptime_rounds_down_to_the_minute 3725) as H.
  split; [reflexivity|].
  destruct (uptime 3725) as [h m]. destruct H as (_ & _ & Hh).
  apply Hh. vm_compute. discriminate.
Defined.

(** From the initial state, with MyMemory down and Google answering, the
    two languages asked for are both counted as calls. *)
Lemma translate_all_accounts_for_every_language_witness :
  exists translations w',
    translate_all env_google_only (py "Bonjour le monde") (py "fr")
      [py "en"; py "es"] [] initial_world
    = (Ok translations, w')
    /\ counted (Z.of_nat (length translations))
         (2 - Z.of_nat (length translations)) initial_world w'.
Proof.
  destruct (translate_all_accounts_for_every_language
              env_google_only (py "Bonjour le monde") (py "fr")
              [py "en"; py "es"] initial_world)
    as (translations & w' & Hrun & _ & Hcount).
  - exact initial_world_cache_ok.
  - apply NoDup_cons. split.
    + intros Hin. apply list_elem_of_singleton in Hin. discriminate Hin.
    + apply NoDup_singleton.
  - by exists translations, w'.
Defined.

(** The counters of the initial state are sound, and so they are after the
    first message. *)
Lemma counters_stay_sound_witness :
  stats_ok
    (stats
       (@on_message ascii_tables default_config env_google_only some_message
          initial_world).2).
Proof.
  apply (@counters_stay_sound ascii_tables default_config env_google_only
           some_message initial_world).
  - exact initial_world_cache_ok.
  - vm_compute. repeat split; discriminate.
Defined.

(** The reply to the first message has two fields, for English and for
    Spanish. *)
Lemma reply_is_well_formed_witness :
  (1 <= length (discord.fields reply_to_some_message) <= 3)%nat
  /\ Forall (fun f => len f.2 <= 1000) (discord.fields reply_to_some_message).
Proof.
  apply (@reply_is_well_formed ascii_tables default_config env_google_only
           some_message initial_world).
  apply (list_elem_of_lookup_2 _ 6). vm_compute. reflexivity.
Defined.

(** The first message of user 7, with Google answering, is answered with an
    embed of two fields. *)
Lemma message_is_answered_when_a_backend_answers_witness :
  exists embed,
    Reply embed
    ∈ new_events initial_world
        (@on_message ascii_tables default_config env_google_only some_message
           initial_world).2
    /\ length (discord.fields embed) = 2%nat.
Proof.
  apply (@message_is_answered_when_a_backend_answers ascii_tables
           default_config env_google_only some_message initial_world
           (py "fr")).
  - vm_compute. reflexivity.
  - vm_compute. discriminate.
  - vm_compute. reflexivity.
  - reflexivity.
  - exact initial_world_cache_ok.
  - intros n s t x. by exists (py "Hello world").
Defined.
